(** * python-sc2, [sc2/game_info.py]: ramp discovery and ramp geometry

    A shallow embedding of [GameInfo._find_groups] (flood fill of the
    walkable-but-not-buildable cells into groups) and of the [Ramp] class
    (upper / lower points, the two wall points, and the wall placement
    positions derived from them), with the properties of the design
    document proved or refuted on the embedding.

    Conventions.
    - A grid point is a pair of integers [(x, y)]; Python's unbounded [int]
      is [Z].
    - A Python [set] of grid points is a [gset Point2].  The order in which
      a set is iterated and the element that [set.pop()] removes are not
      fixed by the language: they are the parameters [set_iter] and
      [set_pick], and every statement holds for all of them.
    - A raised exception is the [Raise] branch of [result]. *)

From Stdlib Require Import ZArith QArith Lia.
From stdpp Require Import gmap list sets numbers sorting.

Local Open Scope Z_scope.

(** ** Exceptions and results *)

Inductive exn : Type :=
| IndexError          (* list index out of range *)
| KeyError            (* set.remove of an absent element, pop of an empty set *)
| ZeroDivisionError   (* [/ length] with an empty set *)
| StopIteration       (* [next(iter(s))] of an empty set *)
| ValueError          (* [max] of an empty sequence *)
| GeometryError       (* a failure inside a [Point2] primitive *)
| DegenerateRamp      (* "Not implemented. Trying to access a ramp that has
                         a wrong amount of upper points." *)
| TypeError           (* an operation on an object of the wrong kind *)
| Diverges.           (* the model's loop bound was exhausted *)

Inductive result (A : Type) : Type :=
| Ok (a : A)
| Raise (e : exn).
Arguments Ok {A} a.
Arguments Raise {A} e.

#[global] Instance result_ret : MRet result := fun A a => Ok a.
#[global] Instance result_bind : MBind result := fun A B f m =>
  match m with Ok a => f a | Raise e => Raise e end.

#[global] Instance result_fmap : FMap result := fun A B f m =>
  match m with Ok a => Ok (f a) | Raise e => Raise e end.

#[global] Instance exn_eq_dec : EqDecision exn.
Proof. solve_decision. Defined.

(** [for x in l: st = body(x, st)], stopping at the first exception. *)
Fixpoint for_each {A S : Type} (body : A -> S -> result S) (l : list A) (st : S)
  : result S :=
  match l with
  | [] => Ok st
  | x :: l' => st' ← body x st; for_each body l' st'
  end.

(** ** Grid points *)

Definition Point2 : Type := (Z * Z)%type.

Definition px (p : Point2) : Z := fst p.
Definition py (p : Point2) : Z := snd p.

(** ** Python lists indexed by an [int] *)

(** [l[i]] accepts [-len <= i < len]; a negative index counts from the end. *)
Definition py_index (len : nat) (i : Z) : result nat :=
  if decide (0 <= i < Z.of_nat len) then Ok (Z.to_nat i)
  else if decide (- Z.of_nat len <= i < 0) then Ok (Z.to_nat (Z.of_nat len + i))
  else Raise IndexError.

Definition py_getitem {A : Type} (l : list A) (i : Z) : result A :=
  n ← py_index (length l) i;
  match l !! n with
  | Some a => Ok a
  | None => Raise IndexError
  end.

Definition py_setitem {A : Type} (l : list A) (i : Z) (a : A) : result (list A) :=
  n ← py_index (length l) i;
  Ok (<[n := a]> l).

(** [range(a, b)] *)
Definition py_range (a b : Z) : list Z :=
  (fun i : nat => a + Z.of_nat i) <$> seq 0 (Z.to_nat (b - a)).

(** ** Python sets of grid points *)

(** [s.pop()]: removes and returns the element [set_pick] chooses. *)
Definition set_pop (set_pick : gset Point2 -> Point2) (s : gset Point2)
  : result (Point2 * gset Point2) :=
  if decide (s = ∅) then Raise KeyError
  else Ok (set_pick s, s ∖ {[set_pick s]}).

(** [s.remove(p)] *)
Definition set_remove (p : Point2) (s : gset Point2) : result (gset Point2) :=
  if decide (p ∈ s) then Ok (s ∖ {[p]}) else Raise KeyError.

(** [next(iter(s))] *)
Definition py_next_iter (set_iter : gset Point2 -> list Point2) (s : gset Point2)
  : result Point2 :=
  match set_iter s with
  | [] => Raise StopIteration
  | p :: _ => Ok p
  end.

(** [sum(...)] of integers *)
Definition py_sum (l : list Z) : Z := foldl Z.add 0 l.

(** ** [GameInfo._find_groups] *)

Module FindGroups.

Definition NOT_INTERESTED : Z := -2.
Definition NOT_COLORED_YET : Z := -1.

(** [picture[pt.y][pt.x] = currentColor] *)
Definition paint (picture : list (list Z)) (pt : Point2) (currentColor : Z)
  : result (list (list Z)) :=
  row ← py_getitem picture (py pt);
  row' ← py_setitem row (px pt) currentColor;
  py_setitem picture (py pt) row'.

(** The set comprehension building [nearby]. *)
Definition nearby (max_distance_between_points : Z) : gset Point2 :=
  list_to_set
    (dx ← py_range (- max_distance_between_points) (max_distance_between_points + 1);
     dy ← py_range (- max_distance_between_points) (max_distance_between_points + 1);
     if decide (Z.abs dx + Z.abs dy <= max_distance_between_points)
     then [(dx, dy)] else []).

(** [[[NOT_INTERESTED for _ in range(map_width)] for _ in range(map_height)]] *)
Definition blank_picture (map_width map_height : Z) : list (list Z) :=
  (fun _ => (fun _ => NOT_INTERESTED) <$> py_range 0 map_width)
    <$> py_range 0 map_height.

(** The variables the two loops update. *)
Record state : Type := State {
  picture : list (list Z);
  remaining : gset Point2;
  queue : list Point2;
  currentGroup : gset Point2;
}.

Section with_sets.

(** Iteration order of a set, and the element [pop()] takes. *)
Variable set_iter : gset Point2 -> list Point2.
Variable set_pick : gset Point2 -> Point2.

Section with_map.

Variables map_width map_height : Z.

(** One pass of [for offset in nearby] for one offset. *)
Definition visit_offset (currentColor : Z) (base offset : Point2) (st : state)
  : result state :=
  let x := px base + px offset in
  let y := py base + py offset in
  if decide (x < 0 \/ y < 0 \/ x >= map_width \/ y >= map_height) then Ok st
  else
    row ← py_getitem (picture st) y;
    v ← py_getitem row x;
    if decide (v <> NOT_COLORED_YET) then Ok st
    else
      let point : Point2 := (x, y) in
      remaining' ← set_remove point (remaining st);
      picture' ← paint (picture st) point currentColor;
      Ok (State picture' remaining' (queue st ++ [point])
                ({[point]} ∪ currentGroup st)).

(** [while queue: base = queue.popleft(); for offset in nearby: ...] *)
Fixpoint drain_queue (fuel : nat) (currentColor : Z) (offsets : gset Point2)
    (st : state) : result state :=
  match fuel with
  | O => Raise Diverges
  | S fuel' =>
      match queue st with
      | [] => Ok st
      | base :: rest =>
          st' ← for_each (visit_offset currentColor base) (set_iter offsets)
                  (State (picture st) (remaining st) rest (currentGroup st));
          drain_queue fuel' currentColor offsets st'
      end
  end.

(** [while remaining: ...].  [pic], [rem] and [q] are the picture, the
    remaining set and the queue on entry to an iteration; the group of an
    iteration starts empty. *)
Fixpoint group_loop (fuel : nat) (minimum_points_per_group : Z)
    (offsets : gset Point2) (pic : list (list Z)) (rem : gset Point2)
    (q : list Point2) (currentColor : Z) (foundGroups : list (gset Point2))
  : result (list (gset Point2)) :=
  match fuel with
  | O => Raise Diverges
  | S fuel' =>
      if decide (rem = ∅) then Ok foundGroups
      else
        '(st, color) ←
          match q with
          | [] =>
              let color := currentColor + 1 in
              '(start, rem') ← set_pop set_pick rem;
              pic' ← paint pic start color;
              Ok (State pic' rem' [start] {[start]}, color)
          | _ => Ok (State pic rem q ∅, currentColor)
          end;
        st' ← drain_queue (S (size (remaining st) + length (queue st)))
                color offsets st;
        let foundGroups' :=
          if decide (Z.of_nat (size (currentGroup st')) >= minimum_points_per_group)
          then foundGroups ++ [currentGroup st'] else foundGroups in
        group_loop fuel' minimum_points_per_group offsets (picture st')
          (remaining st') (queue st') color foundGroups'
  end.

Definition _find_groups (points : gset Point2)
    (minimum_points_per_group max_distance_between_points : Z)
  : result (list (gset Point2)) :=
  let offsets := nearby max_distance_between_points in
  picture0 ← for_each (fun point pic => paint pic point NOT_COLORED_YET)
               (set_iter points) (blank_picture map_width map_height);
  group_loop (S (size points)) minimum_points_per_group offsets picture0
    points [] NOT_COLORED_YET [].

End with_map.
End with_sets.

End FindGroups.

(** ** Numbers and [Point2] primitives used by [Ramp] *)

(** The arithmetic the class performs on [float]s.  The floating-point
    operations themselves are not modelled: the development is parametric
    in them, and is run on exact rationals below. *)
Class FloatOps (F : Type) : Type := {
  of_Z : Z -> F;            (* an [int] used as a number *)
  of_Q : Q -> F;            (* a literal such as [0.5] *)
  fadd : F -> F -> F;       (* [a + b] *)
  fdiv : F -> F -> F;       (* [a / b], [b] not zero *)
  fltb : F -> F -> bool;    (* [a < b] *)
  fsqrt : F -> F;           (* [a ** 0.5] *)
}.

(** [a > b] *)
Definition fgtb {F : Type} `{FloatOps F} (a b : F) : bool := fltb b a.

(** The methods of [Point2] (module [position], not part of this file) that
    [Ramp] calls, on points with real-valued coordinates.  A failure inside
    [circle_intersection] is [None]; the set it returns is given in its
    iteration order. *)
Class Point2Ops (F : Type) : Type := {
  offset : F * F -> F * F -> F * F;
  _distance_squared : F * F -> F * F -> F;
  distance_to : F * F -> F * F -> F;
  towards : F * F -> F * F -> F -> F * F;
  circle_intersection : F * F -> F * F -> F -> option (list (F * F));
}.

(** [<] on numbers is a strict weak order (as it is on floats that are not
    NaN, and on the rationals). *)
Class FloatOrder (F : Type) `{FloatOps F} : Prop := {
  fltb_asym : forall a b : F, fltb a b = true -> fltb b a = false;
  fltb_negtrans : forall a b c : F,
    fltb a b = false -> fltb b c = false -> fltb a c = false;
}.

(** ** Sorting and maximum with a key *)

Section by_key.

Context {F : Type} `{FloatOps F} {A : Type}.

(** Insertion into a list sorted from the largest key down; an element goes
    before the elements that are not larger than it. *)
Fixpoint insert_desc (kx : F * A) (l : list (F * A)) : list (F * A) :=
  match l with
  | [] => [kx]
  | ky :: l' =>
      if fltb (fst kx) (fst ky) then ky :: insert_desc kx l' else kx :: ky :: l'
  end.

(** Stable sort in descending order of the key. *)
Definition sort_desc (l : list (F * A)) : list (F * A) := foldr insert_desc [] l.

(** [sorted(l, key=key, reverse=True)]: the keys are computed first, one
    call per element. *)
Definition py_sorted_reverse (key : A -> result F) (l : list A) : result (list A) :=
  keys ← for_each (fun x acc => k ← key x; Ok (acc ++ [(k, x)])) l [];
  Ok (snd <$> sort_desc keys).

(** [max(l, key=key)]: the first element with the largest key. *)
Definition py_max (key : A -> F) (l : list A) : result A :=
  match l with
  | [] => Raise ValueError
  | x :: l' =>
      Ok (foldl (fun best y => if fltb (key best) (key y) then y else best) x l')
  end.

(** [while len(l) > 2: l.pop()] *)
Fixpoint pop_down_to_2 (fuel : nat) (l : list A) : list A :=
  match fuel with
  | O => l
  | S fuel' => if decide (2 < length l)%nat then pop_down_to_2 fuel' (removelast l) else l
  end.

End by_key.

(** ** The class [Ramp] *)

Module Ramp.

(** A ramp: its points and the terrain height map of the game. *)
Record t : Type := Build {
  _points : gset Point2;
  _height_map : Point2 -> Z;
}.

Section methods.

Context {F : Type} `{FloatOps F} `{Point2Ops F}.

Variable set_iter : gset Point2 -> list Point2.
Variable set_pick : gset Point2 -> Point2.

Definition x_offset : F := of_Q 0.5.
Definition y_offset : F := of_Q (-0.5).

(** A grid point used where a point with real coordinates is expected. *)
Definition as_float (p : Point2) : F * F := (of_Z (px p), of_Z (py p)).

Definition size (r : t) : nat := stdpp.base.size (_points r).

Definition height_at (r : t) (p : Point2) : Z := _height_map r p.

Definition points (r : t) : gset Point2 := _points r.

(** One iteration of the loop of [upper]; [acc] is [(current_max, result)]. *)
Definition upper_step (r : t) (acc : Z * gset Point2) (p : Point2)
  : Z * gset Point2 :=
  let '(current_max, result) := acc in
  let height := height_at r p in
  if decide (height < current_max) then (current_max, result)
  else if decide (height = current_max) then (current_max, {[p]} ∪ result)
  else (height, {[p]}).

Definition upper (r : t) : gset Point2 :=
  snd (foldl (upper_step r) (-10000, ∅) (set_iter (_points r))).

(** One iteration of the loop of [lower]; [acc] is [(current_min, result)]. *)
Definition lower_step (r : t) (acc : Z * gset Point2) (p : Point2)
  : Z * gset Point2 :=
  let '(current_min, result) := acc in
  let height := height_at r p in
  if decide (height > current_min) then (current_min, result)
  else if decide (height = current_min) then (current_min, {[p]} ∪ result)
  else (height, {[p]}).

Definition lower (r : t) : gset Point2 :=
  snd (foldl (lower_step r) (10000, ∅) (set_iter (_points r))).

(** [Point2((sum(p.x for p in s) / length, sum(p.y for p in s) / length))] *)
Definition center_of (s : gset Point2) : result (F * F) :=
  let length := stdpp.base.size s in
  let sx := py_sum (px <$> set_iter s) in
  if decide (length = 0%nat) then Raise ZeroDivisionError
  else
    let sy := py_sum (py <$> set_iter s) in
    Ok (fdiv (of_Z sx) (of_Z (Z.of_nat length)),
        fdiv (of_Z sy) (of_Z (Z.of_nat length))).

Definition top_center (r : t) : result (F * F) := center_of (upper r).

Definition bottom_center (r : t) : result (F * F) := center_of (lower r).

Definition upper2_for_ramp_wall (r : t) : result (gset Point2) :=
  if decide (5 < stdpp.base.size (upper r))%nat then Ok ∅
  else
    upper2 ← py_sorted_reverse
                (fun x => bc ← bottom_center r;
                          Ok (_distance_squared (as_float x) bc))
                (set_iter (upper r));
    Ok (list_to_set (pop_down_to_2 (length upper2) upper2)).

(** The common body of [barracks_in_middle] ([radius] is [5 ** 0.5]) and
    [depot_in_middle] ([radius] is [2.5 ** 0.5]). *)
Definition in_middle (radius : F) (r : t) : result (F * F) :=
  upper2 ← upper2_for_ramp_wall r;
  if decide (stdpp.base.size upper2 = 2%nat) then
    points ← upper2_for_ramp_wall r;
    '(a, points) ← set_pop set_pick points;
    let p1 := offset (as_float a) (x_offset, y_offset) in
    '(b, points) ← set_pop set_pick points;
    let p2 := offset (as_float b) (x_offset, y_offset) in
    intersects ← match circle_intersection p1 p2 radius with
                 | Some l => Ok l
                 | None => Raise GeometryError
                 end;
    anyLowerPoint ← py_next_iter set_iter (lower r);
    py_max (fun p => _distance_squared p (as_float anyLowerPoint)) intersects
  else Raise DegenerateRamp.

Definition barracks_in_middle (r : t) : result (F * F) :=
  in_middle (fsqrt (of_Z 5)) r.

Definition depot_in_middle (r : t) : result (F * F) :=
  in_middle (fsqrt (of_Q 2.5)) r.

Definition corner_depots (r : t) : result (list (F * F)) :=
  upper2 ← upper2_for_ramp_wall r;
  if decide (stdpp.base.size upper2 = 2%nat) then
    points ← upper2_for_ramp_wall r;
    '(a, points) ← set_pop set_pick points;
    let p1 := offset (as_float a) (x_offset, y_offset) in
    '(b, points) ← set_pop set_pick points;
    let p2 := offset (as_float b) (x_offset, y_offset) in
    let center := towards p1 p2 (fdiv (distance_to p1 p2) (of_Z 2)) in
    depotPosition ← depot_in_middle r;
    match circle_intersection center depotPosition (fsqrt (of_Z 5)) with
    | Some intersects => Ok intersects
    | None => Raise GeometryError
    end
  else Raise DegenerateRamp.

Definition barracks_can_fit_addon (r : t) : result bool :=
  upper2 ← upper2_for_ramp_wall r;
  if decide (stdpp.base.size upper2 = 2%nat) then
    barracks ← barracks_in_middle r;
    depots ← corner_depots r;
    depot ← py_max (fun depot => fst depot) depots;
    Ok (fgtb (fadd (fst barracks) (of_Z 1)) (fst depot))
  else Raise DegenerateRamp.

Definition barracks_correct_placement (r : t) : result (F * F) :=
  upper2 ← upper2_for_ramp_wall r;
  if decide (stdpp.base.size upper2 = 2%nat) then
    fits ← barracks_can_fit_addon r;
    if (fits : bool) then barracks_in_middle r
    else
      barracks ← barracks_in_middle r;
      Ok (offset barracks (of_Z (-2), of_Z 0))
  else Raise DegenerateRamp.

End methods.

End Ramp.

(** ** The class [Ramp] as an object with a cache *)

(** The methods of [Ramp] are properties wrapped by the decorators
    [property_mutable_cache] and [property_immutable_cache] of the module
    [cache], and several of them return sets, which are mutable objects.
    Here the ramp is an object in a store: its sets live in a heap and are
    handled by reference, the cache holds the computed values, and each
    method body calls the other properties through their decorators, as the
    class does. *)
Module RampObject.

(** The cached properties. *)
Inductive accessor : Type :=
| APoints | AUpper | ALower | ATopCenter | ABottomCenter | AUpper2
| ABarracksInMiddle | ADepotInMiddle | ACornerDepots
| ABarracksCanFitAddon | ABarracksCorrectPlacement.

#[export] Instance accessor_eq_dec : EqDecision accessor.
Proof. solve_decision. Defined.

Section object.

Context {F : Type} `{FloatOps F} `{Point2Ops F}.

Variable set_iter : gset Point2 -> list Point2.
Variable set_pick : gset Point2 -> Point2.

(** The ramp: its [_points] are the heap object [points_ref], its height map
    is that of [r]. *)
Variable r : Ramp.t.

(** A set object: a set of grid points, or a set of points with real
    coordinates (given in its iteration order). *)
Inductive obj : Type :=
| GridSet (s : gset Point2)
| PointSet (l : list (F * F)).

(** What a property returns and the cache stores: a reference to a set
    object, or an immutable value. *)
Inductive value : Type :=
| VRef (l : nat)
| VPoint (p : F * F)
| VBool (b : bool).

Record state : Type := State {
  heap : gmap nat obj;
  cache : accessor -> option value;
}.

(** A computation on the object: it returns a value or raises, and leaves a
    state in both cases. *)
Definition M (A : Type) : Type := state -> result A * state.

Definition ret {A : Type} (a : A) : M A := fun σ => (Ok a, σ).

Definition raise {A : Type} (e : exn) : M A := fun σ => (Raise e, σ).

Definition bind {A B : Type} (m : M A) (k : A -> M B) : M B :=
  fun σ => match m σ with
           | (Ok a, σ') => k a σ'
           | (Raise e, σ') => (Raise e, σ')
           end.

Definition lift {A : Type} (x : result A) : M A := fun σ => (x, σ).

Local Notation "x ⇐ m ; k" := (bind m (fun x => k))
  (at level 100, m at next level, right associativity).

(** [for x in l: acc = body(x, acc)] in the object monad. *)
Fixpoint for_eachM {A S : Type} (body : A -> S -> M S) (l : list A) (acc : S) : M S :=
  match l with
  | [] => ret acc
  | x :: l' => acc' ⇐ body x acc; for_eachM body l' acc'
  end.

(** *** The heap *)

(** A new object. *)
Definition alloc (o : obj) : M nat :=
  fun σ => let l := fresh (dom (heap σ)) in
           (Ok l, State (<[l := o]> (heap σ)) (cache σ)).

Definition deref_grid (l : nat) : M (gset Point2) :=
  fun σ => match heap σ !! l with
           | Some (GridSet s) => (Ok s, σ)
           | _ => (Raise TypeError, σ)
           end.

Definition deref_points (l : nat) : M (list (F * F)) :=
  fun σ => match heap σ !! l with
           | Some (PointSet ps) => (Ok ps, σ)
           | _ => (Raise TypeError, σ)
           end.

(** [s.copy()] *)
Definition set_copy (l : nat) : M nat :=
  fun σ => match heap σ !! l with
           | Some o => alloc o σ
           | None => (Raise TypeError, σ)
           end.

(** [s.pop()] on the object [l]. *)
Definition pop_ref (l : nat) : M Point2 :=
  s ⇐ deref_grid l;
  fun σ => match set_pop set_pick s with
           | Ok (x, s') => (Ok x, State (<[l := GridSet s']> (heap σ)) (cache σ))
           | Raise e => (Raise e, σ)
           end.

(** The reference held by [self._points]. *)
Definition points_ref : nat := 0%nat.

(** The state after [Ramp(points, game_info)]: [self.cache = {}]. *)
Definition new : state := State {[ points_ref := GridSet (Ramp._points r) ]} (fun _ => None).

(** *** The decorators *)

Definition set_cache (a : accessor) (v : value) : M unit :=
  fun σ => (Ok tt, State (heap σ) (fun b => if decide (b = a) then Some v else cache σ b)).

(** Modelled from the spec: the decorator [property_mutable_cache] of the
    module [cache], which is not part of this file ("compute-on-first-access,
    store, return on subsequent access. For values that are mutable
    containers, the accessor must return a fresh copy each call"). *)
Definition property_mutable_cache (a : accessor) (f : M nat) : M nat :=
  fun σ => match cache σ a with
           | Some (VRef l) => set_copy l σ
           | Some _ => (Raise TypeError, σ)
           | None => (l ⇐ f; _ ⇐ set_cache a (VRef l); set_copy l) σ
           end.

(** Modelled from the spec: the decorator [property_immutable_cache] of the
    module [cache] ("an internal field per derived value holding not yet
    computed vs computed(value); compute-on-first-access, store, return on
    subsequent access"), for a property whose value is a point. *)
Definition property_immutable_cache_point (a : accessor) (f : M (F * F)) : M (F * F) :=
  fun σ => match cache σ a with
           | Some (VPoint p) => (Ok p, σ)
           | Some _ => (Raise TypeError, σ)
           | None => (p ⇐ f; _ ⇐ set_cache a (VPoint p); ret p) σ
           end.

(** The same decorator for a property whose value is a [bool]. *)
Definition property_immutable_cache_bool (a : accessor) (f : M bool) : M bool :=
  fun σ => match cache σ a with
           | Some (VBool b) => (Ok b, σ)
           | Some _ => (Raise TypeError, σ)
           | None => (b ⇐ f; _ ⇐ set_cache a (VBool b); ret b) σ
           end.

(** *** The properties *)

Definition points : M nat :=
  property_mutable_cache APoints (set_copy points_ref).

Definition upper : M nat :=
  property_mutable_cache AUpper
    (_points ⇐ deref_grid points_ref;
     alloc (GridSet (snd (foldl (Ramp.upper_step r) (-10000, ∅) (set_iter _points))))).

Definition lower : M nat :=
  property_mutable_cache ALower
    (_points ⇐ deref_grid points_ref;
     alloc (GridSet (snd (foldl (Ramp.lower_step r) (10000, ∅) (set_iter _points))))).

Definition top_center : M (F * F) :=
  property_immutable_cache_point ATopCenter
    (upper ⇐ upper;
     s ⇐ deref_grid upper;
     lift (Ramp.center_of set_iter s)).

Definition bottom_center : M (F * F) :=
  property_immutable_cache_point ABottomCenter
    (lower ⇐ lower;
     s ⇐ deref_grid lower;
     lift (Ramp.center_of set_iter s)).

Definition upper2_for_ramp_wall : M nat :=
  property_mutable_cache AUpper2
    (u ⇐ upper;
     s ⇐ deref_grid u;
     if decide (5 < size s)%nat then alloc (GridSet ∅)
     else
       u' ⇐ upper;
       s' ⇐ deref_grid u';
       keys ⇐ for_eachM
                (fun x acc => bc ⇐ bottom_center;
                   ret (acc ++ [(_distance_squared (Ramp.as_float x) bc, x)]))
                (set_iter s') [];
       let upper2 := snd <$> sort_desc keys in
       alloc (GridSet (list_to_set (pop_down_to_2 (length upper2) upper2)))).

Definition in_middle (radius : F) : M (F * F) :=
  u ⇐ upper2_for_ramp_wall;
  s ⇐ deref_grid u;
  if decide (size s = 2%nat) then
    points ⇐ upper2_for_ramp_wall;
    a ⇐ pop_ref points;
    let p1 := offset (Ramp.as_float a) (Ramp.x_offset, Ramp.y_offset) in
    b ⇐ pop_ref points;
    let p2 := offset (Ramp.as_float b) (Ramp.x_offset, Ramp.y_offset) in
    ints ⇐ lift (match circle_intersection p1 p2 radius with
                 | Some l => Ok l
                 | None => Raise GeometryError
                 end);
    intersects ⇐ alloc (PointSet ints);
    lower ⇐ lower;
    sl ⇐ deref_grid lower;
    anyLowerPoint ⇐ lift (py_next_iter set_iter sl);
    candidates ⇐ deref_points intersects;
    lift (py_max (fun p => _distance_squared p (Ramp.as_float anyLowerPoint))
            candidates)
  else raise DegenerateRamp.

Definition barracks_in_middle : M (F * F) :=
  property_immutable_cache_point ABarracksInMiddle (in_middle (fsqrt (of_Z 5))).

Definition depot_in_middle : M (F * F) :=
  property_immutable_cache_point ADepotInMiddle (in_middle (fsqrt (of_Q 2.5))).

Definition corner_depots : M nat :=
  property_mutable_cache ACornerDepots
    (u ⇐ upper2_for_ramp_wall;
     s ⇐ deref_grid u;
     if decide (size s = 2%nat) then
       points ⇐ upper2_for_ramp_wall;
       a ⇐ pop_ref points;
       let p1 := offset (Ramp.as_float a) (Ramp.x_offset, Ramp.y_offset) in
       b ⇐ pop_ref points;
       let p2 := offset (Ramp.as_float b) (Ramp.x_offset, Ramp.y_offset) in
       let center := towards p1 p2 (fdiv (distance_to p1 p2) (of_Z 2)) in
       depotPosition ⇐ depot_in_middle;
       ints ⇐ lift (match circle_intersection center depotPosition (fsqrt (of_Z 5)) with
                    | Some l => Ok l
                    | None => Raise GeometryError
                    end);
       alloc (PointSet ints)
     else raise DegenerateRamp).

Definition barracks_can_fit_addon : M bool :=
  property_immutable_cache_bool ABarracksCanFitAddon
    (u ⇐ upper2_for_ramp_wall;
     s ⇐ deref_grid u;
     if decide (size s = 2%nat) then
       barracks ⇐ barracks_in_middle;
       depots ⇐ corner_depots;
       ds ⇐ deref_points depots;
       depot ⇐ lift (py_max (fun depot => fst depot) ds);
       ret (fgtb (fadd (fst barracks) (of_Z 1)) (fst depot))
     else raise DegenerateRamp).

Definition barracks_correct_placement : M (F * F) :=
  property_immutable_cache_point ABarracksCorrectPlacement
    (u ⇐ upper2_for_ramp_wall;
     s ⇐ deref_grid u;
     if decide (size s = 2%nat) then
       fits ⇐ barracks_can_fit_addon;
       if (fits : bool) then barracks_in_middle
       else
         barracks ⇐ barracks_in_middle;
         ret (offset barracks (of_Z (-2), of_Z 0))
     else raise DegenerateRamp).

(** A call of a property from outside the class. *)
Definition access (a : accessor) : M value :=
  match a with
  | APoints => l ⇐ points; ret (VRef l)
  | AUpper => l ⇐ upper; ret (VRef l)
  | ALower => l ⇐ lower; ret (VRef l)
  | ATopCenter => p ⇐ top_center; ret (VPoint p)
  | ABottomCenter => p ⇐ bottom_center; ret (VPoint p)
  | AUpper2 => l ⇐ upper2_for_ramp_wall; ret (VRef l)
  | ABarracksInMiddle => p ⇐ barracks_in_middle; ret (VPoint p)
  | ADepotInMiddle => p ⇐ depot_in_middle; ret (VPoint p)
  | ACornerDepots => l ⇐ corner_depots; ret (VRef l)
  | ABarracksCanFitAddon => b ⇐ barracks_can_fit_addon; ret (VBool b)
  | ABarracksCorrectPlacement => p ⇐ barracks_correct_placement; ret (VPoint p)
  end.

(** *** What a caller observes *)

(** The value a caller reads from what a property returned: the contents of
    a set, or the immutable value itself. *)
Inductive obs : Type :=
| OGrid (s : gset Point2)
| OPoints (l : list (F * F))
| OPoint (p : F * F)
| OBool (b : bool).

Definition read (σ : state) (v : value) : option obs :=
  match v with
  | VRef l => match heap σ !! l with
              | Some (GridSet s) => Some (OGrid s)
              | Some (PointSet ps) => Some (OPoints ps)
              | None => None
              end
  | VPoint p => Some (OPoint p)
  | VBool b => Some (OBool b)
  end.

(** The value of each property as a function of the points and the height
    map of the ramp. *)
Definition denote (a : accessor) : result obs :=
  match a with
  | APoints => Ok (OGrid (Ramp.points r))
  | AUpper => Ok (OGrid (Ramp.upper set_iter r))
  | ALower => Ok (OGrid (Ramp.lower set_iter r))
  | ATopCenter => OPoint <$> Ramp.top_center set_iter r
  | ABottomCenter => OPoint <$> Ramp.bottom_center set_iter r
  | AUpper2 => OGrid <$> Ramp.upper2_for_ramp_wall set_iter r
  | ABarracksInMiddle => OPoint <$> Ramp.barracks_in_middle set_iter set_pick r
  | ADepotInMiddle => OPoint <$> Ramp.depot_in_middle set_iter set_pick r
  | ACornerDepots => OPoints <$> Ramp.corner_depots set_iter set_pick r
  | ABarracksCanFitAddon => OBool <$> Ramp.barracks_can_fit_addon set_iter set_pick r
  | ABarracksCorrectPlacement =>
      OPoint <$> Ramp.barracks_correct_placement set_iter set_pick r
  end.

(** A caller overwrites the contents of the set object [l]. *)
Definition mutate (l : nat) (o : obj) (σ : state) : state :=
  State (<[l := o]> (heap σ)) (cache σ).

(** The set objects a call hands to the caller. *)
Definition handed_out (res : result value) : gset nat :=
  match res with
  | Ok (VRef l) => {[l]}
  | _ => ∅
  end.

(** The states a caller can bring the object into, with the set objects the
    properties have handed out so far: the caller calls properties, and
    mutates the containers it was given. *)
Inductive reachable : state -> gset nat -> Prop :=
| reachable_new : reachable new ∅
| reachable_call σ handed a res σ' :
    reachable σ handed -> access a σ = (res, σ') ->
    reachable σ' (handed_out res ∪ handed)
| reachable_mutate σ handed l o :
    reachable σ handed -> l ∈ handed -> reachable (mutate l o σ) handed.

(** What the caller observes of the result of a call. *)
Definition observe (out : result value * state) : result (option obs) :=
  match fst out with
  | Ok v => Ok (read (snd out) v)
  | Raise e => Raise e
  end.

End object.

End RampObject.

(** ** An instance on exact rationals *)

(** Numbers as exact rationals, so that the model can be run.  The square
    root is rounded down to nine decimal places. *)
Module QFloat.

Local Open Scope Q_scope.

Definition Qltb (a b : Q) : bool := negb (Qle_bool b a).

Definition Qsqrt (a : Q) : Q :=
  Qred (Z.sqrt (Qnum a * 10 ^ 18 / Z.pos (Qden a)) # 1000000000).

#[export] Instance Q_float : FloatOps Q := {
  of_Z := inject_Z;
  of_Q := fun a => a;
  fadd := fun a b => Qred (a + b);
  fdiv := fun a b => Qred (a / b);
  fltb := Qltb;
  fsqrt := Qsqrt;
}.

Definition Qdist2 (p q : Q * Q) : Q :=
  Qred ((fst p - fst q) * (fst p - fst q) + (snd p - snd q) * (snd p - snd q)).

Definition Qdist (p q : Q * Q) : Q := Qsqrt (Qdist2 p q).

(** Modelled from the spec: the [Point2] primitives of the module
    [position], which is not part of this file ("point offset by a
    real-valued vector; Euclidean distance and squared distance between
    points; move toward interpolation by a scalar distance; circle-circle
    intersection": "with a = d/2 and h = sqrt(r^2 - a^2), the intersections
    lie along the line through p1, p2 at the midpoint +- h perpendicular;
    fails if d > 2r or d == 0"). *)
Definition Qcircle_intersection (p q : Q * Q) (radius : Q) : option (list (Q * Q)) :=
  let d := Qdist p q in
  if Qeq_bool d 0 || Qltb (2 * radius) d then None
  else
    let a := d / 2 in
    let h := Qsqrt (radius * radius - a * a) in
    let mx := (fst p + fst q) / 2 in
    let my := (snd p + snd q) / 2 in
    let ux := (fst q - fst p) / d in
    let uy := (snd q - snd p) / d in
    Some [ (Qred (mx + h * uy), Qred (my - h * ux));
           (Qred (mx - h * uy), Qred (my + h * ux)) ].

#[export] Instance Q_point2 : Point2Ops Q := {
  offset := fun p v => (Qred (fst p + fst v), Qred (snd p + snd v));
  _distance_squared := Qdist2;
  distance_to := Qdist;
  towards := fun p q distance =>
    let d := Qdist p q in
    if Qeq_bool d 0 then p
    else (Qred (fst p + (fst q - fst p) * distance / d),
          Qred (snd p + (snd q - snd p) * distance / d));
  circle_intersection := Qcircle_intersection;
}.

End QFloat.

(** ** [GameInfo._find_ramps] *)

Module GameInfo.

(** A [PixelMap] (module [pixel_map], not part of this file), as far as ramp
    discovery uses it: its [width], its [height] and the lookup
    [grid[(x, y)]], which is only ever asked for cells of the map. *)
Record PixelMap : Type := BuildPixelMap {
  width : Z;
  height : Z;
  getitem : Point2 -> Z;
}.

(** The fields of [GameInfo] that ramp discovery reads. *)
Record t : Type := Build {
  pathing_grid : PixelMap;
  terrain_height : PixelMap;
  placement_grid : PixelMap;
}.

(** The set comprehension of [_find_ramps]: the cells of the map where both
    the placement grid and the pathing grid are 0. *)
Definition rampPoints (self : t) : gset Point2 :=
  list_to_set
    (x ← py_range 0 (width (pathing_grid self));
     y ← py_range 0 (height (pathing_grid self));
     if decide (getitem (placement_grid self) (x, y) = 0 /\
                getitem (pathing_grid self) (x, y) = 0)
     then [(x, y)] else []).

(** [Ramp(group, self)]: the height map of the ramp is [terrain_height]. *)
Definition new_ramp (self : t) (group : gset Point2) : Ramp.t :=
  Ramp.Build group (getitem (terrain_height self)).

Section with_sets.

Variable set_iter : gset Point2 -> list Point2.
Variable set_pick : gset Point2 -> Point2.

(** The method [_find_groups], whose map size is that of the pathing grid;
    its defaults are [minimum_points_per_group = 8] and
    [max_distance_between_points = 2]. *)
Definition _find_groups (self : t) (points : gset Point2)
    (minimum_points_per_group max_distance_between_points : Z)
  : result (list (gset Point2)) :=
  FindGroups._find_groups set_iter set_pick
    (width (pathing_grid self)) (height (pathing_grid self))
    points minimum_points_per_group max_distance_between_points.

Definition _find_ramps (self : t) : result (list Ramp.t) :=
  groups ← _find_groups self (rampPoints self) 8 2;
  Ok ((fun group => new_ramp self group) <$> (groups : list (gset Point2))).

End with_sets.

End GameInfo.

(** * Vocabulary of the statements and of the proofs *)

(** ** Dilated adjacency and connected components *)

Module Adjacency.

Definition manhattan (p q : Point2) : Z :=
  Z.abs (px p - px q) + Z.abs (py p - py q).

(** Two cells are neighbours when their Manhattan distance is within [d]. *)
Definition adjacent (d : Z) (p q : Point2) : Prop := manhattan p q <= d.

(** One hop to a neighbour that belongs to [G]. *)
Definition hop (d : Z) (G : gset Point2) (p q : Point2) : Prop :=
  q ∈ G /\ adjacent d p q.

Definition reachable (d : Z) (G : gset Point2) : relation Point2 := rtc (hop d G).

Definition connected (d : Z) (G : gset Point2) : Prop :=
  forall p q, p ∈ G -> q ∈ G -> reachable d G p q.

(** No point of [G] has a neighbour in [P] outside [G]. *)
Definition closed_in (d : Z) (P G : gset Point2) : Prop :=
  forall p q, p ∈ G -> q ∈ P -> adjacent d p q -> q ∈ G.

(** A maximal connected cluster of [P]. *)
Definition component (d : Z) (P C : gset Point2) : Prop :=
  C <> ∅ /\ C ⊆ P /\ connected d C /\ closed_in d P C.

Definition in_map (map_width map_height : Z) (p : Point2) : Prop :=
  0 <= px p < map_width /\ 0 <= py p < map_height.

End Adjacency.

(** ** Invariants of the flood fill *)

Module FindGroupsSpec.
Import FindGroups Adjacency.

Section picture.

Variables map_width map_height : Z.

Definition pic_at (pic : list (list Z)) (p : Point2) : option Z :=
  pic !! Z.to_nat (py p) ≫= fun row => row !! Z.to_nat (px p).

Definition pic_wf (pic : list (list Z)) : Prop :=
  length pic = Z.to_nat map_height /\
  forall i row, pic !! i = Some row -> length row = Z.to_nat map_width.

(** The picture marks exactly the remaining points as not coloured yet. *)
Definition pic_inv (pic : list (list Z)) (rem : gset Point2) : Prop :=
  pic_wf pic /\
  (forall p, p ∈ rem -> in_map map_width map_height p) /\
  (forall p, in_map map_width map_height p ->
     pic_at pic p = Some NOT_COLORED_YET <-> p ∈ rem).

Definition shift (base off : Point2) : Point2 :=
  (px base + px off, py base + py off).

(** [q] is the target of one of the offsets [offs] applied to [base]. *)
Definition hit (base : Point2) (offs : list Point2) (q : Point2) : Prop :=
  exists off, off ∈ offs /\ q = shift base off.

(** [V] is the remaining set when the group was started, [s] its start. *)
Definition drain_inv (d : Z) (V : gset Point2) (s : Point2) (st : state) : Prop :=
  pic_inv (picture st) (remaining st) /\
  remaining st ∪ currentGroup st = V /\
  remaining st ## currentGroup st /\
  s ∈ currentGroup st /\
  (forall q, q ∈ queue st -> q ∈ currentGroup st) /\
  (forall g, g ∈ currentGroup st -> reachable d (currentGroup st) s g) /\
  (forall g q, g ∈ currentGroup st -> g ∉ queue st -> q ∈ V ->
     adjacent d g q -> q ∈ currentGroup st).

End picture.

Definition pairwise_disjoint (groups : list (gset Point2)) : Prop :=
  forall i j Gi Gj, i <> j -> groups !! i = Some Gi -> groups !! j = Some Gj ->
    Gi ## Gj.

(** What holds of the groups found so far, given the points [P] of the
    input that are still [rem]aining. *)
Definition groups_inv (d m : Z) (P rem : gset Point2)
    (found : list (gset Point2)) : Prop :=
  (forall G, G ∈ found ->
     component d P G /\ G ## rem /\ m <= Z.of_nat (size G)) /\
  pairwise_disjoint found /\
  (forall C, component d P C -> C ## rem -> m <= Z.of_nat (size C) -> C ∈ found).

(** A concrete set order, to run the model: sets are iterated in the order
    of [elements], and [pop()] takes the first element of that order. *)
Definition first_elem (s : gset Point2) : Point2 :=
  default (0, 0) (head (elements s)).

End FindGroupsSpec.

(** ** Sorted lists *)

Module ByKeySpec.

Section by_key.

Context {F : Type} `{FloatOps F} {A : Type}.

(** The keys go down along the list: no element has a smaller key than an
    element after it. *)
Fixpoint sorted_desc (l : list (F * A)) : Prop :=
  match l with
  | [] => True
  | a :: l' => Forall (fun b => fltb (fst a) (fst b) = false) l' /\ sorted_desc l'
  end.

(** [l] sorted by the key [k], largest key first, equal keys in the order
    of [l]. *)
Definition sorted_desc_by (k : A -> F) (l : list A) : list A :=
  snd <$> sort_desc ((fun x => (k x, x)) <$> l).

End by_key.

End ByKeySpec.

(** ** Statements about the ramp geometry, and ramps to run the model on *)

Module RampSpec.
Import Ramp.

(** Below, [size] is the cardinality of a set, not [Ramp.size]. *)
Local Abbreviation size := stdpp.base.size (only parsing).

(** The statement of the design document about [upper] and [lower], as it is
    written: both are subsets of the ramp points, the points of [upper] are
    at least as high and those of [lower] at least as low as every point,
    and every highest (lowest) point is in [upper] ([lower]). *)
Definition extremal_sets_claim (set_iter : gset Point2 -> list Point2)
    (r : Ramp.t) : Prop :=
  upper set_iter r ⊆ _points r /\
  lower set_iter r ⊆ _points r /\
  (forall p q, p ∈ upper set_iter r -> q ∈ _points r ->
     height_at r q <= height_at r p) /\
  (forall p q, p ∈ lower set_iter r -> q ∈ _points r ->
     height_at r p <= height_at r q) /\
  (forall p, p ∈ _points r ->
     (forall q, q ∈ _points r -> height_at r q <= height_at r p) ->
     p ∈ upper set_iter r) /\
  (forall p, p ∈ _points r ->
     (forall q, q ∈ _points r -> height_at r p <= height_at r q) ->
     p ∈ lower set_iter r).

(** A ramp of one cell whose height is below the initial [current_max]. *)
Definition deep_ramp : Ramp.t :=
  Ramp.Build {[ (0, 0) ]} (fun _ => -10001).

(** A small ramp for running the model: the bottom row at height 0, the
    middle row at height 1, the two cells of the top row at height 2. *)
Definition small_ramp : Ramp.t :=
  Ramp.Build {[ (0, 0); (1, 0); (0, 1); (1, 1); (0, 2); (1, 2) ]} (fun p => py p).

(** A ramp of one cell whose height is above the initial [current_min]. *)
Definition high_ramp : Ramp.t :=
  Ramp.Build {[ (0, 0) ]} (fun _ => 10001).

(** A ramp with a single highest cell. *)
Definition pointed_ramp : Ramp.t :=
  Ramp.Build {[ (0, 0); (1, 0); (0, 1) ]} (fun p => py p).

Section wall.

Context {F : Type} `{FloatOps F} `{Point2Ops F}.

(** The sort key of [upper2_for_ramp_wall] once [bottom_center] is known. *)
Definition wall_key (bc : F * F) (x : Point2) : F :=
  _distance_squared (as_float x) bc.

(** A wall point moved by the offset of the ramp, as
    [p.offset((self.x_offset, self.y_offset))] does. *)
Definition shifted (p : Point2) : F * F := offset (as_float p) (x_offset, y_offset).

(** [circle_intersection], with its failure as an error. *)
Definition intersect (p1 p2 : F * F) (radius : F) : result (list (F * F)) :=
  match circle_intersection p1 p2 radius with
  | Some l => Ok l
  | None => Raise GeometryError
  end.

End wall.

(** The choice made by [barracks_in_middle] and [depot_in_middle]: among the
    intersection points [ints], a point [m] whose squared distance to the
    lower point [L] is not smaller than that of any other. *)
Definition farthest_from {F : Type} `{FloatOps F} `{Point2Ops F}
    (L : F * F) (ints : list (F * F)) (m : F * F) : Prop :=
  m ∈ ints /\
  forall q, q ∈ ints -> fltb (_distance_squared m L) (_distance_squared q L) = false.

(** The statement about the number of wall points, as it is written: a
    ramp with 1 to 5 upper points has exactly min(|upper|, 2) wall points,
    and with a single upper point every wall placement operation raises the
    error of a ramp with a wrong amount of upper points. *)
Definition upper2_size_claim {F : Type} `{FloatOps F} `{Point2Ops F}
    (set_iter : gset Point2 -> list Point2) (set_pick : gset Point2 -> Point2)
    (r : Ramp.t) : Prop :=
  (1 <= size (upper set_iter r) <= 5)%nat ->
  exists u,
    upper2_for_ramp_wall (F := F) set_iter r = Ok u /\
    size u = (size (upper set_iter r) `min` 2)%nat /\
    (size (upper set_iter r) = 1%nat ->
       size u = 1%nat /\
       barracks_in_middle set_iter set_pick r = Raise DegenerateRamp /\
       depot_in_middle set_iter set_pick r = Raise DegenerateRamp /\
       corner_depots set_iter set_pick r = Raise DegenerateRamp /\
       barracks_can_fit_addon set_iter set_pick r = Raise DegenerateRamp /\
       barracks_correct_placement set_iter set_pick r = Raise DegenerateRamp).

(** [p] lies strictly between [top] and [bottom]: it is closer to each of
    them than they are to each other (as every point of the open segment
    from [top] to [bottom] is). *)
Definition strictly_between {F : Type} `{FloatOps F} `{Point2Ops F}
    (top bottom p : F * F) : Prop :=
  fltb (_distance_squared p top) (_distance_squared top bottom) = true /\
  fltb (_distance_squared p bottom) (_distance_squared top bottom) = true.

(** The scenario of the symmetric ramp top, as it is written: when [upper]
    consists of two points of the same height at distance 1,
    [upper2_for_ramp_wall] is [upper] and both [barracks_in_middle] and
    [depot_in_middle] lie strictly between [top_center] and
    [bottom_center]. *)
Definition symmetric_top_claim {F : Type} `{FloatOps F} `{Point2Ops F}
    (set_iter : gset Point2 -> list Point2) (set_pick : gset Point2 -> Point2)
    (r : Ramp.t) : Prop :=
  forall a b,
    upper set_iter r = {[a; b]} -> a <> b ->
    height_at r a = height_at r b -> Adjacency.manhattan a b = 1 ->
    upper2_for_ramp_wall (F := F) set_iter r = Ok (upper set_iter r) /\
    exists barracks depot top bottom,
      barracks_in_middle set_iter set_pick r = Ok barracks /\
      depot_in_middle set_iter set_pick r = Ok depot /\
      top_center set_iter r = Ok top /\
      bottom_center set_iter r = Ok bottom /\
      strictly_between top bottom barracks /\
      strictly_between top bottom depot.

(** The statement about the two wall points, as it is written: with more
    than 5 upper points [upper2_for_ramp_wall] returns the empty set, and
    otherwise it returns a set, which is the first two points of [upper]
    sorted in descending order of their squared distance to
    [bottom_center] (where [bottom_center] has a value [bc]). *)
Definition two_farthest_claim {F : Type} `{FloatOps F} `{Point2Ops F}
    (set_iter : gset Point2 -> list Point2) (r : Ramp.t) : Prop :=
  ((5 < size (upper set_iter r))%nat ->
     upper2_for_ramp_wall (F := F) set_iter r = Ok ∅) /\
  ((size (upper set_iter r) <= 5)%nat ->
   exists u,
     upper2_for_ramp_wall (F := F) set_iter r = Ok u /\
     forall bc : F * F, bottom_center set_iter r = Ok bc ->
       let sorted :=
         ByKeySpec.sorted_desc_by (wall_key bc) (set_iter (upper set_iter r)) in
       u = list_to_set (take 2 sorted) /\
       sorted ≡ₚ set_iter (upper set_iter r) /\
       forall p q, p ∈ take 2 sorted -> q ∈ drop 2 sorted ->
         fltb (wall_key bc p) (wall_key bc q) = false).

(** The statement about the error of the wall placement operations, as it
    is written: each of the five operations raises the error of a ramp with
    a wrong amount of upper points if and only if [upper2_for_ramp_wall]
    does not have exactly two points. *)
Definition degenerate_claim {F : Type} `{FloatOps F} `{Point2Ops F}
    (set_iter : gset Point2 -> list Point2) (set_pick : gset Point2 -> Point2)
    (r : Ramp.t) : Prop :=
  let two_points :=
    exists u, upper2_for_ramp_wall (F := F) set_iter r = Ok u /\ size u = 2%nat in
  (barracks_in_middle (F := F) set_iter set_pick r = Raise DegenerateRamp
     <-> ~ two_points) /\
  (depot_in_middle (F := F) set_iter set_pick r = Raise DegenerateRamp
     <-> ~ two_points) /\
  (corner_depots (F := F) set_iter set_pick r = Raise DegenerateRamp
     <-> ~ two_points) /\
  (barracks_can_fit_addon (F := F) set_iter set_pick r = Raise DegenerateRamp
     <-> ~ two_points) /\
  (barracks_correct_placement (F := F) set_iter set_pick r = Raise DegenerateRamp
     <-> ~ two_points).

End RampSpec.

(** ** The cache invariant and the relation between a method body and its
    pure reading *)

Module RampObjectSpec.
Import RampObject.

Section adequacy.

Context {F : Type} `{FloatOps F} `{Point2Ops F}.

Variable set_iter : gset Point2 -> list Point2.
Variable set_pick : gset Point2 -> Point2.
Variable r : Ramp.t.

Local Abbreviation state := (@RampObject.state F).
Local Abbreviation obj := (@RampObject.obj F).
Local Abbreviation value := (@RampObject.value F).
Local Abbreviation denote := (RampObject.denote set_iter set_pick r).

Definition obs_of (o : obj) : obs :=
  match o with
  | GridSet s => OGrid s
  | PointSet ps => OPoints ps
  end.

(** The set objects the ramp itself refers to: its points and the cached
    sets. *)
Definition protected (σ : state) (l : nat) : Prop :=
  l = points_ref \/ exists a, cache σ a = Some (VRef l).

(** The cache is right: [self._points] holds the points of the ramp, and
    every cached value reads as the value of its property. *)
Definition inv (σ : state) : Prop :=
  heap σ !! points_ref = Some (GridSet (Ramp._points r)) /\
  forall a v, cache σ a = Some v ->
    exists o, denote a = Ok o /\ read σ v = Some o.

(** From [σ] to [σ']: no existing object changed, and the objects the ramp
    newly refers to are new. *)
Definition extends (σ σ' : state) : Prop :=
  heap σ ⊆ heap σ' /\
  forall l, l ∈ dom (heap σ) -> protected σ' l -> protected σ l.

(** [L] are objects created since [σ0] that the ramp does not refer to. *)
Definition owns (σ0 σ : state) (L : gmap nat obj) : Prop :=
  L ⊆ heap σ /\
  forall l, l ∈ dom L -> (l ∉ dom (heap σ0)) /\ ~ protected σ l.

(** A computation [m] of a method body, started with the local objects [L],
    follows the pure computation [D]: it keeps the cache right and the
    existing objects unchanged, raises what [D] raises, and returns a value
    related by [R] to the value of [D]. *)
Definition sim {A B : Type} (L : gmap nat obj) (m : M A) (D : result B)
    (R : A -> B -> gmap nat obj -> Prop) : Prop :=
  forall σ0 σ, inv σ -> extends σ0 σ -> owns σ0 σ L ->
    exists res σ', m σ = (res, σ') /\ inv σ' /\ extends σ0 σ' /\
      match D with
      | Ok b => exists a L', res = Ok a /\ R a b L' /\ owns σ0 σ' L'
      | Raise e => res = Raise e
      end.

(** A call of a property that returns a set: the caller gets a new object
    that the ramp does not refer to. *)
Definition returns_set (m : M nat) (D : result obj) : Prop :=
  forall σ, inv σ ->
    exists res σ', m σ = (res, σ') /\ inv σ' /\ extends σ σ' /\
      match D with
      | Ok o => exists l, res = Ok l /\ heap σ' !! l = Some o /\
                          (l ∉ dom (heap σ)) /\ ~ protected σ' l
      | Raise e => res = Raise e
      end.

(** A call of a property that returns an immutable value. *)
Definition returns_val {A : Type} (m : M A) (D : result A) : Prop :=
  forall σ, inv σ -> exists σ', m σ = (D, σ') /\ inv σ' /\ extends σ σ'.

End adequacy.

End RampObjectSpec.

(** ** Indices of the picture *)

Module PictureIndex.

(** [i] is an index that a Python list of [n] elements accepts. *)
Definition index_ok (n i : Z) : Prop := - n <= i < n.

(** [picture[pt.y][pt.x]] exists in a picture of [map_height] rows of
    [map_width] cells. *)
Definition paintable (map_width map_height : Z) (pt : Point2) : Prop :=
  index_ok map_width (px pt) /\ index_ok map_height (py pt).

End PictureIndex.

(** ** Errors of the wall placement operations *)

Module WallErrors.

(** The errors that the wall placement operations raise. *)
Definition wall_error (e : exn) : Prop :=
  e = ZeroDivisionError \/ e = DegenerateRamp \/ e = GeometryError \/ e = ValueError.

End WallErrors.

(** ** Other set orders, and a small map, to run the model on *)

Module Samples.

(** A second set order: sets are iterated in the reverse of the order of
    [elements], and [pop()] takes the last element of that order. *)
Definition rev_elements (s : gset Point2) : list Point2 := reverse (elements s).

Definition last_elem (s : gset Point2) : Point2 :=
  default (0, 0) (list.last (elements s)).

(** A map of 5 by 2 cells.  The four left columns are walkable and not
    buildable; the right column is buildable.  The terrain rises with x. *)
Definition small_map : GameInfo.t :=
  GameInfo.Build
    (GameInfo.BuildPixelMap 5 2 (fun _ => 0))
    (GameInfo.BuildPixelMap 5 2 (fun p => px p))
    (GameInfo.BuildPixelMap 5 2 (fun p => if decide (px p = 4) then 1 else 0)).

(** A flat ramp: two cells of the same height. *)
Definition flat_ramp : Ramp.t :=
  Ramp.Build {[ (0, 0); (1, 0) ]} (fun _ => 3).

(** A ramp whose two upper cells are not equally far from its single lower
    cell. *)
Definition skew_ramp : Ramp.t :=
  Ramp.Build {[ (0, 0); (0, 1); (0, 2); (1, 2) ]} (fun p => py p).

End Samples.

(** * Proofs *)

(** ** Correctness of the flood fill *)

Module FindGroupsProofs.
Import FindGroups Adjacency FindGroupsSpec.

Lemma adjacent_sym d p q : adjacent d p q -> adjacent d q p.
Proof. unfold adjacent, manhattan. lia. Qed.

Lemma reachable_mono d G G' p q :
  G ⊆ G' -> reachable d G p q -> reachable d G' p q.
Proof.
  intros Hsub. apply rtc_subrel. intros x y [Hy Hadj]. split; [set_solver | done].
Qed.

Lemma reachable_sym d G p q : p ∈ G -> reachable d G p q -> reachable d G q p.
Proof.
  intros Hp Hr. induction Hr as [x | x y z [Hy Hxy] Hyz IH]; [constructor |].
  eapply rtc_r; [apply IH, Hy |]. split; [done | by apply adjacent_sym].
Qed.

Lemma reachable_stays d G C p q :
  closed_in d G C -> p ∈ C -> reachable d G p q -> q ∈ C.
Proof.
  intros Hcl Hp Hr. induction Hr as [x | x y z [Hy Hxy] _ IH]; [done |].
  apply IH. by apply (Hcl x y).
Qed.

(** Two components that meet are the same set. *)
Lemma component_unique d P C C' p :
  component d P C -> component d P C' -> p ∈ C -> p ∈ C' -> C = C'.
Proof.
  intros (_ & HCP & HCc & HCcl) (_ & HCP' & HCc' & HCcl') Hp Hp'.
  apply set_eq. intros q. split; intros Hq.
  - apply (reachable_stays d P C' p q); [done | done |].
    eapply reachable_mono; [apply HCP | by apply HCc].
  - apply (reachable_stays d P C p q); [done | done |].
    eapply reachable_mono; [apply HCP' | by apply HCc'].
Qed.


Lemma size_remove (s : gset Point2) (p : Point2) :
  p ∈ s -> size s = S (size (s ∖ {[p]})).
Proof.
  intros Hp. rewrite (union_difference_L {[p]} s) at 1 by set_solver.
  rewrite size_union by set_solver. by rewrite size_singleton.
Qed.

Lemma not_disjoint_elem (X Y : gset Point2) :
  ~ X ## Y -> exists p, p ∈ X /\ p ∈ Y.
Proof.
  intros Hnd. destruct (set_choose_or_empty (X ∩ Y)) as [[p Hp] | Hemp].
  - exists p. set_solver.
  - exfalso. apply Hnd. set_solver.
Qed.

Lemma for_each_app {A S : Type} (body : A -> S -> result S) l1 l2 st :
  for_each body (l1 ++ l2) st = (st' ← for_each body l1 st; for_each body l2 st').
Proof.
  revert st. induction l1 as [| x l1 IH]; intros st; simpl; [done |].
  destruct (body x st) as [st' | e]; simpl; [apply IH | done].
Qed.

Lemma py_getitem_nonneg {A : Type} (l : list A) (i : Z) (a : A) :
  0 <= i -> l !! Z.to_nat i = Some a -> py_getitem l i = Ok a.
Proof.
  intros Hi Hl. unfold py_getitem, py_index.
  apply lookup_lt_Some in Hl as Hlt.
  rewrite decide_True by lia. simpl. by rewrite Hl.
Qed.

Lemma py_setitem_nonneg {A : Type} (l : list A) (i : Z) (a : A) :
  0 <= i < Z.of_nat (length l) -> py_setitem l i a = Ok (<[Z.to_nat i := a]> l).
Proof. intros Hi. unfold py_setitem, py_index. by rewrite decide_True by lia. Qed.

Lemma elem_of_py_range a b i : i ∈ py_range a b <-> a <= i < b.
Proof.
  unfold py_range. rewrite list_elem_of_fmap. split.
  - intros (k & -> & Hk). apply elem_of_seq in Hk. lia.
  - intros Hi. exists (Z.to_nat (i - a)). split; [lia |]. apply elem_of_seq. lia.
Qed.

Lemma length_py_range a b : length (py_range a b) = Z.to_nat (b - a).
Proof. unfold py_range. by rewrite length_fmap, length_seq. Qed.

Lemma elem_of_nearby d (off : Point2) :
  off ∈ nearby d <-> Z.abs (px off) + Z.abs (py off) <= d.
Proof.
  unfold nearby. rewrite elem_of_list_to_set, list_elem_of_bind. split.
  - intros (dx & Hin & _). apply list_elem_of_bind in Hin as (dy & Hin & _).
    case_decide; [| by apply elem_of_nil in Hin].
    apply list_elem_of_singleton in Hin as ->. done.
  - intros Hd. destruct off as [dx dy]. unfold px, py in Hd. simpl in Hd.
    exists dx. split; [| apply elem_of_py_range; lia].
    apply list_elem_of_bind. exists dy. split; [| apply elem_of_py_range; lia].
    rewrite decide_True by done. by apply list_elem_of_singleton.
Qed.

Section picture.

Variables map_width map_height : Z.

Local Abbreviation pic_wf := (FindGroupsSpec.pic_wf map_width map_height).
Local Abbreviation pic_inv := (FindGroupsSpec.pic_inv map_width map_height).

Lemma blank_picture_wf : pic_wf (blank_picture map_width map_height).
Proof.
  unfold blank_picture. split.
  - rewrite length_fmap, length_py_range. f_equal. lia.
  - intros i row Hrow. rewrite list_lookup_fmap in Hrow.
    destruct (py_range 0 map_height !! i); [| done]. simpl in Hrow.
    injection Hrow as <-. rewrite length_fmap, length_py_range. f_equal. lia.
Qed.

Lemma pic_at_is_Some pic p :
  pic_wf pic -> in_map map_width map_height p -> is_Some (pic_at pic p).
Proof.
  intros [Hlen Hrows] [Hx Hy]. unfold pic_at.
  destruct (lookup_lt_is_Some_2 pic (Z.to_nat (py p))) as [row Hrow]; [lia |].
  rewrite Hrow. simpl. apply lookup_lt_is_Some_2.
  rewrite (Hrows _ row Hrow). lia.
Qed.

Lemma blank_picture_at p :
  in_map map_width map_height p ->
  pic_at (blank_picture map_width map_height) p = Some NOT_INTERESTED.
Proof.
  intros Hp. destruct (pic_at_is_Some _ p blank_picture_wf Hp) as [v Hv].
  rewrite Hv. f_equal. unfold pic_at, blank_picture in Hv.
  rewrite list_lookup_fmap in Hv.
  destruct (py_range 0 map_height !! Z.to_nat (py p)); [| done]. simpl in Hv.
  rewrite list_lookup_fmap in Hv.
  destruct (py_range 0 map_width !! Z.to_nat (px p)); simpl in Hv; congruence.
Qed.

(** Painting a cell of the map succeeds and changes that cell only. *)
Lemma paint_in_map pic p c :
  pic_wf pic -> in_map map_width map_height p ->
  exists pic', paint pic p c = Ok pic' /\ pic_wf pic' /\
    pic_at pic' p = Some c /\
    forall q, in_map map_width map_height q -> q <> p -> pic_at pic' q = pic_at pic q.
Proof.
  intros [Hlen Hrows] [Hx Hy].
  destruct (lookup_lt_is_Some_2 pic (Z.to_nat (py p))) as [row Hrow]; [lia |].
  assert (length row = Z.to_nat map_width) as Hrl by (by eapply Hrows).
  exists (<[Z.to_nat (py p) := <[Z.to_nat (px p) := c]> row]> pic).
  split; [| split; [| split]].
  - unfold paint. rewrite (py_getitem_nonneg pic (py p) row) by (done || lia).
    simpl. rewrite py_setitem_nonneg by lia. simpl.
    by rewrite py_setitem_nonneg by lia.
  - split; [by rewrite length_insert |].
    intros i r Hr. apply list_lookup_insert_Some in Hr as [(_ & <- & _) | [_ Hr]].
    + by rewrite length_insert.
    + by eapply Hrows.
  - unfold pic_at. rewrite list_lookup_insert_eq by lia. simpl.
    by rewrite list_lookup_insert_eq by lia.
  - intros q [Hqx Hqy] Hne. unfold pic_at.
    destruct (decide (py q = py p)) as [Heq | Hney].
    + rewrite Heq, list_lookup_insert_eq by lia. rewrite Hrow. simpl.
      rewrite list_lookup_insert_ne; [done |].
      intros Hxx. apply Hne. destruct p, q; unfold px, py in *; simpl in *.
      f_equal; lia.
    + by rewrite list_lookup_insert_ne by lia.
Qed.

Lemma pic_inv_paint pic rem p c :
  pic_inv pic rem -> in_map map_width map_height p -> c <> NOT_COLORED_YET ->
  exists pic', paint pic p c = Ok pic' /\ pic_inv pic' (rem ∖ {[p]}).
Proof.
  intros (Hwf & Hin & Hpic) Hp Hc.
  destruct (paint_in_map pic p c Hwf Hp) as (pic' & Hpaint & Hwf' & Hat & Hother).
  exists pic'. split; [done |]. split; [done |]. split.
  - intros q Hq. apply Hin. set_solver.
  - intros q Hq. destruct (decide (q = p)) as [-> | Hne].
    + rewrite Hat. split; [intros [=]; done | set_solver].
    + rewrite Hother by done. rewrite Hpic by done. set_solver.
Qed.

End picture.

Section flood.

Variable set_iter : gset Point2 -> list Point2.
Variable set_pick : gset Point2 -> Point2.
Hypothesis set_iter_perm : forall s, set_iter s ≡ₚ elements s.
Hypothesis set_pick_elem : forall s, s <> ∅ -> set_pick s ∈ s.

Variables map_width map_height : Z.

Local Abbreviation in_map := (Adjacency.in_map map_width map_height).
Local Abbreviation pic_inv := (FindGroupsSpec.pic_inv map_width map_height).
Local Abbreviation drain_inv := (FindGroupsSpec.drain_inv map_width map_height).
Local Abbreviation visit_offset := (visit_offset map_width map_height).

Lemma elem_of_set_iter s p : p ∈ set_iter s <-> p ∈ s.
Proof. rewrite (set_iter_perm s). apply elem_of_elements. Qed.

Lemma hit_nearby d base q :
  hit base (set_iter (nearby d)) q <-> adjacent d base q.
Proof.
  unfold hit, adjacent, manhattan. split.
  - intros (off & Hoff & ->). apply elem_of_set_iter, elem_of_nearby in Hoff.
    unfold shift, px, py in *. simpl. lia.
  - intros Hd. exists (px q - px base, py q - py base). split.
    + apply elem_of_set_iter, elem_of_nearby. unfold px, py in *. simpl. lia.
    + destruct q as [x y]. unfold shift, px, py. simpl. f_equal; lia.
Qed.

Lemma visit_offset_miss c base off st :
  pic_inv (picture st) (remaining st) -> shift base off ∉ remaining st ->
  visit_offset c base off st = Ok st.
Proof.
  intros (Hwf & Hin & Hpic) Hq. unfold visit_offset.
  case_decide as Hb; [done |].
  assert (in_map (shift base off)) as Hmap
    by (unfold Adjacency.in_map, shift, px, py in *; simpl; lia).
  destruct (pic_at_is_Some _ _ _ _ Hwf Hmap) as [v Hv].
  pose proof Hv as Hv'. unfold pic_at, shift in Hv'. simpl in Hv'.
  destruct (picture st !! Z.to_nat (py base + py off)) as [row |] eqn:Hrow; [| done].
  simpl in Hv'.
  rewrite (py_getitem_nonneg _ _ row) by (done || lia). simpl.
  rewrite (py_getitem_nonneg _ _ v) by (done || lia). simpl.
  rewrite decide_True; [done |]. intros ->. by apply Hq, Hpic.
Qed.

Lemma visit_offset_hit c base off st :
  pic_inv (picture st) (remaining st) -> c <> NOT_COLORED_YET ->
  shift base off ∈ remaining st ->
  exists pic',
    visit_offset c base off st =
      Ok (State pic' (remaining st ∖ {[shift base off]})
            (queue st ++ [shift base off]) ({[shift base off]} ∪ currentGroup st)) /\
    pic_inv pic' (remaining st ∖ {[shift base off]}).
Proof.
  intros Hinv Hc Hq. pose proof Hinv as (Hwf & Hin & Hpic).
  pose proof (Hin _ Hq) as Hmap.
  destruct (pic_inv_paint _ _ _ _ _ c Hinv Hmap Hc) as (pic' & Hpaint & Hinv').
  exists pic'. split; [| done]. unfold visit_offset.
  rewrite decide_False
    by (unfold Adjacency.in_map, shift, px, py in *; simpl in *; lia).
  apply Hpic in Hq as Hat; [| done]. unfold pic_at, shift in Hat. simpl in Hat.
  destruct (picture st !! Z.to_nat (py base + py off)) as [row |] eqn:Hrow; [| done].
  simpl in Hat.
  assert (0 <= px base + px off /\ 0 <= py base + py off) as [Hx Hy]
    by (unfold Adjacency.in_map, shift, px, py in *; simpl in *; lia).
  rewrite (py_getitem_nonneg _ _ row) by done. simpl.
  rewrite (py_getitem_nonneg _ _ NOT_COLORED_YET) by done. simpl.
  unfold set_remove. rewrite decide_True by done. simpl.
  unfold shift in Hpaint. rewrite Hpaint. done.
Qed.

(** The effect of [for offset in nearby] on the loop variables. *)
Lemma visit_all c base offs st :
  pic_inv (picture st) (remaining st) -> c <> NOT_COLORED_YET ->
  exists st',
    for_each (visit_offset c base) offs st = Ok st' /\
    pic_inv (picture st') (remaining st') /\
    (forall q, q ∈ remaining st' <-> q ∈ remaining st /\ ~ hit base offs q) /\
    (forall q, q ∈ currentGroup st' <->
       q ∈ currentGroup st \/ (q ∈ remaining st /\ hit base offs q)) /\
    (forall q, q ∈ queue st' <->
       q ∈ queue st \/ (q ∈ remaining st /\ hit base offs q)) /\
    (length (queue st') + size (remaining st') =
     length (queue st) + size (remaining st))%nat.
Proof.
  intros Hinv Hc. revert st Hinv.
  induction offs as [| off offs IH]; intros st Hinv.
  - exists st. simpl. split; [done |]. split; [done |].
    assert (forall q, ~ hit base [] q) as Hnil.
    { intros q (o & Ho & _). by apply elem_of_nil in Ho. }
    split; [| split; [| split]];
      [intros q; specialize (Hnil q); tauto .. | done].
  - simpl. destruct (decide (shift base off ∈ remaining st)) as [Hq | Hq].
    + destruct (visit_offset_hit c base off st Hinv Hc Hq) as (pic' & -> & Hinv').
      simpl.
      destruct (IH (State pic' (remaining st ∖ {[shift base off]})
                      (queue st ++ [shift base off])
                      ({[shift base off]} ∪ currentGroup st)) Hinv')
        as (st' & -> & Hinv'' & Hrem & Hgrp & Hqu & Hlen).
      simpl in *. exists st'. split; [done |]. split; [done |].
      assert (forall q, hit base (off :: offs) q <->
                q = shift base off \/ hit base offs q) as Hhit.
      { intros q. unfold hit. split.
        - intros (o & Ho & ->). apply elem_of_cons in Ho as [-> | Ho]; eauto.
        - intros [-> | (o & Ho & ->)].
          + exists off. split; [apply elem_of_cons; by left | done].
          + exists o. split; [apply elem_of_cons; by right | done]. }
      split; [| split; [| split]].
      * intros q. rewrite Hrem, Hhit, elem_of_difference, elem_of_singleton. tauto.
      * intros q. rewrite Hgrp, Hhit, elem_of_union, elem_of_difference,
          !elem_of_singleton.
        destruct (decide (q = shift base off)) as [-> | Hne]; tauto.
      * intros q. rewrite Hqu, Hhit, elem_of_app, list_elem_of_singleton,
          elem_of_difference, elem_of_singleton.
        destruct (decide (q = shift base off)) as [-> | Hne]; tauto.
      * rewrite Hlen, length_app. simpl.
        rewrite (size_remove (remaining st) (shift base off)) by done. lia.
    + rewrite (visit_offset_miss c base off st Hinv Hq). simpl.
      destruct (IH st Hinv) as (st' & -> & Hinv'' & Hrem & Hgrp & Hqu & Hlen).
      exists st'. split; [done |]. split; [done |].
      assert (forall q, q ∈ remaining st ->
                (hit base (off :: offs) q <-> hit base offs q)) as Hhit.
      { intros q Hqr. unfold hit. split.
        - intros (o & Ho & ->). apply elem_of_cons in Ho as [-> | Ho]; [done |].
          eauto.
        - intros (o & Ho & ->). exists o. split; [apply elem_of_cons; by right | done]. }
      split; [| split; [| split]]; [| | | done].
      * intros q. rewrite Hrem. split; intros [? ?]; (split; [done |]);
          by rewrite Hhit in *.
      * intros q. rewrite Hgrp. split; (intros [? | [? ?]]; [by left | right]);
          (split; [done |]); by rewrite Hhit in *.
      * intros q. rewrite Hqu. split; (intros [? | [? ?]]; [by left | right]);
          (split; [done |]); by rewrite Hhit in *.
Qed.

(** *** The inner loop: one group is grown from its start point *)

Lemma drain_queue_spec d c V s fuel st :
  c <> NOT_COLORED_YET -> drain_inv d V s st ->
  (size (remaining st) + length (queue st) < fuel)%nat ->
  exists st',
    drain_queue set_iter map_width map_height fuel c (nearby d) st = Ok st' /\
    drain_inv d V s st' /\ queue st' = [] /\
    (size (remaining st') <= size (remaining st))%nat.
Proof.
  intros Hc. revert st. induction fuel as [| fuel IH]; intros st Hinv Hfuel; [lia |].
  simpl. destruct (queue st) as [| base rest] eqn:Hqueue.
  { exists st. by rewrite Hqueue. }
  destruct Hinv as (Hpic & HV & Hdisj & Hs & Hqg & Hreach & Hclosed).
  rewrite Hqueue in Hqg, Hclosed.
  destruct (visit_all c base (set_iter (nearby d))
              (State (picture st) (remaining st) rest (currentGroup st)) Hpic Hc)
    as (st1 & -> & Hpic1 & Hrem & Hgrp & Hqu & Hlen).
  simpl in *.
  assert (base ∈ currentGroup st) as Hbase
    by (apply Hqg, elem_of_cons; by left).
  assert (forall q, hit base (set_iter (nearby d)) q <-> adjacent d base q) as Hhit
    by (intros q; apply hit_nearby).
  assert (forall q, Decision (adjacent d base q)) as Hdec
    by (intros q; unfold adjacent; apply _).
  assert (currentGroup st ⊆ currentGroup st1) as Hsub
    by (intros q Hq; apply Hgrp; by left).
  destruct (IH st1) as (st' & Hrun & Hinv' & Hq' & Hsz).
  - split; [done |]. split; [| split; [| split; [| split; [| split]]]].
    + apply set_eq. intros q. rewrite elem_of_union, Hrem, Hgrp, Hhit, <- HV,
        elem_of_union.
      destruct (Hdec q); tauto.
    + intros q Hq1 Hq2. apply Hrem in Hq1 as [Hq1 Hnh].
      apply Hgrp in Hq2 as [Hq2 | [_ Hh]]; [| done]. by apply (Hdisj q).
    + by apply Hsub.
    + intros q Hq. apply Hgrp. apply Hqu in Hq as [Hq | Hq]; [left | by right].
      apply Hqg, elem_of_cons. by right.
    + intros g Hg. apply Hgrp in Hg as [Hg | [Hg Hh]].
      * eapply reachable_mono; [apply Hsub | by apply Hreach].
      * eapply rtc_r.
        -- eapply reachable_mono; [apply Hsub | by apply Hreach].
        -- split; [apply Hgrp; by right | by apply Hhit].
    + intros g q Hg Hgq Hq Hadj.
      assert (g ∈ currentGroup st) as Hg0.
      { apply Hgrp in Hg as [Hg | Hg]; [done |]. exfalso. apply Hgq, Hqu. by right. }
      destruct (decide (g = base)) as [-> | Hne].
      * rewrite <- HV in Hq. apply elem_of_union in Hq as [Hq | Hq].
        -- apply Hgrp. right. split; [done | by apply Hhit].
        -- by apply Hsub.
      * apply Hsub. apply (Hclosed g q); [done | | done | done].
        intros Hin. apply elem_of_cons in Hin as [-> | Hin]; [done |].
        apply Hgq, Hqu. by left.
  - lia.
  - exists st'. rewrite Hrun. split; [done |]. split; [done |]. split; [done |].
    assert (size (remaining st1) <= size (remaining st))%nat; [| lia].
    apply subseteq_size. intros q Hq. by apply Hrem in Hq as [Hq _].
Qed.

(** *** The outer loop: groups are found one after the other *)

Lemma pairwise_disjoint_snoc groups G :
  pairwise_disjoint groups -> (forall G', G' ∈ groups -> G' ## G) ->
  pairwise_disjoint (groups ++ [G]).
Proof.
  intros Hpd Hnew i j Gi Gj Hij Hi Hj.
  apply lookup_snoc_Some in Hi as [[Hi1 Hi2] | [Hi1 Hi2]];
    apply lookup_snoc_Some in Hj as [[Hj1 Hj2] | [Hj1 Hj2]].
  - by apply (Hpd i j).
  - subst. apply Hnew. by eapply list_elem_of_lookup_2.
  - subst. symmetry. apply Hnew. by eapply list_elem_of_lookup_2.
  - lia.
Qed.

Lemma group_loop_spec d m P fuel pic rem c found :
  pic_inv pic rem -> rem ⊆ P -> closed_in d P rem ->
  groups_inv d m P rem found -> NOT_COLORED_YET <= c ->
  (size rem < fuel)%nat ->
  exists groups,
    group_loop set_iter set_pick map_width map_height fuel m (nearby d)
      pic rem [] c found = Ok groups /\
    groups_inv d m P ∅ groups.
Proof.
  revert pic rem c found.
  induction fuel as [| fuel IH]; intros pic rem c found Hpic HremP Hcl Hinv Hc Hfuel;
    [lia |].
  simpl. case_decide as Hempty.
  { subst rem. by exists found. }
  unfold set_pop. rewrite decide_False by done. simpl.
  set (start := set_pick rem).
  assert (start ∈ rem) as Hstart by (by apply set_pick_elem).
  assert (c + 1 <> NOT_COLORED_YET) as Hc1 by (unfold NOT_COLORED_YET in *; lia).
  destruct Hpic as (Hwf & Hin & Hat).
  destruct (pic_inv_paint map_width map_height pic rem start (c + 1))
    as (pic1 & -> & Hpic1); [done | by apply Hin | done |].
  simpl.
  assert (drain_inv d rem start (State pic1 (rem ∖ {[start]}) [start] {[start]}))
    as Hdrain.
  { split; [done |]. simpl. split; [| split; [| split; [| split; [| split]]]].
    - rewrite union_comm_L. symmetry. apply union_difference_L. set_solver.
    - set_solver.
    - set_solver.
    - intros q Hq. apply list_elem_of_singleton in Hq. set_solver.
    - intros g Hg. apply elem_of_singleton in Hg as ->. constructor.
    - intros g q Hg Hgq. apply elem_of_singleton in Hg as ->.
      exfalso. apply Hgq. by apply list_elem_of_singleton. }
  destruct (drain_queue_spec d (c + 1) rem start
              (S (size (rem ∖ {[start]}) + 1)) _ Hc1 Hdrain)
    as (st' & Hrun & Hinv' & Hq' & Hsz); [simpl; lia |].
  simpl in Hrun. rewrite Hrun. simpl. rewrite Hq'.
  destruct Hinv' as (Hpic' & HV & Hdisj & Hs & _ & Hreach & Hclosed).
  set (G := currentGroup st') in *. set (rem' := remaining st') in *.
  assert (component d P G) as Hcomp.
  { split; [set_solver |]. split; [set_solver |]. split.
    - intros p q Hp Hq. etrans; [| by apply Hreach].
      apply reachable_sym; [done | by apply Hreach].
    - intros p q Hp Hq Hadj. apply (Hclosed p q); [done | | | done].
      + rewrite Hq'. apply not_elem_of_nil.
      + apply (Hcl p q); [set_solver | done | done]. }
  simpl in Hsz.
  apply IH.
  - done.
  - set_solver.
  - intros p q Hp Hq Hadj.
    assert (q ∈ rem) as Hqr by (apply (Hcl p q); [set_solver | done | done]).
    rewrite <- HV in Hqr. apply elem_of_union in Hqr as [Hqr | Hqr]; [done |].
    exfalso. apply (Hdisj p); [done |].
    apply (Hclosed q p); [done | | set_solver | by apply adjacent_sym].
    rewrite Hq'. apply not_elem_of_nil.
  - destruct Hinv as (Hfound & Hpd & Hall).
    assert (forall G', G' ∈ found -> G' ## G) as Hsep.
    { intros G' HG'. destruct (Hfound G' HG') as (_ & HG'rem & _). set_solver. }
    case_decide as Hsize.
    + split; [| split].
      * intros G' HG'. apply elem_of_app in HG' as [HG' | HG'].
        -- destruct (Hfound G' HG') as (? & ? & ?). split; [done |].
           split; [set_solver | done].
        -- apply list_elem_of_singleton in HG' as ->. split; [done |].
           split; [set_solver | lia].
      * by apply pairwise_disjoint_snoc.
      * intros C HC HCrem HCsize. apply elem_of_app.
        destruct (decide (C ## rem)) as [Hd | Hd]; [left; by apply Hall |].
        right. apply list_elem_of_singleton.
        apply not_disjoint_elem in Hd as (p & HpC & Hpr).
        apply (component_unique d P C G p); [done | done | done | set_solver].
    + split; [| split].
      * intros G' HG'. destruct (Hfound G' HG') as (? & ? & ?). split; [done |].
        split; [set_solver | done].
      * done.
      * intros C HC HCrem HCsize.
        destruct (decide (C ## rem)) as [Hd | Hd]; [by apply Hall |].
        exfalso. apply not_disjoint_elem in Hd as (p & HpC & Hpr).
        assert (C = G) as -> by
          (apply (component_unique d P C G p); [done | done | done | set_solver]).
        lia.
  - lia.
  - assert (size rem = S (size (rem ∖ {[start]}))) by (by apply size_remove). lia.
Qed.

(** *** The whole function *)

Lemma paint_all ls pic :
  pic_wf map_width map_height pic -> (forall p, p ∈ ls -> in_map p) ->
  exists pic',
    for_each (fun point pic => paint pic point NOT_COLORED_YET) ls pic = Ok pic' /\
    pic_wf map_width map_height pic' /\
    forall q, in_map q ->
      pic_at pic' q = if decide (q ∈ ls) then Some NOT_COLORED_YET else pic_at pic q.
Proof.
  revert pic. induction ls as [| p ls IH]; intros pic Hwf Hin.
  - exists pic. split; [done |]. split; [done |]. intros q _.
    case_decide as Hq; [by apply elem_of_nil in Hq | done].
  - simpl.
    destruct (paint_in_map map_width map_height pic p NOT_COLORED_YET)
      as (pic1 & -> & Hwf1 & Hat & Hother); [done | apply Hin; by left |].
    simpl. destruct (IH pic1) as (pic' & -> & Hwf' & Hat');
      [done | intros q Hq; apply Hin; by right |].
    exists pic'. split; [done |]. split; [done |]. intros q Hq.
    rewrite Hat' by done. destruct (decide (q ∈ ls)) as [Hql | Hql].
    + rewrite decide_True; [done | by right].
    + destruct (decide (q = p)) as [-> | Hne].
      * rewrite decide_True; [done | by left].
      * rewrite decide_False; [by apply Hother |].
        intros Hqp. apply elem_of_cons in Hqp as [? | ?]; done.
Qed.

(** On points of the map the function returns, and the groups it returns
    are the clusters of the input that reach the minimum size, each once. *)
Lemma find_groups_spec (points : gset Point2) (m d : Z) :
  (forall p, p ∈ points -> in_map p) ->
  exists groups,
    _find_groups set_iter set_pick map_width map_height points m d = Ok groups /\
    groups_inv d m points ∅ groups.
Proof.
  intros Hin. unfold _find_groups.
  destruct (paint_all (set_iter points) (blank_picture map_width map_height))
    as (pic0 & -> & Hwf0 & Hat0).
  { apply blank_picture_wf. }
  { intros p Hp. by apply Hin, elem_of_set_iter. }
  cbv beta iota delta [mbind result_bind]. apply (group_loop_spec d m points).
  - split; [done |]. split; [done |]. intros p Hp. rewrite Hat0 by done.
    case_decide as Hpl.
    + split; [intros _; by apply elem_of_set_iter | done].
    + rewrite blank_picture_at by done. split; [done |].
      intros Hpp. exfalso. by apply Hpl, elem_of_set_iter.
  - done.
  - intros p q _ Hq _. done.
  - split; [| split].
    + intros G HG. by apply elem_of_nil in HG.
    + intros i j Gi Gj _ Hi. done.
    + intros C (Hne & HCP & _) Hd. exfalso. apply Hne.
      destruct (set_choose_or_empty C) as [[p Hp] | Hemp]; [| set_solver].
      exfalso. apply (Hd p); [done | by apply HCP].
  - done.
  - lia.
Qed.

End flood.

Lemma first_elem_in (s : gset Point2) : s <> ∅ -> first_elem s ∈ s.
Proof.
  intros Hne. unfold first_elem. destruct (elements s) as [| x l] eqn:Hel.
  - apply elements_empty_inv in Hel. exfalso. apply Hne. by apply leibniz_equiv.
  - simpl. assert (x ∈ elements s) as Hx by (rewrite Hel; by left).
    by apply elem_of_elements in Hx.
Qed.

Lemma elements_perm_refl (s : gset Point2) : elements s ≡ₚ elements s.
Proof. reflexivity. Qed.

(** C1: on a point set of the map, [_find_groups] returns groups each of
    which is connected under the dilated adjacency (any two of its points
    are joined by hops of Manhattan distance at most
    [max_distance_between_points] through points of the group), and two
    groups at different positions of the result are disjoint and no point of
    one can be reached from a point of the other by such hops through points
    of the input. *)
Theorem find_groups_connected_and_separated
    (set_iter : gset Point2 -> list Point2) (set_pick : gset Point2 -> Point2)
    (map_width map_height : Z) (points : gset Point2)
    (minimum_points_per_group max_distance_between_points : Z) :
  (forall s, set_iter s ≡ₚ elements s) ->
  (forall s, s <> ∅ -> set_pick s ∈ s) ->
  (forall p, p ∈ points -> in_map map_width map_height p) ->
  exists groups,
    _find_groups set_iter set_pick map_width map_height points
      minimum_points_per_group max_distance_between_points = Ok groups /\
    (forall G, G ∈ groups -> connected max_distance_between_points G) /\
    (forall i j Gi Gj, i <> j ->
       groups !! i = Some Gi -> groups !! j = Some Gj ->
       Gi ## Gj /\
       forall p q, p ∈ Gi -> q ∈ Gj ->
         ~ reachable max_distance_between_points points p q).
Proof.
  intros Hiter Hpick Hin.
  destruct (find_groups_spec set_iter set_pick Hiter Hpick map_width map_height
              points minimum_points_per_group max_distance_between_points Hin)
    as (groups & Hrun & Hcomp & Hpd & _).
  exists groups. split; [done |]. split.
  - intros G HG. by destruct (Hcomp G HG) as ((_ & _ & Hconn & _) & _).
  - intros i j Gi Gj Hij Hi Hj. split; [by apply (Hpd i j) |].
    intros p q Hp Hq Hreach.
    destruct (Hcomp Gi) as ((_ & _ & _ & Hcl) & _);
      [by eapply list_elem_of_lookup_2 |].
    apply (Hpd i j Gi Gj Hij Hi Hj q); [| done].
    by apply (reachable_stays max_distance_between_points points Gi p q).
Qed.

Lemma find_groups_connected_and_separated_witness :
  exists groups,
    _find_groups elements first_elem 4 3 {[ (0, 0); (1, 0); (3, 2) ]} 1 1
      = Ok groups /\
    (forall G, G ∈ groups -> connected 1 G) /\
    (forall i j Gi Gj, i <> j ->
       groups !! i = Some Gi -> groups !! j = Some Gj ->
       Gi ## Gj /\
       forall p q, p ∈ Gi -> q ∈ Gj ->
         ~ reachable 1 {[ (0, 0); (1, 0); (3, 2) ]} p q).
Proof.
  apply (find_groups_connected_and_separated elements first_elem 4 3
           {[ (0, 0); (1, 0); (3, 2) ]} 1 1
           elements_perm_refl first_elem_in).
  intros p Hp. apply elem_of_elements in Hp. revert p Hp.
  apply (proj1 (list.Forall_forall (in_map 4 3) _)).
  vm_compute. repeat constructor; discriminate.
Defined.

(** C8: a maximal connected cluster of the input is among the returned
    groups exactly when it has at least [minimum_points_per_group] cells: a
    cluster of exactly that many cells is kept, one with one cell less is
    dropped. *)
Theorem find_groups_minimum_size_inclusive
    (set_iter : gset Point2 -> list Point2) (set_pick : gset Point2 -> Point2)
    (map_width map_height : Z) (points : gset Point2)
    (minimum_points_per_group max_distance_between_points : Z) :
  (forall s, set_iter s ≡ₚ elements s) ->
  (forall s, s <> ∅ -> set_pick s ∈ s) ->
  (forall p, p ∈ points -> in_map map_width map_height p) ->
  exists groups,
    _find_groups set_iter set_pick map_width map_height points
      minimum_points_per_group max_distance_between_points = Ok groups /\
    forall C, component max_distance_between_points points C ->
      (Z.of_nat (size C) = minimum_points_per_group -> C ∈ groups) /\
      (Z.of_nat (size C) = minimum_points_per_group - 1 -> C ∉ groups) /\
      (C ∈ groups <-> minimum_points_per_group <= Z.of_nat (size C)).
Proof.
  intros Hiter Hpick Hin.
  destruct (find_groups_spec set_iter set_pick Hiter Hpick map_width map_height
              points minimum_points_per_group max_distance_between_points Hin)
    as (groups & Hrun & Hcomp & _ & Hall).
  exists groups. split; [done |]. intros C HC.
  assert (C ∈ groups <-> minimum_points_per_group <= Z.of_nat (size C)) as Hiff.
  { split.
    - intros HCg. by destruct (Hcomp C HCg) as (_ & _ & ?).
    - intros Hsz. apply Hall; [done | set_solver | done]. }
  split; [| split]; [| | done].
  - intros Heq. apply Hiff. lia.
  - intros Heq HCg. apply Hiff in HCg. lia.
Qed.

Lemma find_groups_minimum_size_inclusive_witness :
  exists groups,
    _find_groups elements first_elem 4 3 {[ (0, 0); (1, 0); (3, 2) ]} 2 1
      = Ok groups /\
    forall C, component 1 {[ (0, 0); (1, 0); (3, 2) ]} C ->
      (Z.of_nat (size C) = 2 -> C ∈ groups) /\
      (Z.of_nat (size C) = 2 - 1 -> C ∉ groups) /\
      (C ∈ groups <-> 2 <= Z.of_nat (size C)).
Proof.
  apply (find_groups_minimum_size_inclusive elements first_elem 4 3
           {[ (0, 0); (1, 0); (3, 2) ]} 2 1
           elements_perm_refl first_elem_in).
  intros p Hp. apply elem_of_elements in Hp. revert p Hp.
  apply (proj1 (list.Forall_forall (in_map 4 3) _)).
  vm_compute. repeat constructor; discriminate.
Defined.

End FindGroupsProofs.

(** ** Properties of sorting and maximum with a key *)

Module ByKeyProofs.
Import ByKeySpec.

Section by_key.

Context {F : Type} `{FloatOps F} {A : Type}.

Lemma insert_desc_perm (kx : F * A) l : insert_desc kx l ≡ₚ kx :: l.
Proof.
  induction l as [| ky l IH]; simpl; [done |].
  destruct (fltb (fst kx) (fst ky)); [| done].
  rewrite IH. apply Permutation_swap.
Qed.

Lemma sort_desc_perm (l : list (F * A)) : sort_desc l ≡ₚ l.
Proof.
  induction l as [| kx l IH]; simpl; [done |].
  rewrite insert_desc_perm. by rewrite IH.
Qed.

Lemma sorted_desc_by_perm (k : A -> F) l : sorted_desc_by k l ≡ₚ l.
Proof.
  unfold sorted_desc_by. rewrite sort_desc_perm.
  rewrite <- list_fmap_compose. simpl.
  induction l as [| x l IH]; simpl; [done | by rewrite IH].
Qed.

Lemma sorted_desc_by_keys (k : A -> F) l :
  Forall (fun kx => fst kx = k (snd kx)) (sort_desc ((fun x => (k x, x)) <$> l)).
Proof.
  rewrite sort_desc_perm. apply Forall_fmap, Forall_true. done.
Qed.

Lemma pop_down_to_2_take fuel (l : list A) :
  (length l <= fuel + 2)%nat -> pop_down_to_2 fuel l = take 2 l.
Proof.
  revert l. induction fuel as [| fuel IH]; intros l Hlen; simpl.
  - by rewrite take_ge by lia.
  - case_decide as Hl; [| by rewrite take_ge by lia].
    rewrite IH.
    + rewrite removelast_firstn_len. rewrite take_take. f_equal. lia.
    + rewrite removelast_firstn_len, length_take. lia.
Qed.

Lemma for_each_keys (key : A -> result F) (k : A -> F) l acc :
  (forall x, x ∈ l -> key x = Ok (k x)) ->
  for_each (fun x acc => kx ← key x; Ok (acc ++ [(kx, x)])) l acc =
    Ok (acc ++ ((fun x => (k x, x)) <$> l)).
Proof.
  revert acc. induction l as [| x l IH]; intros acc Hkey; simpl.
  - by rewrite app_nil_r.
  - rewrite (Hkey x) by (by left). simpl. rewrite IH.
    + by rewrite <- app_assoc.
    + intros y Hy. apply Hkey. by right.
Qed.

Lemma py_sorted_reverse_ok (key : A -> result F) (k : A -> F) l :
  (forall x, x ∈ l -> key x = Ok (k x)) ->
  py_sorted_reverse key l = Ok (sorted_desc_by k l).
Proof.
  intros Hkey. unfold py_sorted_reverse. by rewrite (for_each_keys key k).
Qed.

Lemma py_sorted_reverse_raise (key : A -> result F) e x l :
  key x = Raise e -> py_sorted_reverse key (x :: l) = Raise e.
Proof. intros Hkey. unfold py_sorted_reverse. simpl. by rewrite Hkey. Qed.

Lemma py_max_nonempty (key : A -> F) l : l <> [] -> exists m, py_max key l = Ok m.
Proof. destruct l; [done | eauto]. Qed.

Lemma py_max_not_degenerate (key : A -> F) l : py_max key l <> Raise DegenerateRamp.
Proof. by destruct l. Qed.

Section order.

Context `{!FloatOrder F}.

Lemma fltb_irrefl (a : F) : fltb a a = false.
Proof.
  destruct (fltb a a) eqn:Haa; [| done].
  pose proof (fltb_asym a a Haa). congruence.
Qed.

Lemma fltb_trans (a b c : F) : fltb a b = true -> fltb b c = true -> fltb a c = true.
Proof.
  intros Hab Hbc. destruct (fltb a c) eqn:Hac; [done |].
  pose proof (fltb_asym b c Hbc) as Hcb.
  pose proof (fltb_negtrans a c b Hac Hcb). congruence.
Qed.

Lemma insert_desc_sorted (kx : F * A) l :
  sorted_desc l -> sorted_desc (insert_desc kx l).
Proof.
  induction l as [| ky l IH]; simpl; [done |].
  intros [Hky Hl]. destruct (fltb (fst kx) (fst ky)) eqn:Hlt; simpl.
  - split; [| by apply IH].
    rewrite insert_desc_perm. constructor; [by apply fltb_asym | done].
  - split; [| done]. constructor; [done |].
    eapply list.Forall_impl; [apply Hky |]. intros kz Hkz. simpl in Hkz.
    by apply (fltb_negtrans _ (fst ky)).
Qed.

Lemma sort_desc_sorted (l : list (F * A)) : sorted_desc (sort_desc l).
Proof.
  induction l as [| kx l IH]; simpl; [done | by apply insert_desc_sorted].
Qed.

Lemma sorted_desc_take_drop (l : list (F * A)) n a b :
  sorted_desc l -> a ∈ take n l -> b ∈ drop n l -> fltb (fst a) (fst b) = false.
Proof.
  revert n. induction l as [| c l IH]; intros n Hs Ha Hb.
  - rewrite take_nil in Ha. by apply elem_of_nil in Ha.
  - destruct n as [| n]; simpl in *; [by apply elem_of_nil in Ha |].
    destruct Hs as [Hc Hs]. apply elem_of_cons in Ha as [-> | Ha].
    + rewrite list.Forall_forall in Hc. apply Hc.
      by apply (subseteq_drop n l).
    + by apply (IH n).
Qed.

(** The first [n] elements of the sorted list have the largest keys. *)
Lemma sorted_desc_by_take_drop (k : A -> F) l n x y :
  x ∈ take n (sorted_desc_by k l) -> y ∈ drop n (sorted_desc_by k l) ->
  fltb (k x) (k y) = false.
Proof.
  unfold sorted_desc_by. rewrite <- fmap_take, <- fmap_drop.
  intros Hx Hy.
  apply list_elem_of_fmap in Hx as ([kx x'] & -> & Hx).
  apply list_elem_of_fmap in Hy as ([ky y'] & -> & Hy).
  pose proof (sorted_desc_by_keys k l) as Hkeys.
  rewrite list.Forall_forall in Hkeys.
  pose proof (Hkeys _ (subseteq_take n _ _ Hx)) as Hkx.
  pose proof (Hkeys _ (subseteq_drop n _ _ Hy)) as Hky.
  simpl in *. subst.
  apply (sorted_desc_take_drop _ n _ _ (sort_desc_sorted _) Hx Hy).
Qed.

(** [max] returns an element of the list with no larger key in the list. *)
Lemma py_max_spec (key : A -> F) l m :
  py_max key l = Ok m ->
  m ∈ l /\ forall x, x ∈ l -> fltb (key m) (key x) = false.
Proof.
  destruct l as [| x l]; [done |]. simpl. intros [= <-].
  assert (forall seen best,
            best ∈ seen -> (forall y, y ∈ seen -> fltb (key best) (key y) = false) ->
            let m := foldl (fun best y => if fltb (key best) (key y) then y else best)
                       best l in
            m ∈ seen ++ l /\
            forall y, y ∈ seen ++ l -> fltb (key m) (key y) = false) as Hgen.
  { induction l as [| z l IH]; intros seen best Hin Hbest; simpl.
    - by rewrite app_nil_r.
    - replace (seen ++ z :: l) with ((seen ++ [z]) ++ l) by (by rewrite <- app_assoc).
      destruct (fltb (key best) (key z)) eqn:Hlt; apply IH.
      + apply elem_of_app. right. by apply list_elem_of_singleton.
      + intros y Hy. apply elem_of_app in Hy as [Hy | Hy].
        * destruct (fltb (key z) (key y)) eqn:Hzy; [| done].
          pose proof (fltb_trans _ _ _ Hlt Hzy). rewrite (Hbest y Hy) in *. done.
        * apply list_elem_of_singleton in Hy as ->. apply fltb_irrefl.
      + apply elem_of_app. by left.
      + intros y Hy. apply elem_of_app in Hy as [Hy | Hy]; [by apply Hbest |].
        by apply list_elem_of_singleton in Hy as ->. }
  apply (Hgen [x] x).
  - by apply list_elem_of_singleton.
  - intros y Hy. apply list_elem_of_singleton in Hy as ->. apply fltb_irrefl.
Qed.

End order.

End by_key.

End ByKeyProofs.

(** ** Properties of the ramp geometry *)

Module RampProofs.
Import Ramp QFloat RampSpec.

(** Below, [size] is the cardinality of a set, not [Ramp.size]. *)
Local Abbreviation size := stdpp.base.size (only parsing).

(** *** [upper] and [lower] *)

Section extremal.

Variable set_iter : gset Point2 -> list Point2.
Hypothesis set_iter_perm : forall s, set_iter s ≡ₚ elements s.

Lemma upper_scan (r : Ramp.t) (l : list Point2) (cm : Z) (res : gset Point2) (seen : list Point2) :
  (forall p, p ∈ res <-> p ∈ seen /\ height_at r p = cm) ->
  (forall q, q ∈ seen -> height_at r q <= cm) ->
  (cm = -10000 \/ exists p, p ∈ seen /\ height_at r p = cm) ->
  -10000 <= cm ->
  exists cm',
    -10000 <= cm' /\
    (forall p, p ∈ snd (foldl (upper_step r) (cm, res) l) <->
       p ∈ seen ++ l /\ height_at r p = cm') /\
    (forall q, q ∈ seen ++ l -> height_at r q <= cm') /\
    (cm' = -10000 \/ exists p, p ∈ seen ++ l /\ height_at r p = cm').
Proof.
  revert cm res seen.
  induction l as [| x l IH]; intros cm res seen Hres Hmax Hatt Hbound.
  - exists cm. simpl. rewrite app_nil_r. done.
  - simpl. replace (seen ++ x :: l) with ((seen ++ [x]) ++ l)
      by (by rewrite <- app_assoc).
    repeat case_decide.
    + apply IH.
      * intros p. rewrite Hres, elem_of_app, list_elem_of_singleton.
        split; [tauto |]. intros [[? | ->] ?]; [done | lia].
      * intros q Hq. apply elem_of_app in Hq as [Hq | Hq]; [by apply Hmax |].
        apply list_elem_of_singleton in Hq as ->. lia.
      * destruct Hatt as [? | (p & ? & ?)]; [by left | right].
        exists p. split; [apply elem_of_app; by left | done].
      * lia.
    + apply IH.
      * intros p. rewrite elem_of_union, elem_of_singleton, Hres, elem_of_app,
          list_elem_of_singleton.
        split; [intros [-> | [? ?]]; tauto | tauto].
      * intros q Hq. apply elem_of_app in Hq as [Hq | Hq]; [by apply Hmax |].
        apply list_elem_of_singleton in Hq as ->. lia.
      * right. exists x. split; [| done].
        apply elem_of_app. right. by apply list_elem_of_singleton.
      * lia.
    + apply IH.
      * intros p. rewrite elem_of_singleton, elem_of_app, list_elem_of_singleton.
        split; [intros ->; tauto |]. intros [[Hp | ->] Hh]; [| done].
        apply Hmax in Hp. lia.
      * intros q Hq. apply elem_of_app in Hq as [Hq | Hq].
        -- apply Hmax in Hq. lia.
        -- apply list_elem_of_singleton in Hq as ->. lia.
      * right. exists x. split; [| done].
        apply elem_of_app. right. by apply list_elem_of_singleton.
      * lia.
Qed.

Lemma lower_scan (r : Ramp.t) (l : list Point2) (cm : Z) (res : gset Point2) (seen : list Point2) :
  (forall p, p ∈ res <-> p ∈ seen /\ height_at r p = cm) ->
  (forall q, q ∈ seen -> cm <= height_at r q) ->
  (cm = 10000 \/ exists p, p ∈ seen /\ height_at r p = cm) ->
  cm <= 10000 ->
  exists cm',
    cm' <= 10000 /\
    (forall p, p ∈ snd (foldl (lower_step r) (cm, res) l) <->
       p ∈ seen ++ l /\ height_at r p = cm') /\
    (forall q, q ∈ seen ++ l -> cm' <= height_at r q) /\
    (cm' = 10000 \/ exists p, p ∈ seen ++ l /\ height_at r p = cm').
Proof.
  revert cm res seen.
  induction l as [| x l IH]; intros cm res seen Hres Hmin Hatt Hbound.
  - exists cm. simpl. rewrite app_nil_r. done.
  - simpl. replace (seen ++ x :: l) with ((seen ++ [x]) ++ l)
      by (by rewrite <- app_assoc).
    repeat case_decide.
    + apply IH.
      * intros p. rewrite Hres, elem_of_app, list_elem_of_singleton.
        split; [tauto |]. intros [[? | ->] ?]; [done | lia].
      * intros q Hq. apply elem_of_app in Hq as [Hq | Hq]; [by apply Hmin |].
        apply list_elem_of_singleton in Hq as ->. lia.
      * destruct Hatt as [? | (p & ? & ?)]; [by left | right].
        exists p. split; [apply elem_of_app; by left | done].
      * lia.
    + apply IH.
      * intros p. rewrite elem_of_union, elem_of_singleton, Hres, elem_of_app,
          list_elem_of_singleton.
        split; [intros [-> | [? ?]]; tauto | tauto].
      * intros q Hq. apply elem_of_app in Hq as [Hq | Hq]; [by apply Hmin |].
        apply list_elem_of_singleton in Hq as ->. lia.
      * right. exists x. split; [| done].
        apply elem_of_app. right. by apply list_elem_of_singleton.
      * lia.
    + apply IH.
      * intros p. rewrite elem_of_singleton, elem_of_app, list_elem_of_singleton.
        split; [intros ->; tauto |]. intros [[Hp | ->] Hh]; [| done].
        apply Hmin in Hp. lia.
      * intros q Hq. apply elem_of_app in Hq as [Hq | Hq].
        -- apply Hmin in Hq. lia.
        -- apply list_elem_of_singleton in Hq as ->. lia.
      * right. exists x. split; [| done].
        apply elem_of_app. right. by apply list_elem_of_singleton.
      * lia.
Qed.

(** [upper] is the set of points at the level [M], the largest of the
    heights of the ramp and of the initial value [-10000]. *)
Lemma upper_level (r : Ramp.t) :
  exists M,
    -10000 <= M /\
    (forall p, p ∈ upper set_iter r <-> p ∈ _points r /\ height_at r p = M) /\
    (forall q, q ∈ _points r -> height_at r q <= M) /\
    (M = -10000 \/ exists p, p ∈ _points r /\ height_at r p = M).
Proof.
  destruct (upper_scan r (set_iter (_points r)) (-10000) ∅ [])
    as (M & Hbound & Hres & Hmax & Hatt).
  - intros p. split; [set_solver | intros [Hp _]; by apply elem_of_nil in Hp].
  - intros q Hq. by apply elem_of_nil in Hq.
  - by left.
  - done.
  - simpl in *. exists M. split; [done |].
    assert (forall p, p ∈ set_iter (_points r) <-> p ∈ _points r) as Hel
      by (intros p; rewrite (set_iter_perm (_points r)); apply elem_of_elements).
    split; [| split].
    + intros p. unfold upper. rewrite Hres, Hel. done.
    + intros q Hq. by apply Hmax, Hel.
    + destruct Hatt as [? | (p & Hp & ?)]; [by left | right].
      exists p. by rewrite <- Hel.
Qed.

Lemma lower_level (r : Ramp.t) :
  exists M,
    M <= 10000 /\
    (forall p, p ∈ lower set_iter r <-> p ∈ _points r /\ height_at r p = M) /\
    (forall q, q ∈ _points r -> M <= height_at r q) /\
    (M = 10000 \/ exists p, p ∈ _points r /\ height_at r p = M).
Proof.
  destruct (lower_scan r (set_iter (_points r)) 10000 ∅ [])
    as (M & Hbound & Hres & Hmin & Hatt).
  - intros p. split; [set_solver | intros [Hp _]; by apply elem_of_nil in Hp].
  - intros q Hq. by apply elem_of_nil in Hq.
  - by left.
  - done.
  - simpl in *. exists M. split; [done |].
    assert (forall p, p ∈ set_iter (_points r) <-> p ∈ _points r) as Hel
      by (intros p; rewrite (set_iter_perm (_points r)); apply elem_of_elements).
    split; [| split].
    + intros p. unfold lower. rewrite Hres, Hel. done.
    + intros q Hq. by apply Hmin, Hel.
    + destruct Hatt as [? | (p & Hp & ?)]; [by left | right].
      exists p. by rewrite <- Hel.
Qed.

End extremal.

(** C6, as stated, fails on [deep_ramp]: its only point is its highest point
    and is not in [upper], which is empty. *)
Lemma extremal_sets_claim_fails_below_sentinel :
  ~ extremal_sets_claim elements deep_ramp.
Proof.
  intros (_ & _ & _ & _ & Hup & _).
  specialize (Hup (0, 0)).
  assert ((0, 0) ∈ upper elements deep_ramp) as Hin.
  { apply Hup; [unfold deep_ramp; cbn [_points]; set_solver |]. intros q _. done. }
  assert (upper elements deep_ramp = ∅) as Hempty by (by vm_compute).
  rewrite Hempty in Hin. by apply not_elem_of_empty in Hin.
Qed.

(** C6, amended: [upper] and [lower] are subsets of the ramp points; every
    point of [upper] is at least as high, and every point of [lower] at
    least as low, as every point of the ramp; [upper] contains every highest
    point when that height is at least -10000 and [lower] every lowest point
    when that height is at most 10000; and both sets are the same for every
    order in which the points are traversed. *)
Theorem upper_lower_extremal (set_iter : gset Point2 -> list Point2) (r : Ramp.t) :
  (forall s, set_iter s ≡ₚ elements s) ->
  upper set_iter r ⊆ _points r /\
  lower set_iter r ⊆ _points r /\
  (forall p q, p ∈ upper set_iter r -> q ∈ _points r ->
     height_at r q <= height_at r p) /\
  (forall p q, p ∈ lower set_iter r -> q ∈ _points r ->
     height_at r p <= height_at r q) /\
  (forall p, p ∈ _points r ->
     (forall q, q ∈ _points r -> height_at r q <= height_at r p) ->
     -10000 <= height_at r p -> p ∈ upper set_iter r) /\
  (forall p, p ∈ _points r ->
     (forall q, q ∈ _points r -> height_at r p <= height_at r q) ->
     height_at r p <= 10000 -> p ∈ lower set_iter r) /\
  (forall set_iter', (forall s, set_iter' s ≡ₚ elements s) ->
     upper set_iter' r = upper set_iter r /\
     lower set_iter' r = lower set_iter r).
Proof.
  intros Hperm.
  destruct (upper_level set_iter Hperm r) as (M & HUb & HU & HUmax & HUatt).
  destruct (lower_level set_iter Hperm r) as (m & HLb & HL & HLmin & HLatt).
  split; [intros p Hp; by apply HU in Hp as [? _] |].
  split; [intros p Hp; by apply HL in Hp as [? _] |].
  split; [intros p q Hp Hq; apply HU in Hp as [_ ->]; by apply HUmax |].
  split; [intros p q Hp Hq; apply HL in Hp as [_ ->]; by apply HLmin |].
  split; [| split].
  - intros p Hp Hmax Hge. apply HU. split; [done |].
    pose proof (HUmax p Hp).
    destruct HUatt as [-> | (p' & Hp' & <-)]; [lia |].
    pose proof (Hmax p' Hp'). lia.
  - intros p Hp Hmin Hle. apply HL. split; [done |].
    pose proof (HLmin p Hp).
    destruct HLatt as [-> | (p' & Hp' & <-)]; [lia |].
    pose proof (Hmin p' Hp'). lia.
  - intros set_iter' Hperm'.
    destruct (upper_level set_iter' Hperm' r) as (M' & HUb' & HU' & HUmax' & HUatt').
    destruct (lower_level set_iter' Hperm' r) as (m' & HLb' & HL' & HLmin' & HLatt').
    assert (M' = M) as ->.
    { destruct HUatt as [-> | (p & Hp & <-)];
        destruct HUatt' as [-> | (p' & Hp' & <-)]; try done.
      - pose proof (HUmax p' Hp'). pose proof (HUmax' p' Hp'). lia.
      - pose proof (HUmax p Hp). pose proof (HUmax' p Hp). lia.
      - pose proof (HUmax p' Hp'). pose proof (HUmax' p Hp). lia. }
    assert (m' = m) as ->.
    { destruct HLatt as [-> | (p & Hp & <-)];
        destruct HLatt' as [-> | (p' & Hp' & <-)]; try done.
      - pose proof (HLmin p' Hp'). pose proof (HLmin' p' Hp'). lia.
      - pose proof (HLmin p Hp). pose proof (HLmin' p Hp). lia.
      - pose proof (HLmin p' Hp'). pose proof (HLmin' p Hp). lia. }
    split; apply set_eq; intros p; [by rewrite HU, HU' | by rewrite HL, HL'].
Qed.

Lemma upper_lower_extremal_witness :
  upper elements small_ramp ⊆ _points small_ramp /\
  lower elements small_ramp ⊆ _points small_ramp /\
  (forall p q, p ∈ upper elements small_ramp -> q ∈ _points small_ramp ->
     height_at small_ramp q <= height_at small_ramp p) /\
  (forall p q, p ∈ lower elements small_ramp -> q ∈ _points small_ramp ->
     height_at small_ramp p <= height_at small_ramp q) /\
  (forall p, p ∈ _points small_ramp ->
     (forall q, q ∈ _points small_ramp ->
        height_at small_ramp q <= height_at small_ramp p) ->
     -10000 <= height_at small_ramp p -> p ∈ upper elements small_ramp) /\
  (forall p, p ∈ _points small_ramp ->
     (forall q, q ∈ _points small_ramp ->
        height_at small_ramp p <= height_at small_ramp q) ->
     height_at small_ramp p <= 10000 -> p ∈ lower elements small_ramp) /\
  (forall set_iter', (forall s, set_iter' s ≡ₚ elements s) ->
     upper set_iter' small_ramp = upper elements small_ramp /\
     lower set_iter' small_ramp = lower elements small_ramp).
Proof.
  apply (upper_lower_extremal elements small_ramp).
  intros s. reflexivity.
Defined.

(** *** [bottom_center] and [upper2_for_ramp_wall] *)

Section wall_points.

Context {F : Type} `{FloatOps F} `{Point2Ops F}.

Variable set_iter : gset Point2 -> list Point2.
Hypothesis set_iter_perm : forall s, set_iter s ≡ₚ elements s.

Lemma center_of_empty : center_of (F := F) set_iter ∅ = Raise ZeroDivisionError.
Proof. unfold center_of. by rewrite size_empty, decide_True. Qed.

Lemma center_of_nonempty (s : gset Point2) :
  s <> ∅ -> exists c : F * F, center_of set_iter s = Ok c.
Proof.
  intros Hs. unfold center_of. rewrite decide_False; [eauto |].
  intros Hz. by apply size_empty_iff, leibniz_equiv in Hz.
Qed.

Lemma center_of_ok_inv (s : gset Point2) (c : F * F) :
  center_of set_iter s = Ok c -> s <> ∅.
Proof. intros Hc ->. by rewrite center_of_empty in Hc. Qed.

Lemma length_set_iter (s : gset Point2) : length (set_iter s) = size s.
Proof. by rewrite (set_iter_perm s). Qed.

Lemma NoDup_set_iter (s : gset Point2) : NoDup (set_iter s).
Proof. rewrite (set_iter_perm s). apply NoDup_elements. Qed.

Lemma list_to_set_set_iter (s : gset Point2) : list_to_set (set_iter s) = s.
Proof.
  apply set_eq. intros p.
  rewrite elem_of_list_to_set, (set_iter_perm s). apply elem_of_elements.
Qed.

Lemma set_iter_nil (s : gset Point2) : set_iter s = [] <-> s = ∅.
Proof.
  split.
  - intros Hnil. apply leibniz_equiv, size_empty_iff.
    rewrite <- length_set_iter, Hnil. done.
  - intros ->. apply length_zero_iff_nil. by rewrite length_set_iter, size_empty.
Qed.

Lemma upper2_large (r : Ramp.t) :
  (5 < size (upper set_iter r))%nat ->
  upper2_for_ramp_wall (F := F) set_iter r = Ok ∅.
Proof. intros Hlarge. unfold upper2_for_ramp_wall. by rewrite decide_True. Qed.

Lemma upper2_small (r : Ramp.t) (bc : F * F) :
  (size (upper set_iter r) <= 5)%nat -> bottom_center set_iter r = Ok bc ->
  upper2_for_ramp_wall set_iter r =
    Ok (list_to_set (take 2 (ByKeySpec.sorted_desc_by (wall_key bc)
                               (set_iter (upper set_iter r))))).
Proof.
  intros Hsmall Hbc. unfold upper2_for_ramp_wall. rewrite decide_False by lia.
  rewrite (ByKeyProofs.py_sorted_reverse_ok _ (wall_key bc)).
  - simpl. by rewrite ByKeyProofs.pop_down_to_2_take by lia.
  - intros x _. by rewrite Hbc.
Qed.

Lemma upper2_no_upper (r : Ramp.t) :
  upper set_iter r = ∅ -> upper2_for_ramp_wall (F := F) set_iter r = Ok ∅.
Proof.
  intros Hemp. unfold upper2_for_ramp_wall. rewrite Hemp, size_empty.
  rewrite decide_False by lia.
  by rewrite (proj2 (set_iter_nil ∅)).
Qed.

Lemma upper2_raise (r : Ramp.t) (e : exn) :
  upper set_iter r <> ∅ -> (size (upper set_iter r) <= 5)%nat ->
  bottom_center (F := F) set_iter r = Raise e ->
  upper2_for_ramp_wall (F := F) set_iter r = Raise e.
Proof.
  intros Hne Hsmall Hbc. unfold upper2_for_ramp_wall. rewrite decide_False by lia.
  destruct (set_iter (upper set_iter r)) as [| x l] eqn:Hl.
  - by apply set_iter_nil in Hl.
  - rewrite (ByKeyProofs.py_sorted_reverse_raise _ e); [done |]. by rewrite Hbc.
Qed.

(** When the two wall points exist, the ramp has lower points. *)
Lemma upper2_nonempty_lower (r : Ramp.t) (u : gset Point2) :
  upper2_for_ramp_wall (F := F) set_iter r = Ok u -> u <> ∅ ->
  lower set_iter r <> ∅.
Proof.
  intros Hu Hne.
  destruct (decide (5 < size (upper set_iter r))%nat) as [Hlarge | Hsmall].
  { rewrite upper2_large in Hu by done. by injection Hu as <-. }
  destruct (decide (upper set_iter r = ∅)) as [Hemp | Hup].
  { rewrite upper2_no_upper in Hu by done. by injection Hu as <-. }
  destruct (bottom_center (F := F) set_iter r) as [bc | e] eqn:Hbc.
  - by apply center_of_ok_inv in Hbc.
  - rewrite (upper2_raise r e) in Hu by (done || lia). done.
Qed.

Lemma size_take_2_sorted (r : Ramp.t) (k : Point2 -> F) :
  size (list_to_set (C := gset Point2)
          (take 2 (ByKeySpec.sorted_desc_by k (set_iter (upper set_iter r)))))
  = (size (upper set_iter r) `min` 2)%nat.
Proof.
  rewrite size_list_to_set.
  - rewrite length_take, (ByKeyProofs.sorted_desc_by_perm k), length_set_iter. lia.
  - eapply sublist_NoDup; [| apply sublist_take].
    rewrite (ByKeyProofs.sorted_desc_by_perm k). apply NoDup_set_iter.
Qed.

End wall_points.

(** *** The wall placement operations *)

Lemma two_points (set_pick : gset Point2 -> Point2) (u : gset Point2) :
  (forall s, s <> ∅ -> set_pick s ∈ s) ->
  size u = 2%nat ->
  let a := set_pick u in
  let b := set_pick (u ∖ {[a]}) in
  u <> ∅ /\ u ∖ {[a]} <> ∅ /\ a ∈ u /\ b ∈ u /\ a <> b /\ u = {[a; b]}.
Proof.
  intros set_pick_elem Hsz a b.
  assert (u <> ∅) as Hne by (intros ->; by rewrite size_empty in Hsz).
  assert (a ∈ u) as Ha by (by apply set_pick_elem).
  pose proof (FindGroupsProofs.size_remove u a Ha) as Hsz1.
  assert (u ∖ {[a]} <> ∅) as Hne1
    by (intros Hemp; rewrite Hemp, size_empty in Hsz1; lia).
  assert (b ∈ u ∖ {[a]}) as Hb by (by apply set_pick_elem).
  pose proof (FindGroupsProofs.size_remove _ b Hb) as Hsz2.
  assert (u ∖ {[a]} ∖ {[b]} = ∅) as Hrest
    by (apply leibniz_equiv, size_empty_iff; lia).
  split; [done |]. split; [done |]. split; [done |].
  split; [set_solver |]. split; [set_solver |].
  apply set_eq. intros p. split; [| set_solver].
  intros Hp. destruct (decide (p = a)) as [-> | Hpa]; [set_solver |].
  destruct (decide (p = b)) as [-> | Hpb]; [set_solver |].
  assert (p ∈ u ∖ {[a]} ∖ {[b]}) as Hin by set_solver.
  rewrite Hrest in Hin. by apply not_elem_of_empty in Hin.
Qed.

Section wall_placement.

Context {F : Type} `{FloatOps F} `{Point2Ops F}.

Variable set_iter : gset Point2 -> list Point2.
Variable set_pick : gset Point2 -> Point2.
Hypothesis set_iter_perm : forall s, set_iter s ≡ₚ elements s.
Hypothesis set_pick_elem : forall s, s <> ∅ -> set_pick s ∈ s.

Lemma in_middle_run (radius : F) (r : Ramp.t) (u : gset Point2) :
  upper2_for_ramp_wall set_iter r = Ok u -> size u = 2%nat ->
  in_middle set_iter set_pick radius r =
    (intersects ← intersect (shifted (set_pick u))
                    (shifted (set_pick (u ∖ {[set_pick u]}))) radius;
     anyLowerPoint ← py_next_iter set_iter (lower set_iter r);
     py_max (fun p => _distance_squared p (as_float anyLowerPoint)) intersects).
Proof using set_pick_elem.
  intros Hu Hsz. destruct (two_points set_pick u set_pick_elem Hsz) as (Hne & Hne1 & _).
  unfold in_middle. rewrite Hu. simpl. rewrite decide_True by done.
  unfold set_pop. rewrite decide_False by done. simpl.
  by rewrite decide_False by done.
Qed.

Lemma in_middle_degenerate (radius : F) (r : Ramp.t) (u : gset Point2) :
  upper2_for_ramp_wall set_iter r = Ok u -> size u <> 2%nat ->
  in_middle set_iter set_pick radius r = Raise DegenerateRamp.
Proof using Type.
  intros Hu Hsz. unfold in_middle. rewrite Hu. simpl. by rewrite decide_False.
Qed.

Lemma in_middle_not_degenerate (radius : F) (r : Ramp.t) (u : gset Point2) :
  upper2_for_ramp_wall set_iter r = Ok u -> size u = 2%nat ->
  in_middle set_iter set_pick radius r <> Raise DegenerateRamp.
Proof using set_pick_elem.
  intros Hu Hsz. rewrite (in_middle_run radius r u Hu Hsz).
  unfold intersect, py_next_iter.
  destruct (circle_intersection _ _ _) as [ints |]; simpl; [| done].
  destruct (set_iter (lower set_iter r)) as [| L ?]; simpl; [done |].
  apply ByKeyProofs.py_max_not_degenerate.
Qed.

Lemma corner_depots_run (r : Ramp.t) (u : gset Point2) :
  upper2_for_ramp_wall set_iter r = Ok u -> size u = 2%nat ->
  corner_depots set_iter set_pick r =
    (let p1 := shifted (set_pick u) in
     let p2 := shifted (set_pick (u ∖ {[set_pick u]})) in
     let center := towards p1 p2 (fdiv (distance_to p1 p2) (of_Z 2)) in
     depotPosition ← depot_in_middle set_iter set_pick r;
     intersect center depotPosition (fsqrt (of_Z 5))).
Proof using set_pick_elem.
  intros Hu Hsz. destruct (two_points set_pick u set_pick_elem Hsz) as (Hne & Hne1 & _).
  unfold corner_depots. rewrite Hu. simpl. rewrite decide_True by done.
  unfold set_pop. rewrite decide_False by done. simpl.
  by rewrite decide_False by done.
Qed.

Lemma corner_depots_not_degenerate (r : Ramp.t) (u : gset Point2) :
  upper2_for_ramp_wall set_iter r = Ok u -> size u = 2%nat ->
  corner_depots set_iter set_pick r <> Raise DegenerateRamp.
Proof using set_pick_elem.
  intros Hu Hsz. rewrite (corner_depots_run r u Hu Hsz). simpl.
  pose proof (in_middle_not_degenerate (fsqrt (of_Q 2.5)) r u Hu Hsz) as Hd.
  unfold depot_in_middle.
  destruct (in_middle _ _ _ r) as [d | e]; simpl; [| congruence].
  unfold intersect. by destruct (circle_intersection _ _ _).
Qed.

Lemma can_fit_run (r : Ramp.t) (u : gset Point2) :
  upper2_for_ramp_wall set_iter r = Ok u -> size u = 2%nat ->
  barracks_can_fit_addon set_iter set_pick r =
    (barracks ← barracks_in_middle set_iter set_pick r;
     depots ← corner_depots set_iter set_pick r;
     depot ← py_max (fun depot => fst depot) depots;
     Ok (fgtb (fadd (fst barracks) (of_Z 1)) (fst depot))).
Proof using Type.
  intros Hu Hsz. unfold barracks_can_fit_addon. rewrite Hu. simpl.
  by rewrite decide_True by done.
Qed.

Lemma can_fit_not_degenerate (r : Ramp.t) (u : gset Point2) :
  upper2_for_ramp_wall set_iter r = Ok u -> size u = 2%nat ->
  barracks_can_fit_addon set_iter set_pick r <> Raise DegenerateRamp.
Proof using set_pick_elem.
  intros Hu Hsz. rewrite (can_fit_run r u Hu Hsz).
  pose proof (in_middle_not_degenerate (fsqrt (of_Z 5)) r u Hu Hsz) as Hb.
  pose proof (corner_depots_not_degenerate r u Hu Hsz) as Hc.
  unfold barracks_in_middle.
  destruct (in_middle _ _ _ r) as [b | e]; simpl; [| congruence].
  destruct (corner_depots _ _ r) as [ds | e]; simpl; [| congruence].
  pose proof (ByKeyProofs.py_max_not_degenerate (fun depot : F * F => fst depot) ds)
    as Hm.
  destruct (py_max _ ds) as [d | e]; simpl; [done | congruence].
Qed.

Lemma correct_placement_run (r : Ramp.t) (u : gset Point2) :
  upper2_for_ramp_wall set_iter r = Ok u -> size u = 2%nat ->
  barracks_correct_placement set_iter set_pick r =
    (fits ← barracks_can_fit_addon set_iter set_pick r;
     if (fits : bool) then barracks_in_middle set_iter set_pick r
     else barracks ← barracks_in_middle set_iter set_pick r;
          Ok (offset barracks (of_Z (-2), of_Z 0))).
Proof using Type.
  intros Hu Hsz. unfold barracks_correct_placement. rewrite Hu. simpl.
  by rewrite decide_True by done.
Qed.

Lemma correct_placement_not_degenerate (r : Ramp.t) (u : gset Point2) :
  upper2_for_ramp_wall set_iter r = Ok u -> size u = 2%nat ->
  barracks_correct_placement set_iter set_pick r <> Raise DegenerateRamp.
Proof using set_pick_elem.
  intros Hu Hsz. rewrite (correct_placement_run r u Hu Hsz).
  pose proof (can_fit_not_degenerate r u Hu Hsz) as Hf.
  pose proof (in_middle_not_degenerate (fsqrt (of_Z 5)) r u Hu Hsz) as Hb.
  unfold barracks_in_middle in *.
  destruct (barracks_can_fit_addon _ _ r) as [[|] | e]; simpl; [| | congruence].
  - done.
  - by destruct (in_middle _ _ _ r).
Qed.

Lemma degenerate_when_not_two (r : Ramp.t) (u : gset Point2) :
  upper2_for_ramp_wall set_iter r = Ok u -> size u <> 2%nat ->
  barracks_in_middle set_iter set_pick r = Raise DegenerateRamp /\
  depot_in_middle set_iter set_pick r = Raise DegenerateRamp /\
  corner_depots set_iter set_pick r = Raise DegenerateRamp /\
  barracks_can_fit_addon set_iter set_pick r = Raise DegenerateRamp /\
  barracks_correct_placement set_iter set_pick r = Raise DegenerateRamp.
Proof using Type.
  intros Hu Hsz.
  split; [by apply (in_middle_degenerate _ r u) |].
  split; [by apply (in_middle_degenerate _ r u) |].
  split; [unfold corner_depots; rewrite Hu; simpl; by rewrite decide_False |].
  split; [unfold barracks_can_fit_addon; rewrite Hu; simpl; by rewrite decide_False |].
  unfold barracks_correct_placement. rewrite Hu. simpl. by rewrite decide_False.
Qed.

(** Every operation raises the error of a ramp with a wrong amount of upper
    points exactly when the wall points are not two. *)
Lemma degenerate_iff (r : Ramp.t) (u : gset Point2) :
  upper2_for_ramp_wall set_iter r = Ok u ->
  (barracks_in_middle set_iter set_pick r = Raise DegenerateRamp <-> size u <> 2%nat) /\
  (depot_in_middle set_iter set_pick r = Raise DegenerateRamp <-> size u <> 2%nat) /\
  (corner_depots set_iter set_pick r = Raise DegenerateRamp <-> size u <> 2%nat) /\
  (barracks_can_fit_addon set_iter set_pick r = Raise DegenerateRamp
     <-> size u <> 2%nat) /\
  (barracks_correct_placement set_iter set_pick r = Raise DegenerateRamp
     <-> size u <> 2%nat).
Proof using set_pick_elem.
  intros Hu. destruct (decide (size u = 2%nat)) as [Hsz | Hsz].
  - pose proof (in_middle_not_degenerate (fsqrt (of_Z 5)) r u Hu Hsz).
    pose proof (in_middle_not_degenerate (fsqrt (of_Q 2.5)) r u Hu Hsz).
    pose proof (corner_depots_not_degenerate r u Hu Hsz).
    pose proof (can_fit_not_degenerate r u Hu Hsz).
    pose proof (correct_placement_not_degenerate r u Hu Hsz).
    unfold barracks_in_middle, depot_in_middle. tauto.
  - destruct (degenerate_when_not_two r u Hu Hsz) as (? & ? & ? & ? & ?). tauto.
Qed.

End wall_placement.

(** *** The rational instance is ordered *)

Lemma Qltb_false (a b : Q) : QFloat.Qltb a b = false <-> (b <= a)%Q.
Proof.
  unfold QFloat.Qltb. rewrite negb_false_iff. apply Qle_bool_iff.
Qed.

Lemma Qltb_true (a b : Q) : QFloat.Qltb a b = true <-> (a < b)%Q.
Proof.
  unfold QFloat.Qltb. rewrite negb_true_iff, <- not_true_iff_false, Qle_bool_iff.
  split; [apply Qnot_le_lt | apply Qlt_not_le].
Qed.

Lemma Q_float_order : FloatOrder Q.
Proof.
  split; simpl.
  - intros a b Hab. apply Qltb_true in Hab. apply Qltb_false. by apply Qlt_le_weak.
  - intros a b c Hab Hbc. apply Qltb_false in Hab, Hbc. apply Qltb_false.
    by apply (Qle_trans _ b).
Qed.

(** *** The statements about the wall points *)

(** C2, as stated, fails on [high_ramp]: [upper] is its single point, but
    [lower] is empty, so [bottom_center], which the sort key calls, divides
    by zero, and [upper2_for_ramp_wall] raises that error instead of
    returning the first two points of a sorted list. *)
Lemma two_farthest_claim_fails_without_lower :
  ~ two_farthest_claim (F := Q) elements high_ramp.
Proof.
  intros [_ Hsmall]. destruct Hsmall as (u & Hu & _).
  - vm_compute. lia.
  - vm_compute in Hu. discriminate.
Qed.

(** C2, amended: [upper2_for_ramp_wall] returns the empty set when [upper]
    has more than 5 points; otherwise, when [lower] is not empty,
    [bottom_center] has a value [bc] and [upper2_for_ramp_wall] returns the
    set of the first two points of [upper] sorted (stably) in descending
    order of their squared distance to [bc]: the sorted list is a
    rearrangement of [upper], and no point after its first two is farther
    from [bc] than one of the first two. *)
Theorem upper2_for_ramp_wall_two_farthest
    {F : Type} `{FloatOps F} `{Point2Ops F} `{!FloatOrder F}
    (set_iter : gset Point2 -> list Point2) (r : Ramp.t) :
  (forall s, set_iter s ≡ₚ elements s) ->
  ((5 < size (upper set_iter r))%nat ->
     upper2_for_ramp_wall (F := F) set_iter r = Ok ∅) /\
  ((size (upper set_iter r) <= 5)%nat -> lower set_iter r <> ∅ ->
   exists bc : F * F,
     bottom_center set_iter r = Ok bc /\
     let sorted :=
       ByKeySpec.sorted_desc_by (wall_key bc) (set_iter (upper set_iter r)) in
     upper2_for_ramp_wall set_iter r = Ok (list_to_set (take 2 sorted)) /\
     sorted ≡ₚ set_iter (upper set_iter r) /\
     forall p q, p ∈ take 2 sorted -> q ∈ drop 2 sorted ->
       fltb (wall_key bc p) (wall_key bc q) = false).
Proof.
  intros Hperm. split.
  - apply upper2_large.
  - intros Hsmall Hlower.
    destruct (center_of_nonempty (F := F) set_iter (lower set_iter r) Hlower)
      as [bc Hbc].
    exists bc. split; [done |]. intros sorted.
    split; [by apply upper2_small |].
    split; [apply ByKeyProofs.sorted_desc_by_perm |].
    intros p q. apply ByKeyProofs.sorted_desc_by_take_drop.
Qed.

Lemma upper2_for_ramp_wall_two_farthest_witness :
  exists bc : Q * Q,
    bottom_center elements small_ramp = Ok bc /\
    let sorted :=
      ByKeySpec.sorted_desc_by (wall_key bc) (elements (upper elements small_ramp)) in
    upper2_for_ramp_wall elements small_ramp = Ok (list_to_set (take 2 sorted)) /\
    sorted ≡ₚ elements (upper elements small_ramp) /\
    forall p q, p ∈ take 2 sorted -> q ∈ drop 2 sorted ->
      fltb (wall_key bc p) (wall_key bc q) = false.
Proof.
  refine (proj2 (upper2_for_ramp_wall_two_farthest (F := Q)
                   (FloatOrder0 := Q_float_order)
                   elements small_ramp FindGroupsProofs.elements_perm_refl) _ _).
  - vm_compute. lia.
  - by vm_compute.
Defined.

(** An error of [upper2_for_ramp_wall] is the outcome of each of the wall
    placement operations, which all start by calling it. *)
Lemma wall_placement_propagates {F : Type} `{FloatOps F} `{Point2Ops F}
    (set_iter : gset Point2 -> list Point2) (set_pick : gset Point2 -> Point2)
    (r : Ramp.t) (e : exn) :
  upper2_for_ramp_wall (F := F) set_iter r = Raise e ->
  barracks_in_middle set_iter set_pick r = Raise e /\
  depot_in_middle set_iter set_pick r = Raise e /\
  corner_depots set_iter set_pick r = Raise e /\
  barracks_can_fit_addon set_iter set_pick r = Raise e /\
  barracks_correct_placement set_iter set_pick r = Raise e.
Proof.
  intros Hu.
  unfold barracks_in_middle, depot_in_middle, in_middle, corner_depots,
    barracks_can_fit_addon, barracks_correct_placement.
  by rewrite Hu.
Qed.

(** C3, as stated, fails on [high_ramp]: [upper] is its single point and
    [lower] is empty, so [upper2_for_ramp_wall] raises the
    [ZeroDivisionError] of [bottom_center]; there are no two wall points,
    yet [barracks_in_middle] raises that [ZeroDivisionError] and not the
    error of a ramp with a wrong amount of upper points. *)
Lemma degenerate_claim_fails_without_lower :
  ~ degenerate_claim (F := Q) elements FindGroupsSpec.first_elem high_ramp.
Proof.
  intros [[_ Hraise] _].
  assert (barracks_in_middle (F := Q) elements FindGroupsSpec.first_elem high_ramp
            = Raise DegenerateRamp) as Hb.
  { apply Hraise. intros (u & Hu & _). vm_compute in Hu. discriminate. }
  vm_compute in Hb. discriminate.
Qed.

(** C3, amended: on a ramp where [upper2_for_ramp_wall] returns a set (as
    it does whenever [lower] is not empty), each of the five wall placement
    operations raises the error of a ramp with a wrong amount of upper
    points if and only if that set does not have exactly two points (so
    with exactly two points none of them raises it). *)
Theorem wall_placement_degenerate_iff
    {F : Type} `{FloatOps F} `{Point2Ops F}
    (set_iter : gset Point2 -> list Point2) (set_pick : gset Point2 -> Point2)
    (r : Ramp.t) :
  (forall s, set_iter s ≡ₚ elements s) ->
  (forall s, s <> ∅ -> set_pick s ∈ s) ->
  (lower set_iter r <> ∅ ->
     exists u, upper2_for_ramp_wall (F := F) set_iter r = Ok u) /\
  (forall u, upper2_for_ramp_wall (F := F) set_iter r = Ok u ->
     (barracks_in_middle set_iter set_pick r = Raise DegenerateRamp
        <-> size u <> 2%nat) /\
     (depot_in_middle set_iter set_pick r = Raise DegenerateRamp
        <-> size u <> 2%nat) /\
     (corner_depots set_iter set_pick r = Raise DegenerateRamp
        <-> size u <> 2%nat) /\
     (barracks_can_fit_addon set_iter set_pick r = Raise DegenerateRamp
        <-> size u <> 2%nat) /\
     (barracks_correct_placement set_iter set_pick r = Raise DegenerateRamp
        <-> size u <> 2%nat)).
Proof.
  intros Hperm Hpick. split.
  - intros Hlower.
    destruct (decide (5 < size (upper set_iter r))%nat) as [Hlarge | Hsmall].
    + exists ∅. by apply upper2_large.
    + destruct (center_of_nonempty (F := F) set_iter (lower set_iter r) Hlower)
        as [bc Hbc].
      eexists. apply (upper2_small set_iter r bc); [lia | done].
  - intros u Hu. by apply degenerate_iff.
Qed.

Lemma wall_placement_degenerate_iff_witness :
  exists u,
    upper2_for_ramp_wall (F := Q) elements small_ramp = Ok u /\
    (barracks_in_middle elements FindGroupsSpec.first_elem small_ramp
       = Raise DegenerateRamp <-> size u <> 2%nat) /\
    (depot_in_middle elements FindGroupsSpec.first_elem small_ramp
       = Raise DegenerateRamp <-> size u <> 2%nat) /\
    (corner_depots elements FindGroupsSpec.first_elem small_ramp
       = Raise DegenerateRamp <-> size u <> 2%nat) /\
    (barracks_can_fit_addon elements FindGroupsSpec.first_elem small_ramp
       = Raise DegenerateRamp <-> size u <> 2%nat) /\
    (barracks_correct_placement elements FindGroupsSpec.first_elem small_ramp
       = Raise DegenerateRamp <-> size u <> 2%nat).
Proof.
  destruct (wall_placement_degenerate_iff (F := Q) elements
              FindGroupsSpec.first_elem small_ramp
              FindGroupsProofs.elements_perm_refl FindGroupsProofs.first_elem_in)
    as [Hreturns Hiff].
  destruct Hreturns as [u Hu]; [by vm_compute |].
  exists u. split; [done |]. by apply Hiff.
Defined.

Lemma in_middle_farthest {F : Type} `{FloatOps F} `{Point2Ops F} `{!FloatOrder F}
    (set_iter : gset Point2 -> list Point2) (set_pick : gset Point2 -> Point2)
    (radius : F) (r : Ramp.t) (u : gset Point2) (L : Point2) (ints : list (F * F)) :
  (forall s, s <> ∅ -> set_pick s ∈ s) ->
  upper2_for_ramp_wall (F := F) set_iter r = Ok u -> size u = 2%nat ->
  py_next_iter set_iter (lower set_iter r) = Ok L ->
  circle_intersection (shifted (set_pick u))
    (shifted (set_pick (u ∖ {[set_pick u]}))) radius = Some ints ->
  ints <> [] ->
  exists m, in_middle set_iter set_pick radius r = Ok m /\
            farthest_from (as_float L) ints m.
Proof.
  intros Hpick Hu Hsz HL Hints Hne.
  rewrite (in_middle_run set_iter set_pick Hpick radius r u Hu Hsz).
  unfold intersect. rewrite Hints. simpl. rewrite HL. simpl.
  destruct (ByKeyProofs.py_max_nonempty
              (fun p => _distance_squared p (as_float L)) ints Hne) as [m Hm].
  exists m. split; [done |]. by apply ByKeyProofs.py_max_spec in Hm.
Qed.

(** C4: for a ramp whose [upper2_for_ramp_wall] has exactly the two points
    [a] and [b], with [p1] and [p2] these points shifted by (+0.5, -0.5) and
    [L] the point of [lower] that [next(iter(lower))] yields:
    [barracks_in_middle] is, among the intersection points of the circles
    of radius sqrt 5 around [p1] and [p2], one that is farthest (by squared
    distance) from [L], and [depot_in_middle] is the same with radius
    sqrt 2.5. *)
Theorem in_middle_farther_intersection
    {F : Type} `{FloatOps F} `{Point2Ops F} `{!FloatOrder F}
    (set_iter : gset Point2 -> list Point2) (set_pick : gset Point2 -> Point2)
    (r : Ramp.t) (u : gset Point2) :
  (forall s, set_iter s ≡ₚ elements s) ->
  (forall s, s <> ∅ -> set_pick s ∈ s) ->
  upper2_for_ramp_wall (F := F) set_iter r = Ok u -> size u = 2%nat ->
  let a := set_pick u in
  let b := set_pick (u ∖ {[a]}) in
  let p1 := offset (as_float a) (of_Q 0.5, of_Q (-0.5)) in
  let p2 := offset (as_float b) (of_Q 0.5, of_Q (-0.5)) in
  u = {[a; b]} /\ a <> b /\
  exists L, py_next_iter set_iter (lower set_iter r) = Ok L /\
    L ∈ lower set_iter r /\
    (forall ints, circle_intersection p1 p2 (fsqrt (of_Z 5)) = Some ints ->
       ints <> [] ->
       exists m, barracks_in_middle set_iter set_pick r = Ok m /\
                 farthest_from (as_float L) ints m) /\
    (forall ints, circle_intersection p1 p2 (fsqrt (of_Q 2.5)) = Some ints ->
       ints <> [] ->
       exists m, depot_in_middle set_iter set_pick r = Ok m /\
                 farthest_from (as_float L) ints m).
Proof.
  intros Hperm Hpick Hu Hsz a b p1 p2.
  destruct (two_points set_pick u Hpick Hsz) as (Hne & _ & _ & _ & Hab & Huab).
  split; [done |]. split; [done |].
  pose proof (upper2_nonempty_lower set_iter Hperm r u Hu Hne) as Hlow.
  unfold py_next_iter.
  destruct (set_iter (lower set_iter r)) as [| L rest] eqn:Hiter.
  { by apply (set_iter_nil set_iter Hperm) in Hiter. }
  exists L. split; [done |]. split.
  { rewrite <- (list_to_set_set_iter set_iter Hperm (lower set_iter r)), Hiter.
    set_solver. }
  assert (py_next_iter set_iter (lower set_iter r) = Ok L) as HL
    by (unfold py_next_iter; by rewrite Hiter).
  split; intros ints Hints Hnonempty.
  - by apply (in_middle_farthest set_iter set_pick _ r u L ints).
  - by apply (in_middle_farthest set_iter set_pick _ r u L ints).
Qed.

Lemma in_middle_farther_intersection_witness :
  let u : gset Point2 := {[ (0, 2); (1, 2) ]} in
  let a := FindGroupsSpec.first_elem u in
  let b := FindGroupsSpec.first_elem (u ∖ {[a]}) in
  let p1 := offset (F := Q) (as_float a) (of_Q 0.5, of_Q (-0.5)) in
  let p2 := offset (F := Q) (as_float b) (of_Q 0.5, of_Q (-0.5)) in
  u = {[a; b]} /\ a <> b /\
  exists L, py_next_iter elements (lower elements small_ramp) = Ok L /\
    L ∈ lower elements small_ramp /\
    (forall ints, circle_intersection p1 p2 (fsqrt (of_Z 5)) = Some ints ->
       ints <> [] ->
       exists m,
         barracks_in_middle elements FindGroupsSpec.first_elem small_ramp = Ok m /\
         farthest_from (as_float L) ints m) /\
    (forall ints, circle_intersection p1 p2 (fsqrt (of_Q 2.5)) = Some ints ->
       ints <> [] ->
       exists m,
         depot_in_middle elements FindGroupsSpec.first_elem small_ramp = Ok m /\
         farthest_from (as_float L) ints m).
Proof.
  apply (in_middle_farther_intersection (F := Q) (FloatOrder0 := Q_float_order)
           elements FindGroupsSpec.first_elem small_ramp {[ (0, 2); (1, 2) ]}
           FindGroupsProofs.elements_perm_refl FindGroupsProofs.first_elem_in).
  - vm_compute. reflexivity.
  - vm_compute. reflexivity.
Defined.

(** C7: for a ramp whose [upper2_for_ramp_wall] has exactly two points, with
    [b] the value of [barracks_in_middle] and [depots] the value of
    [corner_depots]: [barracks_can_fit_addon] is the truth value of
    [b.x + 1 > d.x] where [d] is a corner depot of maximal x coordinate, and
    [barracks_correct_placement] is [b] when that holds and [b] shifted by
    (-2, 0) otherwise. *)
Theorem barracks_addon_placement
    {F : Type} `{FloatOps F} `{Point2Ops F} `{!FloatOrder F}
    (set_iter : gset Point2 -> list Point2) (set_pick : gset Point2 -> Point2)
    (r : Ramp.t) (u : gset Point2) (b : F * F) (depots : list (F * F)) :
  (forall s, s <> ∅ -> set_pick s ∈ s) ->
  upper2_for_ramp_wall (F := F) set_iter r = Ok u -> size u = 2%nat ->
  barracks_in_middle set_iter set_pick r = Ok b ->
  corner_depots set_iter set_pick r = Ok depots -> depots <> [] ->
  exists d,
    d ∈ depots /\
    (forall d', d' ∈ depots -> fltb (fst d) (fst d') = false) /\
    barracks_can_fit_addon set_iter set_pick r =
      Ok (fgtb (fadd (fst b) (of_Z 1)) (fst d)) /\
    barracks_correct_placement set_iter set_pick r =
      Ok (if fgtb (fadd (fst b) (of_Z 1)) (fst d) then b
          else offset b (of_Z (-2), of_Z 0)).
Proof.
  intros Hpick Hu Hsz Hb Hdepots Hne.
  destruct (ByKeyProofs.py_max_nonempty (fun depot : F * F => fst depot) depots Hne)
    as [d Hd].
  pose proof (ByKeyProofs.py_max_spec _ _ _ Hd) as [Hin Hmax].
  exists d. split; [done |]. split; [done |].
  assert (barracks_can_fit_addon set_iter set_pick r =
            Ok (fgtb (fadd (fst b) (of_Z 1)) (fst d))) as Hfit.
  { rewrite (can_fit_run set_iter set_pick r u Hu Hsz), Hb. simpl.
    rewrite Hdepots. simpl. by rewrite Hd. }
  split; [done |].
  rewrite (correct_placement_run set_iter set_pick r u Hu Hsz), Hfit. simpl.
  destruct (fgtb _ _); [done |]. by rewrite Hb.
Qed.

Lemma barracks_addon_placement_witness :
  exists d,
    d ∈ [ (1553268721 # 500000000, 4499999999 # 2000000000);
          (-553268721 # 500000000, 4499999999 # 2000000000) ]%Q /\
    (forall d', d' ∈ [ (1553268721 # 500000000, 4499999999 # 2000000000);
                       (-553268721 # 500000000, 4499999999 # 2000000000) ]%Q ->
       fltb (fst d) (fst d') = false) /\
    barracks_can_fit_addon elements FindGroupsSpec.first_elem small_ramp =
      Ok (fgtb (fadd (fst (1, 3.679449471)%Q) (of_Z 1)) (fst d)) /\
    barracks_correct_placement elements FindGroupsSpec.first_elem small_ramp =
      Ok (if fgtb (fadd (fst (1, 3.679449471)%Q) (of_Z 1)) (fst d)
          then (1, 3.679449471)%Q
          else offset (1, 3.679449471)%Q (of_Z (-2), of_Z 0)).
Proof.
  apply (barracks_addon_placement (F := Q) (FloatOrder0 := Q_float_order)
           elements FindGroupsSpec.first_elem small_ramp {[ (0, 2); (1, 2) ]}
           (1, 3.679449471)%Q
           [ (1553268721 # 500000000, 4499999999 # 2000000000);
             (-553268721 # 500000000, 4499999999 # 2000000000) ]%Q
           FindGroupsProofs.first_elem_in).
  - vm_compute. reflexivity.
  - vm_compute. reflexivity.
  - vm_compute. reflexivity.
  - vm_compute. reflexivity.
  - discriminate.
Defined.

(** C10, as stated, fails on [high_ramp]: [upper] is its single point, but
    [lower] is empty, [bottom_center] divides by zero and
    [upper2_for_ramp_wall] raises that error instead of returning a set. *)
Lemma upper2_size_claim_fails_above_sentinel :
  ~ upper2_size_claim (F := Q) elements FindGroupsSpec.first_elem high_ramp.
Proof.
  intros Hclaim. destruct Hclaim as (u & Hu & _).
  - vm_compute. lia.
  - vm_compute in Hu. discriminate.
Qed.

(** C10, amended: for a ramp with 1 to 5 upper points and a non-empty
    [lower], [upper2_for_ramp_wall] returns exactly min(|upper|, 2) points;
    when [upper] is a single point it returns one point and every wall
    placement operation raises the error of a ramp with a wrong amount of
    upper points. *)
Theorem upper2_size_small_upper
    {F : Type} `{FloatOps F} `{Point2Ops F}
    (set_iter : gset Point2 -> list Point2) (set_pick : gset Point2 -> Point2)
    (r : Ramp.t) :
  (forall s, set_iter s ≡ₚ elements s) ->
  (1 <= size (upper set_iter r) <= 5)%nat ->
  lower set_iter r <> ∅ ->
  exists u,
    upper2_for_ramp_wall (F := F) set_iter r = Ok u /\
    size u = (size (upper set_iter r) `min` 2)%nat /\
    (size (upper set_iter r) = 1%nat ->
       size u = 1%nat /\
       barracks_in_middle set_iter set_pick r = Raise DegenerateRamp /\
       depot_in_middle set_iter set_pick r = Raise DegenerateRamp /\
       corner_depots set_iter set_pick r = Raise DegenerateRamp /\
       barracks_can_fit_addon set_iter set_pick r = Raise DegenerateRamp /\
       barracks_correct_placement set_iter set_pick r = Raise DegenerateRamp).
Proof.
  intros Hperm Hsize Hlower.
  destruct (center_of_nonempty (F := F) set_iter (lower set_iter r) Hlower)
    as [bc Hbc].
  eexists. split; [apply (upper2_small set_iter r bc); [lia | done] |].
  split; [by apply size_take_2_sorted |].
  intros Hone. rewrite size_take_2_sorted, Hone by done. split; [done |].
  apply (degenerate_when_not_two set_iter set_pick r _
           (upper2_small set_iter r bc ltac:(lia) Hbc)).
  rewrite size_take_2_sorted, Hone by done. simpl. lia.
Qed.

Lemma upper2_size_small_upper_witness :
  exists u,
    upper2_for_ramp_wall (F := Q) elements pointed_ramp = Ok u /\
    size u = (size (upper elements pointed_ramp) `min` 2)%nat /\
    (size (upper elements pointed_ramp) = 1%nat ->
       size u = 1%nat /\
       barracks_in_middle elements FindGroupsSpec.first_elem pointed_ramp
         = Raise DegenerateRamp /\
       depot_in_middle elements FindGroupsSpec.first_elem pointed_ramp
         = Raise DegenerateRamp /\
       corner_depots elements FindGroupsSpec.first_elem pointed_ramp
         = Raise DegenerateRamp /\
       barracks_can_fit_addon elements FindGroupsSpec.first_elem pointed_ramp
         = Raise DegenerateRamp /\
       barracks_correct_placement elements FindGroupsSpec.first_elem pointed_ramp
         = Raise DegenerateRamp).
Proof.
  apply (upper2_size_small_upper (F := Q) elements FindGroupsSpec.first_elem
           pointed_ramp FindGroupsProofs.elements_perm_refl).
  - vm_compute. lia.
  - vm_compute. discriminate.
Defined.

(** C5, as stated, fails on [small_ramp] (top row (0,2), (1,2); bottom row at
    y = 0): the depot position is (1, 3) up to rounding, on the far side of
    the ramp top from [bottom_center] = (0.5, 0), since the operations keep
    the intersection point that is farther from the lower point. *)
Lemma symmetric_top_claim_fails :
  ~ symmetric_top_claim (F := Q) elements FindGroupsSpec.first_elem small_ramp.
Proof.
  intros Hclaim.
  destruct (Hclaim (0, 2) (1, 2))
    as (_ & barracks & depot & top & bottom & _ & Hdepot & Htop & Hbottom & _ & Hbetween).
  - vm_compute. reflexivity.
  - discriminate.
  - reflexivity.
  - reflexivity.
  - vm_compute in Hdepot, Htop, Hbottom.
    injection Hdepot as <-. injection Htop as <-. injection Hbottom as <-.
    destruct Hbetween as [_ Hfar]. vm_compute in Hfar. discriminate.
Qed.

Lemma upper2_is_upper {F : Type} `{FloatOps F} `{Point2Ops F}
    (set_iter : gset Point2 -> list Point2) (r : Ramp.t) :
  (forall s, set_iter s ≡ₚ elements s) ->
  size (upper set_iter r) = 2%nat -> lower set_iter r <> ∅ ->
  upper2_for_ramp_wall (F := F) set_iter r = Ok (upper set_iter r).
Proof.
  intros Hperm Hsz Hlower.
  destruct (center_of_nonempty (F := F) set_iter (lower set_iter r) Hlower)
    as [bc Hbc].
  rewrite (upper2_small set_iter r bc) by (lia || done). f_equal.
  rewrite take_ge.
  - rewrite <- (list_to_set_set_iter set_iter Hperm (upper set_iter r)) at 2.
    apply list_to_set_perm_L, ByKeyProofs.sorted_desc_by_perm.
  - rewrite (ByKeyProofs.sorted_desc_by_perm (wall_key bc)).
    rewrite (length_set_iter set_iter Hperm). lia.
Qed.

(** C5, amended: for a ramp with exactly two points in [upper] (such as the
    symmetric two-tile top) and a non-empty [lower], [upper2_for_ramp_wall]
    is [upper] itself, and [barracks_in_middle] and [depot_in_middle] each
    return, among the intersection points of the two circles around the
    shifted upper points, one that is farthest from the lower point [L]. *)
Theorem two_upper_points_wall
    {F : Type} `{FloatOps F} `{Point2Ops F} `{!FloatOrder F}
    (set_iter : gset Point2 -> list Point2) (set_pick : gset Point2 -> Point2)
    (r : Ramp.t) :
  (forall s, set_iter s ≡ₚ elements s) ->
  (forall s, s <> ∅ -> set_pick s ∈ s) ->
  size (upper set_iter r) = 2%nat -> lower set_iter r <> ∅ ->
  upper2_for_ramp_wall (F := F) set_iter r = Ok (upper set_iter r) /\
  let a := set_pick (upper set_iter r) in
  let b := set_pick (upper set_iter r ∖ {[a]}) in
  let p1 := offset (as_float a) (of_Q 0.5, of_Q (-0.5)) in
  let p2 := offset (as_float b) (of_Q 0.5, of_Q (-0.5)) in
  exists L, py_next_iter set_iter (lower set_iter r) = Ok L /\
    L ∈ lower set_iter r /\
    (forall ints, circle_intersection p1 p2 (fsqrt (of_Z 5)) = Some ints ->
       ints <> [] ->
       exists m, barracks_in_middle set_iter set_pick r = Ok m /\
                 farthest_from (as_float L) ints m) /\
    (forall ints, circle_intersection p1 p2 (fsqrt (of_Q 2.5)) = Some ints ->
       ints <> [] ->
       exists m, depot_in_middle set_iter set_pick r = Ok m /\
                 farthest_from (as_float L) ints m).
Proof.
  intros Hperm Hpick Hsz Hlower.
  pose proof (upper2_is_upper (F := F) set_iter r Hperm Hsz Hlower) as Hu.
  split; [done |]. intros a b p1 p2.
  unfold py_next_iter.
  destruct (set_iter (lower set_iter r)) as [| L rest] eqn:Hiter.
  { by apply (set_iter_nil set_iter Hperm) in Hiter. }
  exists L. split; [done |]. split.
  { rewrite <- (list_to_set_set_iter set_iter Hperm (lower set_iter r)), Hiter.
    set_solver. }
  assert (py_next_iter set_iter (lower set_iter r) = Ok L) as HL
    by (unfold py_next_iter; by rewrite Hiter).
  split; intros ints Hints Hnonempty.
  - by apply (in_middle_farthest set_iter set_pick _ r (upper set_iter r) L ints).
  - by apply (in_middle_farthest set_iter set_pick _ r (upper set_iter r) L ints).
Qed.

Lemma two_upper_points_wall_witness :
  upper2_for_ramp_wall (F := Q) elements small_ramp = Ok (upper elements small_ramp) /\
  let a := FindGroupsSpec.first_elem (upper elements small_ramp) in
  let b := FindGroupsSpec.first_elem (upper elements small_ramp ∖ {[a]}) in
  let p1 := offset (F := Q) (as_float a) (of_Q 0.5, of_Q (-0.5)) in
  let p2 := offset (F := Q) (as_float b) (of_Q 0.5, of_Q (-0.5)) in
  exists L, py_next_iter elements (lower elements small_ramp) = Ok L /\
    L ∈ lower elements small_ramp /\
    (forall ints, circle_intersection p1 p2 (fsqrt (of_Z 5)) = Some ints ->
       ints <> [] ->
       exists m,
         barracks_in_middle elements FindGroupsSpec.first_elem small_ramp = Ok m /\
         farthest_from (as_float L) ints m) /\
    (forall ints, circle_intersection p1 p2 (fsqrt (of_Q 2.5)) = Some ints ->
       ints <> [] ->
       exists m,
         depot_in_middle elements FindGroupsSpec.first_elem small_ramp = Ok m /\
         farthest_from (as_float L) ints m).
Proof.
  apply (two_upper_points_wall (F := Q) (FloatOrder0 := Q_float_order)
           elements FindGroupsSpec.first_elem small_ramp
           FindGroupsProofs.elements_perm_refl FindGroupsProofs.first_elem_in).
  - vm_compute. reflexivity.
  - vm_compute. discriminate.
Defined.

End RampProofs.
(** ** The cache does not change what the properties return *)

Module RampObjectProofs.
Import RampObject QFloat RampObjectSpec.

Section adequacy.

Context {F : Type} `{FloatOps F} `{Point2Ops F}.

Variable set_iter : gset Point2 -> list Point2.
Variable set_pick : gset Point2 -> Point2.
Variable r : Ramp.t.

Local Abbreviation state := (@RampObject.state F).
Local Abbreviation obj := (@RampObject.obj F).
Local Abbreviation value := (@RampObject.value F).
Local Abbreviation denote := (RampObject.denote set_iter set_pick r).
Local Abbreviation obs_of := (@RampObjectSpec.obs_of F).
Local Abbreviation protected := (@RampObjectSpec.protected F).
Local Abbreviation extends := (@RampObjectSpec.extends F).
Local Abbreviation owns := (@RampObjectSpec.owns F).
Local Abbreviation inv := (RampObjectSpec.inv set_iter set_pick r).
Local Abbreviation sim := (RampObjectSpec.sim set_iter set_pick r).
Local Abbreviation returns_set := (RampObjectSpec.returns_set set_iter set_pick r).
Local Abbreviation returns_val := (RampObjectSpec.returns_val set_iter set_pick r).

Lemma extends_refl σ : extends σ σ.
Proof. split; [done | tauto]. Qed.

Lemma extends_trans σ1 σ2 σ3 : extends σ1 σ2 -> extends σ2 σ3 -> extends σ1 σ3.
Proof.
  intros [Hh12 Hp12] [Hh23 Hp23]. split; [by etrans |].
  intros l Hl Hp. apply Hp12; [done |]. apply Hp23; [| done].
  by apply (subseteq_dom _ _ Hh12).
Qed.

Lemma protected_in_heap σ l : inv σ -> protected σ l -> l ∈ dom (heap σ).
Proof.
  intros [Hpts Hcache] [-> | [a Ha]]; apply elem_of_dom.
  - by rewrite Hpts.
  - destruct (Hcache a _ Ha) as (o & _ & Hread). simpl in Hread.
    by destruct (heap σ !! l).
Qed.

Lemma fresh_not_protected σ : inv σ -> ~ protected σ (fresh (dom (heap σ))).
Proof. intros Hinv Hp. by apply (is_fresh (dom (heap σ))), protected_in_heap. Qed.

Lemma fresh_lookup (σ : state) : heap σ !! fresh (dom (heap σ)) = None.
Proof. apply not_elem_of_dom, is_fresh. Qed.

Lemma read_heap_subseteq (σ σ' : state) v o :
  heap σ ⊆ heap σ' -> read σ v = Some o -> read σ' v = Some o.
Proof.
  intros Hsub. destruct v as [l | p | b]; simpl; [| done | done].
  destruct (heap σ !! l) as [o' |] eqn:Hl; [| done].
  by rewrite (lookup_weaken _ _ _ _ Hl Hsub).
Qed.

(** Creating an object keeps the cache right. *)
Lemma inv_alloc σ o :
  inv σ -> inv (State (<[fresh (dom (heap σ)) := o]> (heap σ)) (cache σ)).
Proof.
  intros [Hpts Hcache]. split; simpl.
  - rewrite lookup_insert_ne; [done |].
    intros Heq. pose proof (fresh_lookup σ) as Hf. rewrite Heq in Hf. congruence.
  - intros a v Ha. destruct (Hcache a v Ha) as (o' & Hd & Hread).
    exists o'. split; [done |].
    eapply read_heap_subseteq; [| done]. simpl.
    apply insert_subseteq, fresh_lookup.
Qed.

Lemma extends_alloc σ o :
  extends σ (State (<[fresh (dom (heap σ)) := o]> (heap σ)) (cache σ)).
Proof. split; simpl; [apply insert_subseteq, fresh_lookup | done]. Qed.

(** Overwriting an object the ramp does not refer to keeps the cache right. *)
Lemma inv_store σ l o :
  inv σ -> ~ protected σ l -> inv (State (<[l := o]> (heap σ)) (cache σ)).
Proof.
  intros [Hpts Hcache] Hl. split; simpl.
  - rewrite lookup_insert_ne; [done |]. intros ->. apply Hl. by left.
  - intros a v Ha. destruct (Hcache a v Ha) as (o' & Hd & Hread).
    exists o'. split; [done |].
    destruct v as [l' | p | b]; simpl in *; [| done | done].
    rewrite lookup_insert_ne; [done |]. intros ->. apply Hl. right. eauto.
Qed.

Lemma extends_store σ0 σ l o :
  extends σ0 σ -> l ∉ dom (heap σ0) ->
  extends σ0 (State (<[l := o]> (heap σ)) (cache σ)).
Proof.
  intros [Hh Hp] Hl. split; simpl.
  - apply insert_subseteq_r; [by apply not_elem_of_dom | done].
  - done.
Qed.

Lemma owns_insert_new σ0 σ L o :
  inv σ -> extends σ0 σ -> owns σ0 σ L ->
  owns σ0 (State (<[fresh (dom (heap σ)) := o]> (heap σ)) (cache σ))
    (<[fresh (dom (heap σ)) := o]> L).
Proof.
  intros Hinv [Hh _] [HL Hown]. split; simpl.
  - by apply insert_mono.
  - intros l Hl. apply dom_insert in Hl. apply elem_of_union in Hl as [Hl | Hl].
    + apply elem_of_singleton in Hl as ->. split.
      * intros Hin. apply (is_fresh (dom (heap σ))).
        by apply (subseteq_dom _ _ Hh).
      * intros Hp. by apply (fresh_not_protected σ Hinv).
    + destruct (Hown l Hl) as [Hl0 Hlp]. split; [done |].
      intros Hp. by apply Hlp.
Qed.

Lemma owns_lookup_new σ0 σ (L : gmap nat obj) :
  owns σ0 σ L -> L !! fresh (dom (heap σ)) = None.
Proof.
  intros [HL _]. apply not_elem_of_dom. intros Hin.
  apply (is_fresh (dom (heap σ))). by apply (subseteq_dom _ _ HL).
Qed.

(** *** Rules for the steps of a method body *)

Lemma sim_weaken {A B : Type} L (m : M A) (D : result B) R R' :
  sim L m D R -> (forall a b L', R a b L' -> R' a b L') -> sim L m D R'.
Proof.
  intros Hm HR σ0 σ Hinv Hext Hown.
  destruct (Hm σ0 σ Hinv Hext Hown) as (res & σ' & Heq & Hinv' & Hext' & Hres).
  exists res, σ'. split; [done |]. split; [done |]. split; [done |].
  destruct D as [b | e]; [| done].
  destruct Hres as (a & L' & -> & Hab & Hown'). eauto 10.
Qed.

Lemma sim_ret {A B : Type} L (a : A) (b : B) (R : A -> B -> gmap nat obj -> Prop) :
  R a b L -> sim L (ret a) (Ok b) R.
Proof. intros HR σ0 σ Hinv Hext Hown. exists (Ok a), σ. eauto 10. Qed.

Lemma sim_raise {A B : Type} L e (R : A -> B -> gmap nat obj -> Prop) :
  sim L (raise e) (Raise e) R.
Proof. intros σ0 σ Hinv Hext Hown. exists (Raise e), σ. eauto 10. Qed.

Lemma sim_lift {A : Type} L (x : result A) :
  sim L (lift x) x (fun a b L' => a = b /\ L' = L).
Proof.
  intros σ0 σ Hinv Hext Hown. exists x, σ.
  split; [done |]. split; [done |]. split; [done |].
  destruct x as [a | e]; [| done]. eauto 10.
Qed.

Lemma sim_bind {A B A' B' : Type} L (m : M A) (D : result B) R
    (k : A -> M A') (kp : B -> result B') Q :
  sim L m D R ->
  (forall a b L', D = Ok b -> R a b L' -> sim L' (k a) (kp b) Q) ->
  sim L (bind m k) (D ≫= kp) Q.
Proof.
  intros Hm Hk σ0 σ Hinv Hext Hown.
  destruct (Hm σ0 σ Hinv Hext Hown) as (res & σ1 & Heq & Hinv1 & Hext1 & Hres).
  unfold bind. rewrite Heq. destruct D as [b | e]; simpl.
  - destruct Hres as (a & L' & -> & Hab & Hown1).
    by apply (Hk a b L' eq_refl Hab σ0 σ1).
  - subst res. exists (Raise e), σ1. done.
Qed.

(** A step of the body with no counterpart in the pure computation. *)
Lemma sim_bind_ok {A B A' B' : Type} L (m : M A) (b : B) R
    (k : A -> M A') (D : result B') Q :
  sim L m (Ok b) R ->
  (forall a L', R a b L' -> sim L' (k a) D Q) ->
  sim L (bind m k) D Q.
Proof.
  intros Hm Hk σ0 σ Hinv Hext Hown.
  destruct (Hm σ0 σ Hinv Hext Hown)
    as (res & σ1 & Heq & Hinv1 & Hext1 & a & L' & -> & Hab & Hown1).
  unfold bind. rewrite Heq. by apply (Hk a L' Hab σ0 σ1).
Qed.

Lemma sim_alloc L (o : obj) :
  sim L (alloc o) (Ok o) (fun l o' L' => L' = <[l := o']> L /\ L !! l = None).
Proof.
  intros σ0 σ Hinv Hext Hown. eexists _, _. split; [reflexivity |].
  split; [by apply inv_alloc |].
  split; [eapply extends_trans; [done | apply extends_alloc] |].
  eexists _, _. split; [done |]. split.
  - split; [done | by eapply owns_lookup_new].
  - by apply owns_insert_new.
Qed.

Lemma owns_lookup σ0 σ (L : gmap nat obj) l o :
  owns σ0 σ L -> L !! l = Some o -> heap σ !! l = Some o.
Proof. intros [HL _] Hl. by eapply lookup_weaken. Qed.

Lemma sim_deref_grid L l s :
  L !! l = Some (GridSet s) ->
  sim L (deref_grid l) (Ok s) (fun a b L' => a = b /\ L' = L).
Proof.
  intros Hl σ0 σ Hinv Hext Hown. exists (Ok s), σ.
  unfold deref_grid. rewrite (owns_lookup σ0 σ L l _ Hown Hl). eauto 10.
Qed.

Lemma sim_deref_points L l ps :
  L !! l = Some (PointSet ps) ->
  sim L (deref_points l) (Ok ps) (fun a b L' => a = b /\ L' = L).
Proof.
  intros Hl σ0 σ Hinv Hext Hown. exists (Ok ps), σ.
  unfold deref_points. rewrite (owns_lookup σ0 σ L l _ Hown Hl). eauto 10.
Qed.

Lemma sim_deref_self L :
  sim L (deref_grid points_ref) (Ok (Ramp._points r))
    (fun a b L' => a = b /\ L' = L).
Proof.
  intros σ0 σ Hinv Hext Hown. exists (Ok (Ramp._points r)), σ.
  unfold deref_grid. rewrite (proj1 Hinv). eauto 10.
Qed.

Lemma sim_copy_self L :
  sim L (set_copy points_ref) (Ok (GridSet (Ramp._points r)))
    (fun l o L' => L' = <[l := o]> L /\ L !! l = None).
Proof.
  intros σ0 σ Hinv Hext Hown. unfold set_copy. rewrite (proj1 Hinv).
  by apply sim_alloc.
Qed.

Lemma sim_pop L l s :
  L !! l = Some (GridSet s) ->
  sim L (pop_ref set_pick l) (set_pop set_pick s)
    (fun a bs L' => a = fst bs /\ L' = <[l := GridSet (snd bs)]> L).
Proof.
  intros Hl σ0 σ Hinv Hext Hown. unfold pop_ref, bind, deref_grid.
  rewrite (owns_lookup σ0 σ L l _ Hown Hl).
  destruct (set_pop set_pick s) as [[x s'] | e].
  - destruct Hown as [HL Hown].
    destruct (Hown l) as [Hl0 Hlp]; [apply elem_of_dom; eauto |].
    eexists _, _. split; [reflexivity |].
    split; [by apply inv_store |]. split; [by apply extends_store |].
    eexists _, _. split; [done |]. split; [done |]. split; simpl.
    + by apply insert_mono.
    + intros l' Hl'. apply Hown. apply dom_insert in Hl'.
      apply elem_of_union in Hl' as [Hl' | Hl']; [| done].
      apply elem_of_singleton in Hl' as ->. apply elem_of_dom. eauto.
  - exists (Raise e), σ. done.
Qed.

Lemma sim_call_set L (m : M nat) (D : result obj) :
  returns_set m D ->
  sim L m D (fun l o L' => L' = <[l := o]> L /\ L !! l = None).
Proof.
  intros Hm σ0 σ Hinv Hext [HL Hown].
  destruct (Hm σ Hinv) as (res & σ' & Heq & Hinv' & Hext' & Hres).
  exists res, σ'. split; [done |]. split; [done |].
  split; [by eapply extends_trans |].
  destruct D as [o | e]; [| done].
  destruct Hres as (l & -> & Hl & Hnew & Hlp).
  assert (L !! l = None) as HLl.
  { apply not_elem_of_dom. intros Hin. apply Hnew. by apply (subseteq_dom _ _ HL). }
  exists l, (<[l := o]> L). split; [done |]. split; [done |].
  destruct Hext as [Hh0 _]. destruct Hext' as [Hh Hp]. split.
  - apply insert_subseteq_l; [done | by etrans].
  - intros l' Hl'. apply dom_insert in Hl'.
    apply elem_of_union in Hl' as [Hl' | Hl'].
    + apply elem_of_singleton in Hl' as ->. split; [| done].
      intros Hin. apply Hnew. by apply (subseteq_dom _ _ Hh0).
    + destruct (Hown l' Hl') as [Hl0 Hlp']. split; [done |].
      intros Hprot. apply Hlp', Hp; [| done]. by apply (subseteq_dom _ _ HL).
Qed.

Lemma sim_call_val {A : Type} L (m : M A) (D : result A) :
  returns_val m D -> sim L m D (fun a b L' => a = b /\ L' = L).
Proof.
  intros Hm σ0 σ Hinv Hext [HL Hown].
  destruct (Hm σ Hinv) as (σ' & Heq & Hinv' & Hext').
  exists D, σ'. split; [done |]. split; [done |].
  split; [by eapply extends_trans |].
  destruct D as [a | e]; [| done].
  exists a, L. split; [done |]. split; [done |].
  destruct Hext' as [Hh Hp]. split; [by etrans |].
  intros l Hl. destruct (Hown l Hl) as [Hl0 Hlp]. split; [done |].
  intros Hprot. apply Hlp, Hp; [| done]. by apply (subseteq_dom _ _ HL).
Qed.

(** *** The decorators *)

Lemma inv_set_cache σ a v o :
  inv σ -> denote a = Ok o -> read σ v = Some o ->
  inv (State (heap σ) (fun b => if decide (b = a) then Some v else cache σ b)).
Proof.
  intros [Hpts Hcache] Hden Hread. split; [done |]. simpl.
  intros b w Hb. case_decide as Hba.
  - injection Hb as <-. subst b. eauto.
  - by apply Hcache.
Qed.

Lemma extends_set_cache σ0 σ a v :
  extends σ0 σ -> (forall l, v = VRef l -> l ∉ dom (heap σ0)) ->
  extends σ0 (State (heap σ) (fun b => if decide (b = a) then Some v else cache σ b)).
Proof.
  intros [Hh Hp] Hv. split; [done |]. simpl.
  intros l Hl [-> | [b Hb]]; [by left |]. simpl in Hb. case_decide as Hba.
  - injection Hb as ->. by destruct (Hv l eq_refl).
  - apply Hp; [done |]. right. eauto.
Qed.

Lemma owns_empty σ0 σ : owns σ0 σ ∅.
Proof.
  split; [apply map_empty_subseteq |]. intros l Hl.
  rewrite dom_empty in Hl. by apply not_elem_of_empty in Hl.
Qed.

Lemma obs_of_inj (o o' : obj) : obs_of o = obs_of o' -> o = o'.
Proof. destruct o, o'; simpl; congruence. Qed.

(** A hit on a cached set: the cached object holds the value of the property. *)
Lemma cached_set σ a l (D : result obj) :
  inv σ -> denote a = obs_of <$> D -> cache σ a = Some (VRef l) ->
  exists o, D = Ok o /\ heap σ !! l = Some o.
Proof.
  intros [_ Hcache] Hden Hc. destruct (Hcache a _ Hc) as (o' & Ho' & Hread).
  rewrite Hden in Ho'. destruct D as [o | e]; simpl in Ho'; [| done].
  injection Ho' as <-. exists o. split; [done |]. simpl in Hread.
  destruct (heap σ !! l) as [o'' |]; [| done].
  f_equal. apply obs_of_inj. by destruct o''; injection Hread as <-.
Qed.

Lemma copy_returns σ l o :
  inv σ -> heap σ !! l = Some o ->
  exists l' σ', set_copy l σ = (Ok l', σ') /\ inv σ' /\ extends σ σ' /\
    heap σ' !! l' = Some o /\ (l' ∉ dom (heap σ)) /\ ~ protected σ' l'.
Proof.
  intros Hinv Hl. unfold set_copy. rewrite Hl. eexists _, _.
  split; [reflexivity |]. split; [by apply inv_alloc |].
  split; [apply extends_alloc |]. simpl.
  split; [by rewrite lookup_insert_eq |]. split; [apply is_fresh |].
  intros Hp. by apply (fresh_not_protected σ Hinv).
Qed.

Lemma mutable_cache_returns a (f : M nat) (D : result obj) :
  denote a = obs_of <$> D ->
  sim ∅ f D (fun l o L' => L' !! l = Some o) ->
  returns_set (property_mutable_cache a f) D.
Proof.
  intros Hden Hf σ Hinv. unfold property_mutable_cache.
  destruct (cache σ a) as [v |] eqn:Hc.
  - pose proof Hinv as [_ Hcache].
    destruct (Hcache a v Hc) as (o' & Ho' & Hread).
    rewrite Hden in Ho'. destruct D as [o | e]; simpl in Ho'; [| done].
    injection Ho' as <-.
    destruct v as [l | p | b]; simpl in Hread; [| by destruct o | by destruct o].
    destruct (cached_set σ a l (Ok o) Hinv Hden Hc) as (o1 & [= <-] & Hl).
    destruct (copy_returns σ l o Hinv Hl) as (l' & σ' & Heq & ? & ? & ? & ? & ?).
    exists (Ok l'), σ'. eauto 10.
  - destruct (Hf σ σ Hinv (extends_refl σ) (owns_empty σ σ))
      as (res & σ1 & Heq & Hinv1 & Hext1 & Hres).
    unfold bind at 1. rewrite Heq. destruct D as [o | e].
    + destruct Hres as (l & L' & -> & HL' & Hown).
      pose proof (owns_lookup σ σ1 L' l o Hown HL') as Hl.
      destruct Hown as [_ Hown].
      destruct (Hown l) as [Hnew Hlp]; [apply elem_of_dom; eauto |].
      unfold bind, set_cache.
      set (σ2 := State (heap σ1) (fun b => if decide (b = a) then Some (VRef l)
                                           else cache σ1 b)).
      assert (inv σ2) as Hinv2.
      { apply (inv_set_cache σ1 a (VRef l) (obs_of o)); [done | done |].
        simpl. rewrite Hl. by destruct o. }
      assert (extends σ σ2) as Hext2.
      { apply extends_set_cache; [done |]. by intros ? [= <-]. }
      destruct (copy_returns σ2 l o Hinv2 Hl)
        as (l' & σ3 & Heq3 & Hinv3 & Hext3 & Hl' & Hnew' & Hlp').
      exists (Ok l'), σ3. split; [done |]. split; [done |].
      split; [by eapply extends_trans |].
      exists l'. split; [done |]. split; [done |]. split; [| done].
      intros Hin. apply Hnew'. destruct Hext2 as [Hh2 _].
      by apply (subseteq_dom _ _ Hh2).
    + subst res. exists (Raise e), σ1. done.
Qed.

Lemma immutable_point_returns a (f : M (F * F)) (D : result (F * F)) :
  denote a = OPoint <$> D ->
  sim ∅ f D (fun p q _ => p = q) ->
  returns_val (property_immutable_cache_point a f) D.
Proof.
  intros Hden Hf σ Hinv. unfold property_immutable_cache_point.
  destruct (cache σ a) as [v |] eqn:Hc.
  - pose proof Hinv as [_ Hcache].
    destruct (Hcache a v Hc) as (o' & Ho' & Hread).
    rewrite Hden in Ho'. destruct D as [q | e]; simpl in Ho'; [| done].
    injection Ho' as <-.
    destruct v as [l | p | b]; simpl in Hread.
    + by destruct (heap σ !! l) as [[] |].
    + injection Hread as ->. exists σ. split; [done |].
      split; [done | apply extends_refl].
    + done.
  - destruct (Hf σ σ Hinv (extends_refl σ) (owns_empty σ σ))
      as (res & σ1 & Heq & Hinv1 & Hext1 & Hres).
    unfold bind at 1. rewrite Heq. destruct D as [q | e].
    + destruct Hres as (p & L' & -> & -> & Hown).
      unfold bind, set_cache, ret. eexists. split; [reflexivity |]. split.
      * apply (inv_set_cache σ1 a (VPoint q) (OPoint q)); done.
      * apply extends_set_cache; [done | done].
    + subst res. exists σ1. done.
Qed.

Lemma immutable_bool_returns a (f : M bool) (D : result bool) :
  denote a = OBool <$> D ->
  sim ∅ f D (fun p q _ => p = q) ->
  returns_val (property_immutable_cache_bool a f) D.
Proof.
  intros Hden Hf σ Hinv. unfold property_immutable_cache_bool.
  destruct (cache σ a) as [v |] eqn:Hc.
  - pose proof Hinv as [_ Hcache].
    destruct (Hcache a v Hc) as (o' & Ho' & Hread).
    rewrite Hden in Ho'. destruct D as [q | e]; simpl in Ho'; [| done].
    injection Ho' as <-.
    destruct v as [l | p | b]; simpl in Hread.
    + by destruct (heap σ !! l) as [[] |].
    + done.
    + injection Hread as ->. exists σ. split; [done |].
      split; [done | apply extends_refl].
  - destruct (Hf σ σ Hinv (extends_refl σ) (owns_empty σ σ))
      as (res & σ1 & Heq & Hinv1 & Hext1 & Hres).
    unfold bind at 1. rewrite Heq. destruct D as [q | e].
    + destruct Hres as (p & L' & -> & -> & Hown).
      unfold bind, set_cache, ret. eexists. split; [reflexivity |]. split.
      * apply (inv_set_cache σ1 a (VBool q) (OBool q)); done.
      * apply extends_set_cache; [done | done].
    + subst res. exists σ1. done.
Qed.

(** *** Derived rules, one per kind of step *)

(** A call of a property that returns a set of grid points. *)
Lemma sim_bind_grid {A' B' : Type} (L : gmap nat obj) (m : M nat)
    (U : result (gset Point2)) (k : nat -> M A') (kp : gset Point2 -> result B')
    (Q : A' -> B' -> gmap nat obj -> Prop) :
  returns_set m (GridSet <$> U) ->
  (forall l s, U = Ok s -> L !! l = None ->
     sim (<[l := GridSet s]> L) (k l) (kp s) Q) ->
  sim L (bind m k) (U ≫= kp) Q.
Proof.
  intros Hm Hk.
  assert (U ≫= kp =
          (GridSet <$> U) ≫= fun o : obj => match o with
                                      | GridSet s => kp s
                                      | PointSet _ => Raise TypeError
                                      end) as -> by (by destruct U).
  eapply sim_bind; [by apply sim_call_set |].
  intros l o L' Ho [-> Hl]. destruct U as [s |]; simpl in Ho; [| done].
  injection Ho as <-. by apply Hk.
Qed.

(** A call of a property that returns a set of points. *)
Lemma sim_bind_pointset {A' B' : Type} (L : gmap nat obj) (m : M nat)
    (U : result (list (F * F))) (k : nat -> M A') (kp : list (F * F) -> result B')
    (Q : A' -> B' -> gmap nat obj -> Prop) :
  returns_set m (PointSet <$> U) ->
  (forall l ps, U = Ok ps -> L !! l = None ->
     sim (<[l := PointSet ps]> L) (k l) (kp ps) Q) ->
  sim L (bind m k) (U ≫= kp) Q.
Proof.
  intros Hm Hk.
  assert (U ≫= kp =
          (PointSet <$> U) ≫= fun o : obj => match o with
                                       | PointSet ps => kp ps
                                       | GridSet _ => Raise TypeError
                                       end) as -> by (by destruct U).
  eapply sim_bind; [by apply sim_call_set |].
  intros l o L' Ho [-> Hl]. destruct U as [ps |]; simpl in Ho; [| done].
  injection Ho as <-. by apply Hk.
Qed.

(** A call of a property that returns a set and cannot raise. *)
Lemma sim_bind_grid_ok {A' B' : Type} (L : gmap nat obj) (m : M nat)
    (s : gset Point2) (k : nat -> M A') (D : result B')
    (Q : A' -> B' -> gmap nat obj -> Prop) :
  returns_set m (Ok (GridSet s)) ->
  (forall l, L !! l = None -> sim (<[l := GridSet s]> L) (k l) D Q) ->
  sim L (bind m k) D Q.
Proof.
  intros Hm Hk. apply (sim_bind_grid L m (Ok s) k (fun _ => D) Q Hm).
  intros l s' [= <-] Hl. by apply Hk.
Qed.

(** A call of a property that returns an immutable value. *)
Lemma sim_bind_val {A A' B' : Type} (L : gmap nat obj) (m : M A) (D : result A)
    (k : A -> M A') (kp : A -> result B') (Q : A' -> B' -> gmap nat obj -> Prop) :
  returns_val m D ->
  (forall a, D = Ok a -> sim L (k a) (kp a) Q) ->
  sim L (bind m k) (D ≫= kp) Q.
Proof.
  intros Hm Hk. eapply sim_bind; [by apply sim_call_val |].
  intros a b L' Hb [-> ->]. by apply Hk.
Qed.

Lemma sim_bind_lift {A A' B' : Type} (L : gmap nat obj) (x : result A)
    (k : A -> M A') (kp : A -> result B') (Q : A' -> B' -> gmap nat obj -> Prop) :
  (forall a, x = Ok a -> sim L (k a) (kp a) Q) ->
  sim L (bind (lift x) k) (x ≫= kp) Q.
Proof.
  intros Hk. eapply sim_bind; [apply sim_lift |].
  intros a b L' Hb [-> ->]. by apply Hk.
Qed.

Lemma sim_bind_deref_grid {A' B' : Type} (L : gmap nat obj) (l : nat)
    (s : gset Point2)
    (k : gset Point2 -> M A') (D : result B') (Q : A' -> B' -> gmap nat obj -> Prop) :
  L !! l = Some (GridSet s) -> sim L (k s) D Q ->
  sim L (bind (deref_grid l) k) D Q.
Proof.
  intros Hl Hk. eapply sim_bind_ok; [by apply sim_deref_grid |].
  by intros a L' [-> ->].
Qed.

Lemma sim_bind_deref_points {A' B' : Type} (L : gmap nat obj) (l : nat)
    (ps : list (F * F))
    (k : list (F * F) -> M A') (D : result B') (Q : A' -> B' -> gmap nat obj -> Prop) :
  L !! l = Some (PointSet ps) -> sim L (k ps) D Q ->
  sim L (bind (deref_points l) k) D Q.
Proof.
  intros Hl Hk. eapply sim_bind_ok; [by apply sim_deref_points |].
  by intros a L' [-> ->].
Qed.

Lemma sim_bind_deref_self {A' B' : Type} (L : gmap nat obj)
    (k : gset Point2 -> M A') (D : result B') (Q : A' -> B' -> gmap nat obj -> Prop) :
  sim L (k (Ramp._points r)) D Q ->
  sim L (bind (deref_grid points_ref) k) D Q.
Proof.
  intros Hk. eapply sim_bind_ok; [by apply sim_deref_self |].
  by intros a L' [-> ->].
Qed.

Lemma sim_bind_alloc {A' B' : Type} (L : gmap nat obj) (o : obj)
    (k : nat -> M A') (D : result B') (Q : A' -> B' -> gmap nat obj -> Prop) :
  (forall l, L !! l = None -> sim (<[l := o]> L) (k l) D Q) ->
  sim L (bind (alloc o) k) D Q.
Proof.
  intros Hk. eapply sim_bind_ok; [by apply sim_alloc |].
  intros l L' [-> Hl]. by apply Hk.
Qed.

Lemma sim_bind_pop {A' B' : Type} (L : gmap nat obj) (l : nat)
    (s : gset Point2)
    (k : Point2 -> M A') (kp : Point2 * gset Point2 -> result B')
    (Q : A' -> B' -> gmap nat obj -> Prop) :
  L !! l = Some (GridSet s) ->
  (forall x s', sim (<[l := GridSet s']> L) (k x) (kp (x, s')) Q) ->
  sim L (bind (pop_ref set_pick l) k) (set_pop set_pick s ≫= kp) Q.
Proof.
  intros Hl Hk. eapply sim_bind; [by apply sim_pop |].
  intros x [x' s'] L' _ [-> ->]. apply Hk.
Qed.

(** The last step creates the object that the body returns. *)
Lemma sim_alloc_result (L : gmap nat obj) (o : obj) :
  sim L (alloc o) (Ok o) (fun l o' L' => L' !! l = Some o').
Proof.
  eapply sim_weaken; [apply sim_alloc |].
  intros l o' L' [-> _]. by rewrite lookup_insert_eq.
Qed.

Lemma sim_lift_result {A : Type} (L : gmap nat obj) (x : result A) :
  sim L (lift x) x (fun a b _ => a = b).
Proof. eapply sim_weaken; [apply sim_lift |]. by intros a b L' [-> _]. Qed.

Lemma sim_call_result {A : Type} (L : gmap nat obj) (m : M A) (D : result A) :
  returns_val m D -> sim L m D (fun a b _ => a = b).
Proof.
  intros Hm. eapply sim_weaken; [by apply sim_call_val |]. by intros a b L' [-> _].
Qed.

(** *** The properties *)

Lemma points_returns :
  returns_set points (Ok (GridSet (Ramp.points r))).
Proof.
  apply (mutable_cache_returns APoints); [done |].
  eapply sim_weaken; [apply sim_copy_self |].
  intros l o L' [-> _]. by rewrite lookup_insert_eq.
Qed.

Lemma upper_returns :
  returns_set (upper set_iter r) (Ok (GridSet (Ramp.upper set_iter r))).
Proof.
  apply (mutable_cache_returns AUpper); [done |].
  apply sim_bind_deref_self. apply sim_alloc_result.
Qed.

Lemma lower_returns :
  returns_set (lower set_iter r) (Ok (GridSet (Ramp.lower set_iter r))).
Proof.
  apply (mutable_cache_returns ALower); [done |].
  apply sim_bind_deref_self. apply sim_alloc_result.
Qed.

Lemma top_center_returns :
  returns_val (top_center set_iter r) (Ramp.top_center set_iter r).
Proof.
  apply (immutable_point_returns ATopCenter); [done |].
  eapply sim_bind_grid_ok; [apply upper_returns |]. intros l Hl.
  eapply sim_bind_deref_grid; [by rewrite lookup_insert_eq |].
  apply sim_lift_result.
Qed.

Lemma bottom_center_returns :
  returns_val (bottom_center set_iter r) (Ramp.bottom_center set_iter r).
Proof.
  apply (immutable_point_returns ABottomCenter); [done |].
  eapply sim_bind_grid_ok; [apply lower_returns |]. intros l Hl.
  eapply sim_bind_deref_grid; [by rewrite lookup_insert_eq |].
  apply sim_lift_result.
Qed.

Lemma fmap_bind_bind {A B C E : Type} (D : result A) (f : A -> B) (g : B -> C)
    (h : C -> E) :
  h <$> ((D ≫= fun a => Ok (f a)) ≫= fun b => Ok (g b)) =
  D ≫= fun a => Ok (h (g (f a))).
Proof. by destruct D. Qed.

(** The keys of the sort are computed as in the pure computation. *)
Lemma sim_keys (L : gmap nat obj) (l : list Point2) (acc : list (F * Point2)) :
  sim L
    (for_eachM
       (fun x acc => bind (bottom_center set_iter r) (fun bc =>
          ret (acc ++ [(_distance_squared (Ramp.as_float x) bc, x)])))
       l acc)
    (for_each
       (fun x acc =>
          k ← (bc ← Ramp.bottom_center set_iter r;
               Ok (_distance_squared (Ramp.as_float x) bc));
          Ok (acc ++ [(k, x)]))
       l acc)
    (fun a b L' => a = b /\ L' = L).
Proof.
  revert acc. induction l as [| x l IH]; intros acc; simpl.
  - by apply sim_ret.
  - eapply (sim_bind L _ _ (fun a b L' => a = b /\ L' = L)).
    + assert ((k ← (bc ← Ramp.bottom_center set_iter r;
                    Ok (_distance_squared (Ramp.as_float x) bc));
               Ok (acc ++ [(k, x)])) =
              (bc ← Ramp.bottom_center set_iter r;
               Ok (acc ++ [(_distance_squared (Ramp.as_float x) bc, x)]))) as ->
        by (by destruct (Ramp.bottom_center set_iter r)).
      apply sim_bind_val; [apply bottom_center_returns |].
      intros bc _. by apply sim_ret.
    + intros a b L' _ [-> ->]. apply IH.
Qed.

Lemma upper2_returns :
  returns_set (upper2_for_ramp_wall set_iter r)
    (GridSet <$> Ramp.upper2_for_ramp_wall set_iter r).
Proof.
  apply (mutable_cache_returns AUpper2).
  { simpl. by destruct (Ramp.upper2_for_ramp_wall set_iter r). }
  eapply sim_bind_grid_ok; [apply upper_returns |]. intros l Hl.
  eapply sim_bind_deref_grid; [by rewrite lookup_insert_eq |].
  unfold Ramp.upper2_for_ramp_wall. case_decide as Hlarge.
  { simpl. apply sim_alloc_result. }
  eapply sim_bind_grid_ok; [apply upper_returns |]. intros l' Hl'.
  eapply sim_bind_deref_grid; [by rewrite lookup_insert_eq |].
  unfold py_sorted_reverse.
  rewrite fmap_bind_bind.
  eapply sim_bind; [apply sim_keys |].
  intros keys keys' L' _ [-> ->]. apply sim_alloc_result.
Qed.

Lemma lookup_older (L : gmap nat obj) (l l' : nat) (o o' : obj) :
  (<[l := o]> L) !! l' = None -> (<[l' := o']> (<[l := o]> L)) !! l = Some o.
Proof.
  intros Hnew. rewrite lookup_insert_ne; [by rewrite lookup_insert_eq |].
  intros ->. by rewrite lookup_insert_eq in Hnew.
Qed.

Lemma sim_in_middle (radius : F) :
  sim ∅ (in_middle set_iter set_pick r radius)
    (Ramp.in_middle set_iter set_pick radius r) (fun p q _ => p = q).
Proof.
  unfold in_middle, Ramp.in_middle.
  eapply sim_bind_grid; [apply upper2_returns |]. intros l s Hs Hl.
  eapply sim_bind_deref_grid; [by rewrite lookup_insert_eq |].
  case_decide as Hsize; [| apply sim_raise].
  eapply sim_bind_grid; [apply upper2_returns |]. intros l2 s2 Hs2 Hl2.
  eapply sim_bind_pop; [by rewrite lookup_insert_eq |]. intros a s'. cbn beta iota zeta.
  eapply sim_bind_pop; [by rewrite lookup_insert_eq |]. intros b s''. cbn beta iota zeta.
  apply sim_bind_lift. intros ints _.
  apply sim_bind_alloc. intros l3 Hl3.
  eapply sim_bind_grid_ok; [apply lower_returns |]. intros l4 Hl4.
  eapply sim_bind_deref_grid; [by rewrite lookup_insert_eq |].
  apply sim_bind_lift. intros anyLowerPoint _.
  eapply sim_bind_deref_points; [by apply lookup_older |].
  apply sim_lift_result.
Qed.

Lemma barracks_in_middle_returns :
  returns_val (barracks_in_middle set_iter set_pick r)
    (Ramp.barracks_in_middle set_iter set_pick r).
Proof.
  apply (immutable_point_returns ABarracksInMiddle); [done | apply sim_in_middle].
Qed.

Lemma depot_in_middle_returns :
  returns_val (depot_in_middle set_iter set_pick r)
    (Ramp.depot_in_middle set_iter set_pick r).
Proof.
  apply (immutable_point_returns ADepotInMiddle); [done | apply sim_in_middle].
Qed.

Lemma fmap_bind {A B C : Type} (h : B -> C) (D : result A) (k : A -> result B) :
  h <$> (D ≫= k) = D ≫= fun a => h <$> k a.
Proof. by destruct D. Qed.

Lemma fmap_as_bind {A B : Type} (h : A -> B) (D : result A) :
  h <$> D = D ≫= fun a => Ok (h a).
Proof. by destruct D. Qed.

Lemma corner_depots_returns :
  returns_set (corner_depots set_iter set_pick r)
    (PointSet <$> Ramp.corner_depots set_iter set_pick r).
Proof.
  apply (mutable_cache_returns ACornerDepots).
  { simpl. by destruct (Ramp.corner_depots set_iter set_pick r). }
  unfold Ramp.corner_depots. rewrite fmap_bind.
  eapply sim_bind_grid; [apply upper2_returns |]. intros l s Hs Hl.
  eapply sim_bind_deref_grid; [by rewrite lookup_insert_eq |].
  case_decide as Hsize; [| apply sim_raise].
  rewrite fmap_bind.
  eapply sim_bind_grid; [apply upper2_returns |]. intros l2 s2 Hs2 Hl2.
  rewrite fmap_bind.
  eapply sim_bind_pop; [by rewrite lookup_insert_eq |]. intros a s'.
  cbn beta iota zeta. rewrite fmap_bind.
  eapply sim_bind_pop; [by rewrite lookup_insert_eq |]. intros b s''.
  cbn beta iota zeta. rewrite fmap_bind.
  apply sim_bind_val; [apply depot_in_middle_returns |]. intros depotPosition _.
  rewrite fmap_as_bind.
  apply sim_bind_lift. intros ints _. apply sim_alloc_result.
Qed.

Lemma barracks_can_fit_addon_returns :
  returns_val (barracks_can_fit_addon set_iter set_pick r)
    (Ramp.barracks_can_fit_addon set_iter set_pick r).
Proof.
  apply (immutable_bool_returns ABarracksCanFitAddon); [done |].
  unfold Ramp.barracks_can_fit_addon.
  eapply sim_bind_grid; [apply upper2_returns |]. intros l s Hs Hl.
  eapply sim_bind_deref_grid; [by rewrite lookup_insert_eq |].
  case_decide as Hsize; [| apply sim_raise].
  apply sim_bind_val; [apply barracks_in_middle_returns |]. intros barracks _.
  eapply sim_bind_pointset; [apply corner_depots_returns |]. intros l2 ps Hps Hl2.
  eapply sim_bind_deref_points; [by rewrite lookup_insert_eq |].
  apply sim_bind_lift. intros depot _. by apply sim_ret.
Qed.

Lemma barracks_correct_placement_returns :
  returns_val (barracks_correct_placement set_iter set_pick r)
    (Ramp.barracks_correct_placement set_iter set_pick r).
Proof.
  apply (immutable_point_returns ABarracksCorrectPlacement); [done |].
  unfold Ramp.barracks_correct_placement.
  eapply sim_bind_grid; [apply upper2_returns |]. intros l s Hs Hl.
  eapply sim_bind_deref_grid; [by rewrite lookup_insert_eq |].
  case_decide as Hsize; [| apply sim_raise].
  apply sim_bind_val; [apply barracks_can_fit_addon_returns |]. intros fits _.
  destruct fits.
  - apply sim_call_result, barracks_in_middle_returns.
  - apply sim_bind_val; [apply barracks_in_middle_returns |]. intros barracks _.
    by apply sim_ret.
Qed.

(** *** Calls from outside the class *)

(** Every call returns, to the caller's eyes, the value of the property, and
    a set it hands out is a new object that the ramp does not refer to. *)
Lemma access_returns (a : accessor) (σ : state) :
  inv σ ->
  exists res σ', access set_iter set_pick r a σ = (res, σ') /\
    inv σ' /\ extends σ σ' /\
    observe (res, σ') = (Some <$> denote a) /\
    forall l, res = Ok (VRef l) ->
      l ∈ dom (heap σ') /\ (l ∉ dom (heap σ)) /\ ~ protected σ' l.
Proof.
  intros Hinv.
  assert (forall (m : M nat) (D : result obj),
            returns_set m D -> denote a = obs_of <$> D ->
            exists res σ', bind m (fun l => ret (VRef l)) σ = (res, σ') /\
              inv σ' /\ extends σ σ' /\
              observe (res, σ') = (Some <$> denote a) /\
              forall l, res = Ok (VRef l) ->
                l ∈ dom (heap σ') /\ (l ∉ dom (heap σ)) /\ ~ protected σ' l)
    as Hset.
  { intros m D Hm Hden.
    destruct (Hm σ Hinv) as (res & σ' & Heq & Hinv' & Hext & Hres).
    unfold bind. rewrite Heq, Hden. destruct D as [o | e].
    - destruct Hres as (l & -> & Hl & Hnew & Hlp).
      eexists _, _. split; [reflexivity |]. split; [done |]. split; [done |].
      split.
      + unfold observe. simpl. rewrite Hl. by destruct o.
      + intros l' [= <-]. split; [apply elem_of_dom; eauto | done].
    - subst res. eexists _, _. split; [reflexivity |]. split; [done |].
      split; [done |]. split; [done |]. intros l [=]. }
  assert (forall (m : M (F * F)) (D : result (F * F)),
            returns_val m D -> denote a = OPoint <$> D ->
            exists res σ', bind m (fun p => ret (VPoint p)) σ = (res, σ') /\
              inv σ' /\ extends σ σ' /\
              observe (res, σ') = (Some <$> denote a) /\
              forall l, res = Ok (VRef l) ->
                l ∈ dom (heap σ') /\ (l ∉ dom (heap σ)) /\ ~ protected σ' l)
    as Hpoint.
  { intros m D Hm Hden.
    destruct (Hm σ Hinv) as (σ' & Heq & Hinv' & Hext).
    unfold bind. rewrite Heq, Hden. destruct D as [p | e];
      (eexists _, _; split; [reflexivity |]; split; [done |]; split; [done |];
       split; [done |]; intros l [=]). }
  destruct a; simpl access.
  - apply (Hset _ _ points_returns). done.
  - apply (Hset _ _ upper_returns). done.
  - apply (Hset _ _ lower_returns). done.
  - apply (Hpoint _ _ top_center_returns). done.
  - apply (Hpoint _ _ bottom_center_returns). done.
  - apply (Hset _ _ upper2_returns). simpl.
    by destruct (Ramp.upper2_for_ramp_wall set_iter r).
  - apply (Hpoint _ _ barracks_in_middle_returns). done.
  - apply (Hpoint _ _ depot_in_middle_returns). done.
  - apply (Hset _ _ corner_depots_returns). simpl.
    by destruct (Ramp.corner_depots set_iter set_pick r).
  - destruct (barracks_can_fit_addon_returns σ Hinv) as (σ' & Heq & Hinv' & Hext).
    unfold bind. rewrite Heq. simpl.
    destruct (Ramp.barracks_can_fit_addon set_iter set_pick r) as [b | e];
      (eexists _, _; split; [reflexivity |]; split; [done |]; split; [done |];
       split; [done |]; intros l [=]).
  - apply (Hpoint _ _ barracks_correct_placement_returns). done.
Qed.

Lemma inv_new : inv (new r).
Proof. split; [apply lookup_singleton_eq | intros a v [=]]. Qed.

(** In every state the caller can reach, the cache is right and the ramp
    does not refer to a set it handed out. *)
Lemma reachable_inv (σ : state) (handed : gset nat) :
  reachable set_iter set_pick r σ handed ->
  inv σ /\ forall l, l ∈ handed -> l ∈ dom (heap σ) /\ ~ protected σ l.
Proof.
  induction 1 as [| σ handed a res σ' _ [Hinv Hhanded] Heq
                  | σ handed l o _ [Hinv Hhanded] Hl].
  - split; [apply inv_new |]. intros l Hl. by apply not_elem_of_empty in Hl.
  - destruct (access_returns a σ Hinv)
      as (res' & σ'' & Heq' & Hinv' & [Hh Hp] & _ & Hres).
    rewrite Heq in Heq'. injection Heq' as <- <-.
    split; [done |]. intros l Hl. apply elem_of_union in Hl as [Hl | Hl].
    + destruct res as [[l' | |] |]; simpl in Hl;
        try (by apply not_elem_of_empty in Hl).
      apply elem_of_singleton in Hl as ->.
      destruct (Hres l' eq_refl) as (? & _ & ?). done.
    + destruct (Hhanded l Hl) as [Hdom Hlp].
      split; [by apply (subseteq_dom _ _ Hh) |].
      intros Hprot. by apply Hlp, Hp.
  - destruct (Hhanded l Hl) as [Hdom Hlp]. split.
    + by apply inv_store.
    + intros l' Hl'. destruct (Hhanded l' Hl') as [Hdom' Hlp'].
      split; [| done]. simpl. rewrite dom_insert. set_solver.
Qed.

End adequacy.

(** C9: in every state that a caller can reach from a new ramp by calling
    properties and by overwriting the sets that properties returned to it,
    a call of any property shows the caller the value of that property as
    computed from the points and the height map alone; so two calls of the
    same property, in any two such states, show equal values. *)
Theorem cached_properties_stable
    {F : Type} `{FloatOps F} `{Point2Ops F}
    (set_iter : gset Point2 -> list Point2) (set_pick : gset Point2 -> Point2)
    (r : Ramp.t) (σ : RampObject.state (F := F)) (handed : gset nat)
    (a : accessor) :
  reachable set_iter set_pick r σ handed ->
  observe (access set_iter set_pick r a σ)
    = (Some <$> RampObject.denote set_iter set_pick r a) /\
  forall σ' handed', reachable set_iter set_pick r σ' handed' ->
    observe (access set_iter set_pick r a σ')
      = observe (access set_iter set_pick r a σ).
Proof.
  assert (forall σ1 handed1, reachable set_iter set_pick r σ1 handed1 ->
            observe (access set_iter set_pick r a σ1)
              = (Some <$> RampObject.denote set_iter set_pick r a)) as Hall.
  { intros σ1 handed1 Hreach.
    destruct (reachable_inv set_iter set_pick r σ1 handed1 Hreach) as [Hinv _].
    destruct (access_returns set_iter set_pick r a σ1 Hinv)
      as (res & σ' & Heq & _ & _ & Hobs & _).
    by rewrite Heq. }
  intros Hreach. split; [by apply (Hall σ handed) |].
  intros σ' handed' Hreach'.
  by rewrite (Hall σ handed), (Hall σ' handed').
Qed.

Lemma cached_properties_stable_witness :
  let call := access (F := Q) elements FindGroupsSpec.first_elem
                RampSpec.small_ramp in
  let σ := mutate 7 (GridSet ∅) (snd (call AUpper2 (new RampSpec.small_ramp))) in
  observe (call ABarracksInMiddle σ)
    = (Some <$> RampObject.denote elements FindGroupsSpec.first_elem
                  RampSpec.small_ramp ABarracksInMiddle) /\
  forall σ' handed',
    reachable elements FindGroupsSpec.first_elem RampSpec.small_ramp σ' handed' ->
    observe (call ABarracksInMiddle σ') = observe (call ABarracksInMiddle σ).
Proof.
  intros call σ.
  apply (cached_properties_stable (F := Q) elements FindGroupsSpec.first_elem
           RampSpec.small_ramp σ
           (handed_out (fst (call AUpper2 (new RampSpec.small_ramp))) ∪ ∅)
           ABarracksInMiddle).
  apply reachable_mutate.
  - apply (reachable_call elements FindGroupsSpec.first_elem RampSpec.small_ramp
             (new RampSpec.small_ramp) ∅ AUpper2
             (fst (call AUpper2 (new RampSpec.small_ramp)))
             (snd (call AUpper2 (new RampSpec.small_ramp)))).
    + apply reachable_new.
    + apply surjective_pairing.
  - assert (fst (call AUpper2 (new RampSpec.small_ramp)) = Ok (VRef 7)) as ->
      by (vm_compute; reflexivity).
    simpl. set_solver.
Defined.

End RampObjectProofs.

(** ** More on the flood fill: what the groups are, and points off the map *)

Module FindGroupsMore.
Import FindGroups Adjacency FindGroupsSpec FindGroupsProofs PictureIndex.

(** *** Every point has a cluster *)

Lemma not_closed_step (d : Z) (P S : gset Point2) :
  ~ closed_in d P S -> exists s q, s ∈ S /\ q ∈ P /\ (q ∉ S) /\ adjacent d s q.
Proof.
  intros Hnot.
  destruct (decide (set_Forall (fun s => set_Forall (fun q => manhattan s q <= d -> q ∈ S) P) S))
    as [Hall | Hex].
  - exfalso. apply Hnot. intros s q Hs Hq Hadj. by apply (Hall s Hs q Hq).
  - apply (not_set_Forall_Exists _) in Hex as (s & Hs & Hex). simpl in Hex.
    apply (not_set_Forall_Exists _) in Hex as (q & Hq & Hex). simpl in Hex.
    exists s, q. split; [done |]. split; [done |].
    destruct (decide (q ∈ S)) as [HqS | HqS]; [exfalso; by apply Hex |].
    split; [done |].
    destruct (decide (manhattan s q <= d)) as [Hadj | Hadj]; [done |].
    exfalso. apply Hex. intros ?. done.
Qed.

Lemma cluster_grows (d : Z) (P : gset Point2) (p : Point2) (n : nat) :
  forall S : gset Point2,
    size (P ∖ S) = n -> S ⊆ P -> p ∈ S ->
    (forall s, s ∈ S -> reachable d S p s) ->
    exists C, p ∈ C /\ component d P C.
Proof.
  induction n as [n IH] using lt_wf_ind. intros S Hn HSP Hp Hreach.
  destruct (decide (set_Forall (fun s => set_Forall (fun q => manhattan s q <= d -> q ∈ S) P) S))
    as [Hall | Hex].
  - exists S. split; [done |]. split; [set_solver |]. split; [done |]. split.
    + intros a b Ha Hb. etrans; [| by apply Hreach].
      apply reachable_sym; [done | by apply Hreach].
    + intros s q Hs Hq Hadj. by apply (Hall s Hs q Hq).
  - destruct (not_closed_step d P S) as (s & q & Hs & Hq & HqS & Hadj).
    { intros Hcl. apply Hex. intros s Hs q Hq Hadj. by apply (Hcl s q). }
    apply (IH (size (P ∖ ({[q]} ∪ S)))) with (S := {[q]} ∪ S).
    + subst n. rewrite (size_remove (P ∖ S) q) by set_solver.
      replace (P ∖ S ∖ {[q]}) with (P ∖ ({[q]} ∪ S)) by set_solver. lia.
    + done.
    + set_solver.
    + set_solver.
    + intros t Ht. apply elem_of_union in Ht as [Ht | Ht].
      * apply elem_of_singleton in Ht as ->.
        eapply rtc_r; [apply (reachable_mono d S); [set_solver | by apply Hreach] |].
        split; [set_solver | done].
      * apply (reachable_mono d S); [set_solver | by apply Hreach].
Qed.

(** Every point of [P] lies in a maximal connected cluster of [P]. *)
Lemma cluster_exists (d : Z) (P : gset Point2) (p : Point2) :
  p ∈ P -> exists C, p ∈ C /\ component d P C.
Proof.
  intros Hp. apply (cluster_grows d P p (size (P ∖ {[p]})) {[p]}).
  - done.
  - set_solver.
  - set_solver.
  - intros s Hs. apply elem_of_singleton in Hs as ->. constructor.
Qed.

Lemma pairwise_disjoint_NoDup (groups : list (gset Point2)) :
  pairwise_disjoint groups -> (forall G, G ∈ groups -> G <> ∅) -> NoDup groups.
Proof.
  intros Hpd Hne. apply NoDup_alt. intros i j G Hi Hj.
  destruct (decide (i = j)) as [| Hij]; [done |]. exfalso.
  apply (Hne G); [by eapply list_elem_of_lookup_2 |].
  pose proof (Hpd i j G G Hij Hi Hj). set_solver.
Qed.

(** *** Painting a cell that the picture does not have *)

Lemma py_index_ok (len : nat) (i : Z) :
  index_ok (Z.of_nat len) i -> exists n, py_index len i = Ok n /\ (n < len)%nat.
Proof.
  intros [Hlo Hhi]. unfold py_index.
  destruct (decide (0 <= i)) as [Hnn | Hneg].
  - rewrite decide_True by lia. exists (Z.to_nat i). split; [done | lia].
  - rewrite decide_False by lia. rewrite decide_True by lia.
    exists (Z.to_nat (Z.of_nat len + i)). split; [done | lia].
Qed.

Lemma py_index_bad (len : nat) (i : Z) :
  ~ index_ok (Z.of_nat len) i -> py_index len i = Raise IndexError.
Proof.
  unfold index_ok. intros Hbad. unfold py_index.
  rewrite decide_False by lia. by rewrite decide_False by lia.
Qed.

Lemma index_ok_to_nat (n i : Z) : index_ok (Z.of_nat (Z.to_nat n)) i <-> index_ok n i.
Proof. unfold index_ok. lia. Qed.

Section painting.

Variables map_width map_height : Z.

Local Abbreviation pic_wf := (FindGroupsSpec.pic_wf map_width map_height).
Local Abbreviation paintable := (PictureIndex.paintable map_width map_height).

Lemma paint_paintable pic p c :
  pic_wf pic -> paintable p -> exists pic', paint pic p c = Ok pic' /\ pic_wf pic'.
Proof.
  intros [Hlen Hrows] [Hx Hy]. unfold paint, py_getitem, py_setitem.
  destruct (py_index_ok (length pic) (py p)) as (n & -> & Hn).
  { rewrite Hlen. by apply index_ok_to_nat. }
  simpl. destruct (lookup_lt_is_Some_2 pic n Hn) as [row Hrow]. rewrite Hrow.
  simpl. pose proof (Hrows n row Hrow) as Hrl.
  destruct (py_index_ok (length row) (px p)) as (k & -> & Hk).
  { rewrite Hrl. by apply index_ok_to_nat. }
  simpl. eexists. split; [done |]. split; [by rewrite length_insert |].
  intros i r Hr. apply list_lookup_insert_Some in Hr as [(_ & <- & _) | [_ Hr]].
  - by rewrite length_insert.
  - by eapply Hrows.
Qed.

Lemma paint_not_paintable pic p c :
  pic_wf pic -> ~ paintable p -> paint pic p c = Raise IndexError.
Proof.
  intros [Hlen Hrows] Hbad. unfold paint, py_getitem, py_setitem.
  destruct (decide (index_ok map_height (py p))) as [Hy | Hy].
  - destruct (py_index_ok (length pic) (py p)) as (n & -> & Hn).
    { rewrite Hlen. by apply index_ok_to_nat. }
    simpl. destruct (lookup_lt_is_Some_2 pic n Hn) as [row Hrow]. rewrite Hrow.
    simpl. rewrite py_index_bad; [done |].
    rewrite (Hrows n row Hrow), index_ok_to_nat. intros Hx. by apply Hbad.
  - rewrite py_index_bad; [done |]. by rewrite Hlen, index_ok_to_nat.
Qed.

Lemma paint_all_not_paintable (l : list Point2) pic c :
  pic_wf pic -> (exists p, p ∈ l /\ ~ paintable p) ->
  for_each (fun point pic => paint pic point c) l pic = Raise IndexError.
Proof.
  revert pic. induction l as [| q l IH]; intros pic Hwf (p & Hp & Hbad).
  - by apply elem_of_nil in Hp.
  - simpl. destruct (decide (paintable q)) as [Hq | Hq].
    + destruct (paint_paintable pic q c Hwf Hq) as (pic' & -> & Hwf'). simpl.
      apply IH; [done |]. exists p. split; [| done].
      apply elem_of_cons in Hp as [-> | Hp]; [done | done].
    + by rewrite paint_not_paintable.
Qed.

End painting.

End FindGroupsMore.

(** ** Further properties of the flood fill *)

Module FindGroupsFacts.
Import FindGroups Adjacency FindGroupsSpec FindGroupsProofs PictureIndex Samples.
Import FindGroupsMore.

Lemma rev_elements_perm (s : gset Point2) : rev_elements s ≡ₚ elements s.
Proof. apply reverse_Permutation. Qed.

Lemma last_elem_in (s : gset Point2) : s <> ∅ -> last_elem s ∈ s.
Proof.
  intros Hne. unfold last_elem. destruct (list.last (elements s)) as [x |] eqn:Hlast.
  - simpl. apply last_Some in Hlast as [l Hl].
    apply (proj1 (elem_of_elements s x)). rewrite Hl. apply elem_of_app. right. by left.
  - apply last_None in Hlast. apply elements_empty_inv in Hlast.
    exfalso. apply Hne. by apply leibniz_equiv.
Qed.

Lemma in_map_small (W H : Z) (points : gset Point2) :
  Forall (fun p => bool_decide (0 <= px p < W /\ 0 <= py p < H)) (elements points) ->
  forall p, p ∈ points -> in_map W H p.
Proof.
  intros Hall p Hp. apply elem_of_elements in Hp.
  apply (proj1 (list.Forall_forall _ _) Hall) in Hp.
  by apply bool_decide_unpack in Hp.
Qed.

(** X1: The offsets of [nearby] are the integer points of the diamond
    |dx| + |dy| <= [max_distance_between_points], so the cells the inner loop
    looks at from [base] are the cells within that Manhattan distance of
    [base]. *)
Theorem nearby_is_diamond (max_distance_between_points : Z) :
  (forall off : Point2,
     off ∈ nearby max_distance_between_points <->
     Z.abs (px off) + Z.abs (py off) <= max_distance_between_points) /\
  (forall base q : Point2,
     (exists off, off ∈ nearby max_distance_between_points /\
                  q = (px base + px off, py base + py off)) <->
     manhattan base q <= max_distance_between_points) /\
  (nearby max_distance_between_points = ∅ <-> max_distance_between_points < 0).
Proof.
  split; [apply elem_of_nearby |]. split.
  - intros base q. split.
    + intros (off & Hoff & ->). apply elem_of_nearby in Hoff.
      unfold manhattan, px, py in *. simpl. lia.
    + intros Hd. exists (px q - px base, py q - py base). split.
      * apply elem_of_nearby. unfold manhattan, px, py in *. simpl. lia.
      * destruct q as [x y]. unfold px, py. simpl. f_equal; lia.
  - split.
    + intros Hemp. destruct (decide (max_distance_between_points < 0)); [done |].
      exfalso. apply (not_elem_of_empty (C := gset Point2) (0, 0)).
      rewrite <- Hemp. apply elem_of_nearby. unfold px, py. simpl. lia.
    + intros Hneg. apply set_eq. intros off. rewrite elem_of_nearby. split.
      * lia.
      * intros Hin. by apply not_elem_of_empty in Hin.
Qed.

(** X2: On a point set of the map, every group that [_find_groups] returns is a
    whole cluster: it is not empty, it consists of input points, no input
    point outside it is within [max_distance_between_points] of one of its
    points, and it has at least [minimum_points_per_group] points; and no
    group is returned twice. *)
Theorem find_groups_returns_whole_clusters
    (set_iter : gset Point2 -> list Point2) (set_pick : gset Point2 -> Point2)
    (map_width map_height : Z) (points : gset Point2)
    (minimum_points_per_group max_distance_between_points : Z) :
  (forall s, set_iter s ≡ₚ elements s) ->
  (forall s, s <> ∅ -> set_pick s ∈ s) ->
  (forall p, p ∈ points -> in_map map_width map_height p) ->
  exists groups,
    _find_groups set_iter set_pick map_width map_height points
      minimum_points_per_group max_distance_between_points = Ok groups /\
    NoDup groups /\
    forall G, G ∈ groups ->
      G <> ∅ /\ G ⊆ points /\
      (forall p q, p ∈ G -> q ∈ points ->
         manhattan p q <= max_distance_between_points -> q ∈ G) /\
      minimum_points_per_group <= Z.of_nat (size G).
Proof.
  intros Hiter Hpick Hin.
  destruct (find_groups_spec set_iter set_pick Hiter Hpick map_width map_height
              points minimum_points_per_group max_distance_between_points Hin)
    as (groups & Hrun & Hcomp & Hpd & _).
  exists groups. split; [done |]. split.
  - apply pairwise_disjoint_NoDup; [done |].
    intros G HG. by destruct (Hcomp G HG) as ((? & _) & _).
  - intros G HG. destruct (Hcomp G HG) as ((Hne & Hsub & _ & Hcl) & _ & Hsz).
    split; [done |]. split; [done |]. split; [| done].
    intros p q Hp Hq Hadj. by apply (Hcl p q).
Qed.

Lemma find_groups_returns_whole_clusters_witness :
  exists groups,
    _find_groups elements first_elem 4 3 {[ (0, 0); (1, 0); (3, 2) ]} 1 1
      = Ok groups /\
    NoDup groups /\
    forall G, G ∈ groups ->
      G <> ∅ /\ G ⊆ {[ (0, 0); (1, 0); (3, 2) ]} /\
      (forall p q, p ∈ G -> q ∈ ({[ (0, 0); (1, 0); (3, 2) ]} : gset Point2) ->
         manhattan p q <= 1 -> q ∈ G) /\
      1 <= Z.of_nat (size G).
Proof.
  apply (find_groups_returns_whole_clusters elements first_elem 4 3
           {[ (0, 0); (1, 0); (3, 2) ]} 1 1 elements_perm_refl first_elem_in).
  apply in_map_small. vm_compute. repeat constructor.
Defined.

(** X3: The groups do not depend on the order in which the sets are iterated
    and popped: two runs on the same point set of the map return the same
    groups, up to the order of the list. *)
Theorem find_groups_order_independent
    (set_iter set_iter' : gset Point2 -> list Point2)
    (set_pick set_pick' : gset Point2 -> Point2)
    (map_width map_height : Z) (points : gset Point2)
    (minimum_points_per_group max_distance_between_points : Z) :
  (forall s, set_iter s ≡ₚ elements s) ->
  (forall s, s <> ∅ -> set_pick s ∈ s) ->
  (forall s, set_iter' s ≡ₚ elements s) ->
  (forall s, s <> ∅ -> set_pick' s ∈ s) ->
  (forall p, p ∈ points -> in_map map_width map_height p) ->
  exists groups groups',
    _find_groups set_iter set_pick map_width map_height points
      minimum_points_per_group max_distance_between_points = Ok groups /\
    _find_groups set_iter' set_pick' map_width map_height points
      minimum_points_per_group max_distance_between_points = Ok groups' /\
    groups ≡ₚ groups'.
Proof.
  intros Hiter Hpick Hiter' Hpick' Hin.
  destruct (find_groups_spec set_iter set_pick Hiter Hpick map_width map_height
              points minimum_points_per_group max_distance_between_points Hin)
    as (groups & Hrun & Hcomp & Hpd & Hall).
  destruct (find_groups_spec set_iter' set_pick' Hiter' Hpick' map_width map_height
              points minimum_points_per_group max_distance_between_points Hin)
    as (groups' & Hrun' & Hcomp' & Hpd' & Hall').
  exists groups, groups'. split; [done |]. split; [done |].
  apply NoDup_Permutation.
  - apply pairwise_disjoint_NoDup; [done |].
    intros G HG. by destruct (Hcomp G HG) as ((? & _) & _).
  - apply pairwise_disjoint_NoDup; [done |].
    intros G HG. by destruct (Hcomp' G HG) as ((? & _) & _).
  - intros G. split; intros HG.
    + destruct (Hcomp G HG) as (HC & Hd & Hsz). by apply Hall'.
    + destruct (Hcomp' G HG) as (HC & Hd & Hsz). by apply Hall.
Qed.

Lemma find_groups_order_independent_witness :
  exists groups groups',
    _find_groups elements first_elem 4 3 {[ (0, 0); (1, 0); (3, 2) ]} 1 1
      = Ok groups /\
    _find_groups rev_elements last_elem 4 3 {[ (0, 0); (1, 0); (3, 2) ]} 1 1
      = Ok groups' /\
    groups ≡ₚ groups'.
Proof.
  apply (find_groups_order_independent elements rev_elements first_elem last_elem
           4 3 {[ (0, 0); (1, 0); (3, 2) ]} 1 1
           elements_perm_refl first_elem_in rev_elements_perm last_elem_in).
  apply in_map_small. vm_compute. repeat constructor.
Defined.

(** X4: On a point set of the map, with [minimum_points_per_group] at most 1
    nothing is dropped: the
    returned groups cover the input, each input point lying in one group
    (at one position of the list). *)
Theorem find_groups_partition
    (set_iter : gset Point2 -> list Point2) (set_pick : gset Point2 -> Point2)
    (map_width map_height : Z) (points : gset Point2)
    (minimum_points_per_group max_distance_between_points : Z) :
  (forall s, set_iter s ≡ₚ elements s) ->
  (forall s, s <> ∅ -> set_pick s ∈ s) ->
  (forall p, p ∈ points -> in_map map_width map_height p) ->
  minimum_points_per_group <= 1 ->
  exists groups,
    _find_groups set_iter set_pick map_width map_height points
      minimum_points_per_group max_distance_between_points = Ok groups /\
    (forall G p, G ∈ groups -> p ∈ G -> p ∈ points) /\
    (forall p, p ∈ points ->
       exists i G, groups !! i = Some G /\ p ∈ G /\
         forall j G', groups !! j = Some G' -> p ∈ G' -> j = i).
Proof.
  intros Hiter Hpick Hin Hmin.
  destruct (find_groups_spec set_iter set_pick Hiter Hpick map_width map_height
              points minimum_points_per_group max_distance_between_points Hin)
    as (groups & Hrun & Hcomp & Hpd & Hall).
  exists groups. split; [done |]. split.
  - intros G p HG Hp. destruct (Hcomp G HG) as ((_ & Hsub & _) & _).
    by apply Hsub.
  - intros p Hp.
    destruct (cluster_exists max_distance_between_points points p Hp)
      as (C & HpC & HC).
    assert (C ∈ groups) as HCg.
    { apply Hall; [done | set_solver |].
      assert (size C <> 0%nat); [| lia].
      intros Hz. apply size_empty_iff in Hz. set_solver. }
    apply list_elem_of_lookup_1 in HCg as [i Hi].
    exists i, C. split; [done |]. split; [done |].
    intros j G' Hj HpG'. destruct (decide (j = i)) as [| Hne]; [done |].
    exfalso. by apply (Hpd j i G' C Hne Hj Hi p).
Qed.

Lemma find_groups_partition_witness :
  exists groups,
    _find_groups elements first_elem 4 3 {[ (0, 0); (1, 0); (3, 2) ]} 1 1
      = Ok groups /\
    (forall G p, G ∈ groups -> p ∈ G ->
       p ∈ ({[ (0, 0); (1, 0); (3, 2) ]} : gset Point2)) /\
    (forall p, p ∈ ({[ (0, 0); (1, 0); (3, 2) ]} : gset Point2) ->
       exists i G, groups !! i = Some G /\ p ∈ G /\
         forall j G', groups !! j = Some G' -> p ∈ G' -> j = i).
Proof.
  apply (find_groups_partition elements first_elem 4 3
           {[ (0, 0); (1, 0); (3, 2) ]} 1 1 elements_perm_refl first_elem_in).
  - apply in_map_small. vm_compute. repeat constructor.
  - lia.
Defined.

(** X5: A point for which the picture has no cell ([x] outside
    [-map_width .. map_width - 1] or [y] outside
    [-map_height .. map_height - 1]) makes [_find_groups] raise
    [IndexError] while it paints the input. *)
Theorem find_groups_off_picture
    (set_iter : gset Point2 -> list Point2) (set_pick : gset Point2 -> Point2)
    (map_width map_height : Z) (points : gset Point2)
    (minimum_points_per_group max_distance_between_points : Z) :
  (forall s, set_iter s ≡ₚ elements s) ->
  (exists p, p ∈ points /\ ~ paintable map_width map_height p) ->
  _find_groups set_iter set_pick map_width map_height points
    minimum_points_per_group max_distance_between_points = Raise IndexError.
Proof.
  intros Hiter (p & Hp & Hbad). unfold _find_groups.
  rewrite (paint_all_not_paintable map_width map_height); [done | |].
  - apply blank_picture_wf.
  - exists p. split; [| done]. rewrite (Hiter points). by apply elem_of_elements.
Qed.

Lemma find_groups_off_picture_witness :
  _find_groups elements first_elem 4 3 {[ (0, 0); (4, 1) ]} 1 1 = Raise IndexError.
Proof.
  apply (find_groups_off_picture elements first_elem 4 3 {[ (0, 0); (4, 1) ]} 1 1
           elements_perm_refl).
  exists (4, 1). split; [set_solver |]. vm_compute. intros [[_ Hx] _]. done.
Defined.

Lemma reachable_nonpositive (d : Z) (G : gset Point2) (p q : Point2) :
  d <= 0 -> reachable d G p q -> q = p.
Proof.
  intros Hd Hr. induction Hr as [x | x y z [_ Hadj] _ IH]; [done |].
  rewrite IH. unfold adjacent, manhattan in Hadj.
  destruct x as [x1 x2], y as [y1 y2]. unfold px, py in Hadj. simpl in Hadj.
  f_equal; lia.
Qed.

(** X6: The edges of the input: without points there are no groups; and with
    [max_distance_between_points] at most 0 no point has a neighbour but
    itself, so every group is a single point, and nothing is returned when
    [minimum_points_per_group] is 2 or more. *)
Theorem find_groups_degenerate_inputs
    (set_iter : gset Point2 -> list Point2) (set_pick : gset Point2 -> Point2)
    (map_width map_height : Z) (points : gset Point2)
    (minimum_points_per_group max_distance_between_points : Z) :
  (forall s, set_iter s ≡ₚ elements s) ->
  (forall s, s <> ∅ -> set_pick s ∈ s) ->
  (forall p, p ∈ points -> in_map map_width map_height p) ->
  exists groups,
    _find_groups set_iter set_pick map_width map_height points
      minimum_points_per_group max_distance_between_points = Ok groups /\
    (points = ∅ -> groups = []) /\
    (max_distance_between_points <= 0 ->
       (forall G, G ∈ groups -> exists p, G = {[p]}) /\
       (2 <= minimum_points_per_group -> groups = [])).
Proof.
  intros Hiter Hpick Hin.
  destruct (find_groups_spec set_iter set_pick Hiter Hpick map_width map_height
              points minimum_points_per_group max_distance_between_points Hin)
    as (groups & Hrun & Hcomp & _ & _).
  exists groups. split; [done |]. split.
  - intros ->. destruct groups as [| G groups]; [done |]. exfalso.
    destruct (Hcomp G) as ((Hne & Hsub & _) & _); [by left |].
    apply Hne. set_solver.
  - intros Hd.
    assert (forall G, G ∈ groups -> exists p, G = {[p]}) as Hsingle.
    { intros G HG. destruct (Hcomp G HG) as ((Hne & _ & Hconn & _) & _).
      destruct (set_choose_or_empty G) as [[p Hp] | Hemp]; [| set_solver].
      exists p. apply set_eq. intros q. rewrite elem_of_singleton. split.
      - intros Hq.
        by apply (reachable_nonpositive max_distance_between_points G p q Hd), Hconn.
      - by intros ->. }
    split; [done |]. intros Hmin.
    destruct groups as [| G groups]; [done |]. exfalso.
    destruct (Hsingle G) as [p ->]; [by left |].
    destruct (Hcomp {[p]}) as (_ & _ & Hsz); [by left |].
    rewrite size_singleton in Hsz. lia.
Qed.

Lemma find_groups_degenerate_inputs_witness :
  exists groups,
    _find_groups elements first_elem 4 3 {[ (0, 0); (1, 0); (3, 2) ]} 1 0
      = Ok groups /\
    (({[ (0, 0); (1, 0); (3, 2) ]} : gset Point2) = ∅ -> groups = []) /\
    (0 <= 0 ->
       (forall G, G ∈ groups -> exists p, G = {[p]}) /\
       (2 <= 1 -> groups = [])).
Proof.
  apply (find_groups_degenerate_inputs elements first_elem 4 3
           {[ (0, 0); (1, 0); (3, 2) ]} 1 0 elements_perm_refl first_elem_in).
  apply in_map_small. vm_compute. repeat constructor.
Defined.

End FindGroupsFacts.

(** ** More on the ramp geometry *)

Module RampFacts.
Import Ramp QFloat RampSpec RampProofs WallErrors Samples.
Import FindGroupsSpec FindGroupsProofs.

Local Abbreviation size := stdpp.base.size (only parsing).

Section levels.

Variable set_iter : gset Point2 -> list Point2.
Hypothesis set_iter_perm : forall s, set_iter s ≡ₚ elements s.

Lemma upper_empty_iff (r : Ramp.t) :
  upper set_iter r = ∅ <-> forall p, p ∈ _points r -> height_at r p < -10000.
Proof.
  destruct (upper_level set_iter set_iter_perm r) as (M & Hb & HU & Hmax & Hatt).
  split.
  - intros Hemp p Hp. pose proof (Hmax p Hp) as Hle.
    assert (height_at r p <> M) as Hne.
    { intros Heq. apply (not_elem_of_empty (C := gset Point2) p).
      rewrite <- Hemp. by apply HU. }
    destruct Hatt as [-> | (q & Hq & Hhq)]; [lia |].
    exfalso. apply (not_elem_of_empty (C := gset Point2) q).
    rewrite <- Hemp. by apply HU.
  - intros Hlow. apply set_eq. intros p. split.
    + intros Hp. apply HU in Hp as [Hp Hh]. specialize (Hlow p Hp). lia.
    + intros Hp. by apply not_elem_of_empty in Hp.
Qed.

Lemma lower_empty_iff (r : Ramp.t) :
  lower set_iter r = ∅ <-> forall p, p ∈ _points r -> 10000 < height_at r p.
Proof.
  destruct (lower_level set_iter set_iter_perm r) as (M & Hb & HL & Hmin & Hatt).
  split.
  - intros Hemp p Hp. pose proof (Hmin p Hp) as Hle.
    assert (height_at r p <> M) as Hne.
    { intros Heq. apply (not_elem_of_empty (C := gset Point2) p).
      rewrite <- Hemp. by apply HL. }
    destruct Hatt as [-> | (q & Hq & Hhq)]; [lia |].
    exfalso. apply (not_elem_of_empty (C := gset Point2) q).
    rewrite <- Hemp. by apply HL.
  - intros Hhigh. apply set_eq. intros p. split.
    + intros Hp. apply HL in Hp as [Hp Hh]. specialize (Hhigh p Hp). lia.
    + intros Hp. by apply not_elem_of_empty in Hp.
Qed.

Variable set_iter' : gset Point2 -> list Point2.
Hypothesis set_iter_perm' : forall s, set_iter' s ≡ₚ elements s.

Lemma upper_any_order (r : Ramp.t) : upper set_iter' r = upper set_iter r.
Proof.
  destruct (upper_level set_iter set_iter_perm r) as (M & Hb & HU & Hmax & Hatt).
  destruct (upper_level set_iter' set_iter_perm' r) as (M' & Hb' & HU' & Hmax' & Hatt').
  assert (M = M') as <-.
  { destruct Hatt as [-> | (p & Hp & <-)], Hatt' as [-> | (p' & Hp' & <-)].
    - done.
    - pose proof (Hmax p' Hp'). lia.
    - pose proof (Hmax' p Hp). lia.
    - pose proof (Hmax p' Hp'). pose proof (Hmax' p Hp). lia. }
  apply set_eq. intros p. by rewrite HU, HU'.
Qed.

Lemma lower_any_order (r : Ramp.t) : lower set_iter' r = lower set_iter r.
Proof.
  destruct (lower_level set_iter set_iter_perm r) as (M & Hb & HL & Hmin & Hatt).
  destruct (lower_level set_iter' set_iter_perm' r) as (M' & Hb' & HL' & Hmin' & Hatt').
  assert (M = M') as <-.
  { destruct Hatt as [-> | (p & Hp & <-)], Hatt' as [-> | (p' & Hp' & <-)].
    - done.
    - pose proof (Hmin p' Hp'). lia.
    - pose proof (Hmin' p Hp). lia.
    - pose proof (Hmin p' Hp'). pose proof (Hmin' p Hp). lia. }
  apply set_eq. intros p. by rewrite HL, HL'.
Qed.

End levels.

(** *** Sums and centres *)

Lemma foldl_add (a : Z) (l : list Z) : foldl Z.add a l = a + foldl Z.add 0 l.
Proof.
  revert a. induction l as [| y l IH]; intros a; simpl; [lia |].
  rewrite (IH (a + y)), (IH (0 + y)). lia.
Qed.

Lemma py_sum_cons (x : Z) (l : list Z) : py_sum (x :: l) = x + py_sum l.
Proof. unfold py_sum. simpl. rewrite (foldl_add (0 + x) l). lia. Qed.

Lemma py_sum_perm (l l' : list Z) : l ≡ₚ l' -> py_sum l = py_sum l'.
Proof.
  induction 1 as [| x l l' _ IH | x y l | l l' l'' _ IH1 _ IH2].
  - done.
  - by rewrite !py_sum_cons, IH.
  - rewrite !py_sum_cons. lia.
  - by rewrite IH1.
Qed.

Lemma center_of_any_order {F : Type} `{FloatOps F}
    (set_iter set_iter' : gset Point2 -> list Point2) (s : gset Point2) :
  (forall s, set_iter s ≡ₚ elements s) -> (forall s, set_iter' s ≡ₚ elements s) ->
  center_of (F := F) set_iter' s = center_of set_iter s.
Proof.
  intros Hperm Hperm'. unfold center_of.
  rewrite (py_sum_perm (px <$> set_iter' s) (px <$> set_iter s))
    by (by rewrite Hperm, Hperm').
  by rewrite (py_sum_perm (py <$> set_iter' s) (py <$> set_iter s))
    by (by rewrite Hperm, Hperm').
Qed.

Lemma center_of_raises {F : Type} `{FloatOps F}
    (set_iter : gset Point2 -> list Point2) (s : gset Point2) (e : exn) :
  center_of (F := F) set_iter s = Raise e -> e = ZeroDivisionError /\ s = ∅.
Proof.
  unfold center_of. case_decide as Hz; [| done]. intros [= <-]. split; [done |].
  by apply size_empty_iff, leibniz_equiv in Hz.
Qed.

(** *** The wall points *)

Section wall.

Context {F : Type} `{FloatOps F} `{Point2Ops F}.

Variable set_iter : gset Point2 -> list Point2.
Hypothesis set_iter_perm : forall s, set_iter s ≡ₚ elements s.

(** The three ways [upper2_for_ramp_wall] ends. *)
Lemma upper2_cases (r : Ramp.t) :
  (upper2_for_ramp_wall (F := F) set_iter r = Ok ∅ /\
   ((5 < size (upper set_iter r))%nat \/ upper set_iter r = ∅)) \/
  (upper2_for_ramp_wall (F := F) set_iter r = Raise ZeroDivisionError /\
   (1 <= size (upper set_iter r) <= 5)%nat /\ lower set_iter r = ∅) \/
  (exists (bc : F * F),
     bottom_center set_iter r = Ok bc /\
     upper2_for_ramp_wall set_iter r =
       Ok (list_to_set (take 2 (ByKeySpec.sorted_desc_by (wall_key bc)
                                  (set_iter (upper set_iter r))))) /\
     (1 <= size (upper set_iter r) <= 5)%nat /\ lower set_iter r <> ∅).
Proof.
  destruct (decide (5 < size (upper set_iter r))%nat) as [Hlarge | Hsmall].
  { left. split; [by apply upper2_large | by left]. }
  destruct (decide (upper set_iter r = ∅)) as [Hemp | Hne].
  { left. split; [by apply upper2_no_upper | by right]. }
  assert (1 <= size (upper set_iter r) <= 5)%nat as Hsz.
  { split; [| lia]. assert (size (upper set_iter r) <> 0%nat); [| lia].
    intros Hz. by apply size_empty_iff, leibniz_equiv in Hz. }
  right. destruct (bottom_center (F := F) set_iter r) as [bc | e] eqn:Hbc.
  - right. exists bc. split; [done |]. split; [apply upper2_small; [lia | done] |].
    split; [done |]. by apply center_of_ok_inv in Hbc.
  - left. apply center_of_raises in Hbc as Hbc'. destruct Hbc' as [-> Hlow].
    split; [apply upper2_raise; [done | done | lia | done] | done].
Qed.

Lemma upper2_subseteq (r : Ramp.t) (u : gset Point2) :
  upper2_for_ramp_wall (F := F) set_iter r = Ok u ->
  u ⊆ upper set_iter r /\ size u = (if decide (5 < size (upper set_iter r))%nat
                                     then 0 else size (upper set_iter r) `min` 2)%nat.
Proof.
  intros Hu.
  destruct (upper2_cases r) as [[Hrun Hcase] | [[Hrun _] | (bc & _ & Hrun & Hsz & _)]];
    rewrite Hrun in Hu; [| done |].
  - injection Hu as <-. split; [set_solver |]. rewrite size_empty.
    destruct Hcase as [Hlarge | Hemp].
    + by rewrite decide_True.
    + rewrite Hemp, size_empty. by case_decide.
  - injection Hu as <-. split.
    + intros p Hp. apply elem_of_list_to_set in Hp.
      apply (subseteq_take 2) in Hp.
      rewrite (ByKeyProofs.sorted_desc_by_perm (wall_key bc)) in Hp.
      by rewrite <- (list_to_set_set_iter set_iter set_iter_perm (upper set_iter r)),
        elem_of_list_to_set.
    + rewrite decide_False by lia. by apply size_take_2_sorted.
Qed.

End wall.

(** *** What ends a wall placement operation *)

Section outcomes.

Context {F : Type} `{FloatOps F} `{Point2Ops F}.

Variable set_iter : gset Point2 -> list Point2.
Variable set_pick : gset Point2 -> Point2.
Hypothesis set_iter_perm : forall s, set_iter s ≡ₚ elements s.
Hypothesis set_pick_elem : forall s, s <> ∅ -> set_pick s ∈ s.

Lemma intersect_raises (p1 p2 : F * F) (radius : F) (e : exn) :
  intersect p1 p2 radius = Raise e -> e = GeometryError.
Proof. unfold intersect. destruct (circle_intersection p1 p2 radius); by intros [= <-]. Qed.

Lemma py_max_raises {A : Type} (key : A -> F) (l : list A) (e : exn) :
  py_max key l = Raise e -> e = ValueError /\ l = [].
Proof. destruct l; [by intros [= <-] | done]. Qed.

Lemma next_lower (r : Ramp.t) :
  lower set_iter r <> ∅ -> exists L, py_next_iter set_iter (lower set_iter r) = Ok L.
Proof.
  intros Hne. unfold py_next_iter.
  destruct (set_iter (lower set_iter r)) as [| L l] eqn:Hl; [| by exists L].
  by apply (set_iter_nil set_iter set_iter_perm) in Hl.
Qed.

(** Once [upper2_for_ramp_wall] is known, with or without two points. *)
Lemma upper2_two_or_not (r : Ramp.t) :
  (exists e, upper2_for_ramp_wall (F := F) set_iter r = Raise e /\
             e = ZeroDivisionError) \/
  (exists u, upper2_for_ramp_wall (F := F) set_iter r = Ok u /\ size u <> 2%nat) \/
  (exists u, upper2_for_ramp_wall (F := F) set_iter r = Ok u /\ size u = 2%nat /\
             lower set_iter r <> ∅).
Proof.
  destruct (upper2_cases set_iter set_iter_perm r)
    as [[Hrun _] | [[Hrun _] | (bc & _ & Hrun & _ & Hlow)]].
  - right. left. exists ∅. split; [done |]. by rewrite size_empty.
  - left. by exists ZeroDivisionError.
  - right. match type of Hrun with _ = Ok ?u => destruct (decide (size u = 2%nat)) end.
    + right. eauto.
    + left. eauto.
Qed.

Lemma in_middle_errors (radius : F) (r : Ramp.t) (e : exn) :
  in_middle set_iter set_pick radius r = Raise e -> wall_error e.
Proof.
  unfold wall_error.
  destruct (upper2_two_or_not r)
    as [(e0 & Hu & ->) | [(u & Hu & Hsz) | (u & Hu & Hsz & Hlow)]].
  - unfold in_middle. rewrite Hu. intros [= <-]. tauto.
  - rewrite (in_middle_degenerate set_iter set_pick radius r u Hu Hsz).
    intros [= <-]. tauto.
  - rewrite (in_middle_run set_iter set_pick set_pick_elem radius r u Hu Hsz).
    destruct (intersect _ _ radius) as [ints | e1] eqn:Hint; simpl.
    + destruct (next_lower r Hlow) as [L ->]. simpl. intros Hmax.
      apply py_max_raises in Hmax as [-> _]. tauto.
    + intros [= <-]. apply intersect_raises in Hint as ->. tauto.
Qed.

Lemma corner_depots_errors (r : Ramp.t) (e : exn) :
  corner_depots set_iter set_pick r = Raise e -> wall_error e.
Proof.
  destruct (upper2_two_or_not r)
    as [(e0 & Hu & ->) | [(u & Hu & Hsz) | (u & Hu & Hsz & Hlow)]].
  - destruct (wall_placement_propagates set_iter set_pick r _ Hu) as (_ & _ & -> & _).
    intros [= <-]. unfold wall_error. tauto.
  - destruct (degenerate_when_not_two set_iter set_pick r u Hu Hsz) as (_ & _ & -> & _).
    intros [= <-]. unfold wall_error. tauto.
  - rewrite (corner_depots_run set_iter set_pick set_pick_elem r u Hu Hsz). simpl.
    destruct (depot_in_middle set_iter set_pick r) as [depot | e1] eqn:Hdepot; simpl.
    + intros Hint. apply intersect_raises in Hint as ->. unfold wall_error. tauto.
    + intros [= <-]. by apply (in_middle_errors (fsqrt (of_Q 2.5)) r e1 Hdepot).
Qed.

Lemma can_fit_errors (r : Ramp.t) (e : exn) :
  barracks_can_fit_addon set_iter set_pick r = Raise e -> wall_error e.
Proof.
  destruct (upper2_two_or_not r)
    as [(e0 & Hu & ->) | [(u & Hu & Hsz) | (u & Hu & Hsz & Hlow)]].
  - destruct (wall_placement_propagates set_iter set_pick r _ Hu)
      as (_ & _ & _ & -> & _).
    intros [= <-]. unfold wall_error. tauto.
  - destruct (degenerate_when_not_two set_iter set_pick r u Hu Hsz)
      as (_ & _ & _ & -> & _).
    intros [= <-]. unfold wall_error. tauto.
  - rewrite (can_fit_run set_iter set_pick r u Hu Hsz).
    destruct (barracks_in_middle set_iter set_pick r) as [b | e1] eqn:Hb; simpl.
    + destruct (corner_depots set_iter set_pick r) as [depots | e2] eqn:Hd; simpl.
      * destruct (py_max _ depots) as [d | e3] eqn:Hmax; simpl; [done |].
        intros [= <-]. apply py_max_raises in Hmax as [-> _].
        unfold wall_error. tauto.
      * intros [= <-]. by apply (corner_depots_errors r).
    + intros [= <-]. by apply (in_middle_errors (fsqrt (of_Z 5)) r e1 Hb).
Qed.

(** [barracks_correct_placement] ends as [barracks_can_fit_addon] does. *)
Lemma correct_placement_follows (r : Ramp.t) :
  match barracks_can_fit_addon set_iter set_pick r with
  | Raise e => barracks_correct_placement set_iter set_pick r = Raise e
  | Ok fits =>
      exists b depots,
        barracks_in_middle set_iter set_pick r = Ok b /\
        corner_depots set_iter set_pick r = Ok depots /\ depots <> [] /\
        barracks_correct_placement set_iter set_pick r =
          Ok (if (fits : bool) then b else offset b (of_Z (-2), of_Z 0))
  end.
Proof.
  destruct (upper2_two_or_not r)
    as [(e0 & Hu & ->) | [(u & Hu & Hsz) | (u & Hu & Hsz & Hlow)]].
  - by destruct (wall_placement_propagates set_iter set_pick r _ Hu)
      as (_ & _ & _ & -> & ->).
  - by destruct (degenerate_when_not_two set_iter set_pick r u Hu Hsz)
      as (_ & _ & _ & -> & ->).
  - rewrite (correct_placement_run set_iter set_pick r u Hu Hsz).
    rewrite (can_fit_run set_iter set_pick r u Hu Hsz).
    destruct (barracks_in_middle set_iter set_pick r) as [b | e1]; simpl; [| done].
    destruct (corner_depots set_iter set_pick r) as [depots | e2]; simpl; [| done].
    destruct (py_max _ depots) as [d | e3] eqn:Hmax; simpl; [| done].
    exists b, depots. split; [done |]. split; [done |]. split.
    + intros ->. done.
    + by destruct (fgtb _ _).
Qed.

End outcomes.

(** X11: For every set order, [upper] is empty exactly when every point of the
    ramp is lower than the scan's initial maximum -10000 (so also for a
    ramp without points), and [lower] is empty exactly when every point is
    higher than the initial minimum 10000. *)
Theorem upper_lower_empty_iff
    (set_iter : gset Point2 -> list Point2) (r : Ramp.t) :
  (forall s, set_iter s ≡ₚ elements s) ->
  (upper set_iter r = ∅ <-> forall p, p ∈ _points r -> height_at r p < -10000) /\
  (lower set_iter r = ∅ <-> forall p, p ∈ _points r -> 10000 < height_at r p).
Proof.
  intros Hperm. split; [by apply upper_empty_iff | by apply lower_empty_iff].
Qed.

Lemma upper_lower_empty_iff_witness :
  (upper elements deep_ramp = ∅ <->
     forall p, p ∈ _points deep_ramp -> height_at deep_ramp p < -10000) /\
  (lower elements deep_ramp = ∅ <->
     forall p, p ∈ _points deep_ramp -> 10000 < height_at deep_ramp p).
Proof. apply (upper_lower_empty_iff elements deep_ramp elements_perm_refl). Defined.

(** X12: [top_center] divides by the number of upper points: it raises
    [ZeroDivisionError] exactly when [upper] is empty and raises nothing
    else; otherwise its value is the sum of the x coordinates and the sum of
    the y coordinates of the upper points, each divided by their number,
    whatever the order of the set.  The same holds of [bottom_center] and
    [lower]. *)
Theorem centers_divide_by_count {F : Type} `{FloatOps F}
    (set_iter : gset Point2 -> list Point2) (r : Ramp.t) :
  (forall s, set_iter s ≡ₚ elements s) ->
  (forall e, top_center (F := F) set_iter r = Raise e <->
             e = ZeroDivisionError /\ upper set_iter r = ∅) /\
  (forall e, bottom_center (F := F) set_iter r = Raise e <->
             e = ZeroDivisionError /\ lower set_iter r = ∅) /\
  (upper set_iter r <> ∅ ->
   top_center (F := F) set_iter r =
     Ok (fdiv (of_Z (py_sum (px <$> elements (upper elements r))))
              (of_Z (Z.of_nat (size (upper elements r)))),
         fdiv (of_Z (py_sum (py <$> elements (upper elements r))))
              (of_Z (Z.of_nat (size (upper elements r)))))) /\
  (lower set_iter r <> ∅ ->
   bottom_center (F := F) set_iter r =
     Ok (fdiv (of_Z (py_sum (px <$> elements (lower elements r))))
              (of_Z (Z.of_nat (size (lower elements r)))),
         fdiv (of_Z (py_sum (py <$> elements (lower elements r))))
              (of_Z (Z.of_nat (size (lower elements r)))))).
Proof.
  intros Hperm.
  assert (forall s : gset Point2, elements s ≡ₚ elements s) as Hel by done.
  assert (forall (s : gset Point2) e,
            center_of (F := F) set_iter s = Raise e <-> e = ZeroDivisionError /\ s = ∅)
    as Hraise.
  { intros s e. split; [apply center_of_raises |].
    intros [-> ->]. apply center_of_empty. }
  assert (forall s : gset Point2, s <> ∅ ->
            center_of (F := F) set_iter s =
              Ok (fdiv (of_Z (py_sum (px <$> elements s))) (of_Z (Z.of_nat (size s))),
                  fdiv (of_Z (py_sum (py <$> elements s))) (of_Z (Z.of_nat (size s)))))
    as Hvalue.
  { intros s Hs. rewrite (center_of_any_order elements set_iter s Hel Hperm).
    unfold center_of. rewrite decide_False; [done |].
    intros Hz. by apply size_empty_iff, leibniz_equiv in Hz. }
  split; [intros e; apply Hraise |]. split; [intros e; apply Hraise |].
  unfold top_center, bottom_center.
  rewrite (upper_any_order elements Hel set_iter Hperm r).
  rewrite (lower_any_order elements Hel set_iter Hperm r).
  split; apply Hvalue.
Qed.

Lemma centers_divide_by_count_witness :
  top_center (F := Q) elements small_ramp = Ok (1 # 2, 2)%Q /\
  bottom_center (F := Q) elements small_ramp = Ok (1 # 2, 0)%Q.
Proof.
  destruct (centers_divide_by_count (F := Q) elements small_ramp elements_perm_refl)
    as (_ & _ & Htop & Hbottom).
  split.
  - rewrite Htop; [reflexivity |]. by vm_compute.
  - rewrite Hbottom; [reflexivity |]. by vm_compute.
Defined.

(** X13: [upper] and [lower] share a point only on a flat ramp: then every point
    has the height of that point, and [upper] and [lower] are both the set
    of all points. *)
Theorem upper_meets_lower_on_flat_ramp
    (set_iter : gset Point2 -> list Point2) (r : Ramp.t) (p : Point2) :
  (forall s, set_iter s ≡ₚ elements s) ->
  p ∈ upper set_iter r -> p ∈ lower set_iter r ->
  (forall q, q ∈ _points r -> height_at r q = height_at r p) /\
  upper set_iter r = _points r /\ lower set_iter r = _points r.
Proof.
  intros Hperm Hup Hlow.
  destruct (upper_level set_iter Hperm r) as (M & _ & HU & Hmax & _).
  destruct (lower_level set_iter Hperm r) as (m & _ & HL & Hmin & _).
  apply HU in Hup as [Hp HM]. apply HL in Hlow as [_ Hm].
  assert (forall q, q ∈ _points r -> height_at r q = height_at r p) as Hflat.
  { intros q Hq. pose proof (Hmax q Hq). pose proof (Hmin q Hq). lia. }
  split; [done |]. split; apply set_eq; intros q.
  - rewrite HU. split; [tauto |]. intros Hq. split; [done |]. rewrite Hflat by done. done.
  - rewrite HL. split; [tauto |]. intros Hq. split; [done |]. rewrite Hflat by done. done.
Qed.

Lemma upper_meets_lower_on_flat_ramp_witness :
  (forall q, q ∈ _points flat_ramp -> height_at flat_ramp q = height_at flat_ramp (0, 0)) /\
  upper elements flat_ramp = _points flat_ramp /\
  lower elements flat_ramp = _points flat_ramp.
Proof.
  apply (upper_meets_lower_on_flat_ramp elements flat_ramp (0, 0) elements_perm_refl).
  - apply (bool_decide_unpack _). by vm_compute.
  - apply (bool_decide_unpack _). by vm_compute.
Defined.

(** X14: Whenever [upper2_for_ramp_wall] returns, it returns at most two points,
    all of them upper points; it returns exactly two when [upper] has 2 to
    5 points, and only then. *)
Theorem upper2_at_most_two_upper_points {F : Type} `{FloatOps F} `{Point2Ops F}
    (set_iter : gset Point2 -> list Point2) (r : Ramp.t) (u : gset Point2) :
  (forall s, set_iter s ≡ₚ elements s) ->
  upper2_for_ramp_wall (F := F) set_iter r = Ok u ->
  u ⊆ upper set_iter r /\ (size u <= 2)%nat /\
  (size u = 2%nat <-> (2 <= size (upper set_iter r) <= 5)%nat).
Proof.
  intros Hperm Hu.
  destruct (upper2_subseteq set_iter Hperm r u Hu) as [Hsub Hsz].
  split; [done |]. rewrite Hsz. case_decide; lia.
Qed.

Lemma upper2_at_most_two_upper_points_witness :
  let u : gset Point2 := {[ (0, 2); (1, 2) ]} in
  u ⊆ upper elements small_ramp /\ (size u <= 2)%nat /\
  (size u = 2%nat <-> (2 <= size (upper elements small_ramp) <= 5)%nat).
Proof.
  intros u.
  apply (upper2_at_most_two_upper_points (F := Q) elements small_ramp u
           elements_perm_refl).
  by vm_compute.
Defined.

(** X15: Which ramps the wall placement operations refuse: each of the five
    operations raises the error of a ramp with a wrong amount of upper
    points exactly when [upper] has more than 5 points, or none, or a single
    point while [lower] is not empty. *)
Theorem wall_placement_refuses_by_upper_count
    {F : Type} `{FloatOps F} `{Point2Ops F}
    (set_iter : gset Point2 -> list Point2) (set_pick : gset Point2 -> Point2)
    (r : Ramp.t) :
  (forall s, set_iter s ≡ₚ elements s) ->
  (forall s, s <> ∅ -> set_pick s ∈ s) ->
  let refused :=
    (5 < size (upper set_iter r))%nat \/ size (upper set_iter r) = 0%nat \/
    (size (upper set_iter r) = 1%nat /\ lower set_iter r <> ∅) in
  (barracks_in_middle (F := F) set_iter set_pick r = Raise DegenerateRamp <-> refused) /\
  (depot_in_middle (F := F) set_iter set_pick r = Raise DegenerateRamp <-> refused) /\
  (corner_depots (F := F) set_iter set_pick r = Raise DegenerateRamp <-> refused) /\
  (barracks_can_fit_addon (F := F) set_iter set_pick r = Raise DegenerateRamp
     <-> refused) /\
  (barracks_correct_placement (F := F) set_iter set_pick r = Raise DegenerateRamp
     <-> refused).
Proof.
  intros Hperm Hpick refused.
  destruct (upper2_cases (F := F) set_iter Hperm r)
    as [[Hrun Hcase] | [(Hrun & Hsz & Hlow) | (bc & _ & Hrun & Hsz & Hlow)]].
  - assert (refused) as Href.
    { destruct Hcase as [Hlarge | Hemp]; [by left |].
      right. left. by rewrite Hemp, size_empty. }
    destruct (degenerate_when_not_two set_iter set_pick r ∅ Hrun)
      as (-> & -> & -> & -> & ->); [by rewrite size_empty |]. tauto.
  - assert (~ refused) as Href.
    { intros [Hlarge | [Hz | [_ Hne]]]; [lia | lia | done]. }
    destruct (wall_placement_propagates set_iter set_pick r _ Hrun)
      as (-> & -> & -> & -> & ->).
    repeat split; (done || tauto).
  - pose proof (size_take_2_sorted set_iter Hperm r (wall_key bc)) as Hsize.
    assert (refused <->
            size (list_to_set (C := gset Point2)
                    (take 2 (ByKeySpec.sorted_desc_by (wall_key bc)
                               (set_iter (upper set_iter r))))) <> 2%nat) as ->.
    { rewrite Hsize. unfold refused. split.
      - intros [Hlarge | [Hz | [Hone _]]]; lia.
      - intros Hne. right. right. split; [lia | done]. }
    by apply degenerate_iff.
Qed.

Lemma wall_placement_refuses_by_upper_count_witness :
  let refused :=
    (5 < size (upper elements pointed_ramp))%nat \/
    size (upper elements pointed_ramp) = 0%nat \/
    (size (upper elements pointed_ramp) = 1%nat /\ lower elements pointed_ramp <> ∅) in
  (barracks_in_middle (F := Q) elements first_elem pointed_ramp
     = Raise DegenerateRamp <-> refused) /\
  (depot_in_middle (F := Q) elements first_elem pointed_ramp
     = Raise DegenerateRamp <-> refused) /\
  (corner_depots (F := Q) elements first_elem pointed_ramp
     = Raise DegenerateRamp <-> refused) /\
  (barracks_can_fit_addon (F := Q) elements first_elem pointed_ramp
     = Raise DegenerateRamp <-> refused) /\
  (barracks_correct_placement (F := Q) elements first_elem pointed_ramp
     = Raise DegenerateRamp <-> refused).
Proof.
  apply (wall_placement_refuses_by_upper_count (F := Q) elements first_elem
           pointed_ramp elements_perm_refl first_elem_in).
Defined.

(** X16: The five wall placement operations raise nothing but
    [ZeroDivisionError] (of [bottom_center]), the error of a ramp with a
    wrong amount of upper points, a failure of [circle_intersection] and the
    [ValueError] of [max] on no intersection point: neither of the two
    [pop()] nor [next(iter(self.lower))] ever fails. *)
Theorem wall_placement_errors
    {F : Type} `{FloatOps F} `{Point2Ops F}
    (set_iter : gset Point2 -> list Point2) (set_pick : gset Point2 -> Point2)
    (r : Ramp.t) (e : exn) :
  (forall s, set_iter s ≡ₚ elements s) ->
  (forall s, s <> ∅ -> set_pick s ∈ s) ->
  barracks_in_middle (F := F) set_iter set_pick r = Raise e \/
  depot_in_middle (F := F) set_iter set_pick r = Raise e \/
  corner_depots (F := F) set_iter set_pick r = Raise e \/
  barracks_can_fit_addon (F := F) set_iter set_pick r = Raise e \/
  barracks_correct_placement (F := F) set_iter set_pick r = Raise e ->
  e = ZeroDivisionError \/ e = DegenerateRamp \/ e = GeometryError \/ e = ValueError.
Proof.
  intros Hperm Hpick [Hb | [Hd | [Hc | [Hf | Hp]]]].
  - by apply (in_middle_errors set_iter set_pick Hperm Hpick (fsqrt (of_Z 5)) r e Hb).
  - by apply (in_middle_errors set_iter set_pick Hperm Hpick (fsqrt (of_Q 2.5)) r e Hd).
  - by apply (corner_depots_errors set_iter set_pick Hperm Hpick r).
  - by apply (can_fit_errors set_iter set_pick Hperm Hpick r).
  - pose proof (correct_placement_follows set_iter set_pick Hperm r) as Hfollow.
    destruct (barracks_can_fit_addon set_iter set_pick r) as [fits | e'] eqn:Hfit.
    + destruct Hfollow as (b & depots & _ & _ & _ & Hok). by rewrite Hok in Hp.
    + rewrite Hfollow in Hp. injection Hp as <-.
      by apply (can_fit_errors set_iter set_pick Hperm Hpick r).
Qed.

Lemma wall_placement_errors_witness :
  barracks_in_middle (F := Q) elements first_elem pointed_ramp = Raise DegenerateRamp /\
  (DegenerateRamp = ZeroDivisionError \/ DegenerateRamp = DegenerateRamp \/
   DegenerateRamp = GeometryError \/ DegenerateRamp = ValueError).
Proof.
  split; [reflexivity |].
  apply (wall_placement_errors (F := Q) elements first_elem pointed_ramp
           DegenerateRamp elements_perm_refl first_elem_in).
  left. reflexivity.
Defined.

(** X17: [barracks_correct_placement] fails exactly when [barracks_can_fit_addon]
    fails, with the same error; when [barracks_can_fit_addon] returns,
    [barracks_in_middle] and [corner_depots] have returned, there is a corner
    depot, and [barracks_correct_placement] returns too.  An error of
    [barracks_in_middle] is the outcome of [barracks_can_fit_addon]. *)
Theorem correct_placement_follows_can_fit
    {F : Type} `{FloatOps F} `{Point2Ops F}
    (set_iter : gset Point2 -> list Point2) (set_pick : gset Point2 -> Point2)
    (r : Ramp.t) :
  (forall s, set_iter s ≡ₚ elements s) ->
  (forall e, barracks_correct_placement (F := F) set_iter set_pick r = Raise e <->
             barracks_can_fit_addon (F := F) set_iter set_pick r = Raise e) /\
  (forall fits, barracks_can_fit_addon (F := F) set_iter set_pick r = Ok fits ->
     exists b depots,
       barracks_in_middle set_iter set_pick r = Ok b /\
       corner_depots set_iter set_pick r = Ok depots /\ depots <> [] /\
       barracks_correct_placement set_iter set_pick r =
         Ok (if (fits : bool) then b else offset b (of_Z (-2), of_Z 0))) /\
  (forall e, barracks_in_middle (F := F) set_iter set_pick r = Raise e ->
             barracks_can_fit_addon (F := F) set_iter set_pick r = Raise e).
Proof.
  intros Hperm.
  pose proof (correct_placement_follows set_iter set_pick Hperm r) as Hfollow.
  split; [| split].
  - intros e. destruct (barracks_can_fit_addon set_iter set_pick r) as [fits | e'].
    + destruct Hfollow as (b & depots & _ & _ & _ & ->). split; done.
    + rewrite Hfollow. split; intros [= <-]; done.
  - intros fits Hfit. by rewrite Hfit in Hfollow.
  - intros e Hb.
    destruct (upper2_two_or_not set_iter Hperm r)
      as [(e0 & Hu & ->) | [(u & Hu & Hsz) | (u & Hu & Hsz & Hlow)]].
    + destruct (wall_placement_propagates set_iter set_pick r _ Hu)
        as (Hb' & _ & _ & -> & _). rewrite Hb' in Hb. by injection Hb as <-.
    + destruct (degenerate_when_not_two set_iter set_pick r u Hu Hsz)
        as (Hb' & _ & _ & -> & _). rewrite Hb' in Hb. by injection Hb as <-.
    + rewrite (can_fit_run set_iter set_pick r u Hu Hsz), Hb. done.
Qed.

Lemma correct_placement_follows_can_fit_witness :
  (forall e, barracks_correct_placement (F := Q) elements first_elem small_ramp = Raise e <->
             barracks_can_fit_addon (F := Q) elements first_elem small_ramp = Raise e) /\
  (forall fits, barracks_can_fit_addon (F := Q) elements first_elem small_ramp = Ok fits ->
     exists b depots,
       barracks_in_middle elements first_elem small_ramp = Ok b /\
       corner_depots elements first_elem small_ramp = Ok depots /\ depots <> [] /\
       barracks_correct_placement elements first_elem small_ramp =
         Ok (if (fits : bool) then b else offset b (of_Z (-2), of_Z 0))) /\
  (forall e, barracks_in_middle (F := Q) elements first_elem small_ramp = Raise e ->
             barracks_can_fit_addon (F := Q) elements first_elem small_ramp = Raise e).
Proof.
  apply (correct_placement_follows_can_fit (F := Q) elements first_elem small_ramp
           elements_perm_refl).
Defined.

End RampFacts.

(** ** Ramp discovery *)

Module GameInfoFacts.
Import Adjacency FindGroupsSpec FindGroupsProofs Samples GameInfo QFloat.

Lemma elem_of_rampPoints (self : GameInfo.t) (p : Point2) :
  p ∈ rampPoints self <->
  in_map (width (pathing_grid self)) (height (pathing_grid self)) p /\
  getitem (placement_grid self) p = 0 /\ getitem (pathing_grid self) p = 0.
Proof.
  unfold rampPoints, in_map. rewrite elem_of_list_to_set, list_elem_of_bind. split.
  - intros (x & Hin & Hx). apply list_elem_of_bind in Hin as (y & Hin & Hy).
    case_decide as Hzero; [| by apply elem_of_nil in Hin].
    apply list_elem_of_singleton in Hin as ->.
    apply elem_of_py_range in Hx, Hy. unfold px, py. simpl. split; [lia | done].
  - intros ((Hx & Hy) & Hzero). destruct p as [x y]. unfold px, py in *. simpl in *.
    exists x. split; [| apply elem_of_py_range; lia].
    apply list_elem_of_bind. exists y. split; [| apply elem_of_py_range; lia].
    rewrite decide_True by done. by apply list_elem_of_singleton.
Qed.

Lemma find_ramps_run (set_iter : gset Point2 -> list Point2)
    (set_pick : gset Point2 -> Point2) (self : GameInfo.t) :
  (forall s, set_iter s ≡ₚ elements s) ->
  (forall s, s <> ∅ -> set_pick s ∈ s) ->
  exists groups,
    _find_ramps set_iter set_pick self = Ok (new_ramp self <$> groups) /\
    groups_inv 2 8 (rampPoints self) ∅ groups.
Proof.
  intros Hiter Hpick. unfold _find_ramps, _find_groups.
  destruct (find_groups_spec set_iter set_pick Hiter Hpick
              (width (pathing_grid self)) (height (pathing_grid self))
              (rampPoints self) 8 2) as (groups & -> & Hinv).
  { intros p Hp. by apply elem_of_rampPoints in Hp as [? _]. }
  by exists groups.
Qed.

(** X8: [_find_ramps] raises nothing, whatever the grids hold.  Every ramp it
    returns has the terrain height as its height map and at least 8 points,
    all of them cells of the map where both grids are 0, connected by hops
    of Manhattan distance at most 2; and two ramps share no point. *)
Theorem find_ramps_returns_ramps
    (set_iter : gset Point2 -> list Point2) (set_pick : gset Point2 -> Point2)
    (self : GameInfo.t) :
  (forall s, set_iter s ≡ₚ elements s) ->
  (forall s, s <> ∅ -> set_pick s ∈ s) ->
  exists ramps,
    _find_ramps set_iter set_pick self = Ok ramps /\
    (forall r, r ∈ ramps ->
       Ramp._height_map r = getitem (terrain_height self) /\
       (8 <= Ramp.size r)%nat /\
       Ramp._points r ⊆ rampPoints self /\
       connected 2 (Ramp._points r)) /\
    (forall i j ri rj, i <> j -> ramps !! i = Some ri -> ramps !! j = Some rj ->
       Ramp._points ri ## Ramp._points rj).
Proof.
  intros Hiter Hpick.
  destruct (find_ramps_run set_iter set_pick self Hiter Hpick)
    as (groups & Hrun & Hcomp & Hpd & _).
  eexists. split; [done |]. split.
  - intros r Hr. apply list_elem_of_fmap in Hr as (G & -> & HG).
    destruct (Hcomp G HG) as ((_ & Hsub & Hconn & _) & _ & Hsz).
    unfold new_ramp, Ramp.size. simpl. split; [done |]. split; [lia | done].
  - intros i j ri rj Hij Hi Hj. rewrite list_lookup_fmap in Hi, Hj.
    destruct (groups !! i) as [Gi |] eqn:HGi; [| done].
    destruct (groups !! j) as [Gj |] eqn:HGj; [| done].
    simpl in Hi, Hj. injection Hi as <-. injection Hj as <-. simpl.
    by apply (Hpd i j).
Qed.

Lemma find_ramps_returns_ramps_witness :
  exists ramps,
    _find_ramps elements first_elem small_map = Ok ramps /\
    (forall r, r ∈ ramps ->
       Ramp._height_map r = getitem (terrain_height small_map) /\
       (8 <= Ramp.size r)%nat /\
       Ramp._points r ⊆ rampPoints small_map /\
       connected 2 (Ramp._points r)) /\
    (forall i j ri rj, i <> j -> ramps !! i = Some ri -> ramps !! j = Some rj ->
       Ramp._points ri ## Ramp._points rj).
Proof.
  apply (find_ramps_returns_ramps elements first_elem small_map
           elements_perm_refl first_elem_in).
Defined.

(** X9: The ramps are the clusters of candidate cells with at least 8 cells: a
    set of cells is the point set of a returned ramp exactly when it is a
    maximal connected cluster (under hops of Manhattan distance at most 2)
    of the candidate cells and has 8 cells or more. *)
Theorem find_ramps_finds_every_cluster
    (set_iter : gset Point2 -> list Point2) (set_pick : gset Point2 -> Point2)
    (self : GameInfo.t) :
  (forall s, set_iter s ≡ₚ elements s) ->
  (forall s, s <> ∅ -> set_pick s ∈ s) ->
  exists ramps,
    _find_ramps set_iter set_pick self = Ok ramps /\
    forall C : gset Point2,
      (exists r, r ∈ ramps /\ Ramp._points r = C) <->
      component 2 (rampPoints self) C /\ (8 <= size C)%nat.
Proof.
  intros Hiter Hpick.
  destruct (find_ramps_run set_iter set_pick self Hiter Hpick)
    as (groups & Hrun & Hcomp & _ & Hall).
  eexists. split; [done |]. intros C. split.
  - intros (r & Hr & <-). apply list_elem_of_fmap in Hr as (G & -> & HG).
    destruct (Hcomp G HG) as (HC & _ & Hsz). simpl. split; [done | lia].
  - intros [HC Hsz]. exists (new_ramp self C). split; [| done].
    apply list_elem_of_fmap. exists C. split; [done |].
    apply Hall; [done | set_solver | lia].
Qed.

Lemma find_ramps_finds_every_cluster_witness :
  exists ramps,
    _find_ramps elements first_elem small_map = Ok ramps /\
    forall C : gset Point2,
      (exists r, r ∈ ramps /\ Ramp._points r = C) <->
      component 2 (rampPoints small_map) C /\ (8 <= size C)%nat.
Proof.
  apply (find_ramps_finds_every_cluster elements first_elem small_map
           elements_perm_refl first_elem_in).
Defined.

(** X10: Where the terrain height of every cell of the map is between -10000
    and 10000, every ramp that [_find_ramps] returns has upper points and
    lower points, so that [top_center], [bottom_center] and
    [upper2_for_ramp_wall] return a value on it. *)
Theorem found_ramps_have_centers {F : Type} `{FloatOps F} `{Point2Ops F}
    (set_iter : gset Point2 -> list Point2) (set_pick : gset Point2 -> Point2)
    (self : GameInfo.t) :
  (forall s, set_iter s ≡ₚ elements s) ->
  (forall s, s <> ∅ -> set_pick s ∈ s) ->
  (forall x y, 0 <= x < width (pathing_grid self) ->
               0 <= y < height (pathing_grid self) ->
               -10000 <= getitem (terrain_height self) (x, y) <= 10000) ->
  exists ramps,
    _find_ramps set_iter set_pick self = Ok ramps /\
    forall r, r ∈ ramps ->
      Ramp.upper set_iter r <> ∅ /\ Ramp.lower set_iter r <> ∅ /\
      (exists top : F * F, Ramp.top_center set_iter r = Ok top) /\
      (exists bottom : F * F, Ramp.bottom_center set_iter r = Ok bottom) /\
      (exists u, Ramp.upper2_for_ramp_wall (F := F) set_iter r = Ok u).
Proof.
  intros Hiter Hpick Hbound.
  destruct (find_ramps_run set_iter set_pick self Hiter Hpick)
    as (groups & Hrun & Hcomp & _).
  eexists. split; [done |].
  intros r Hr. apply list_elem_of_fmap in Hr as (G & -> & HG).
  destruct (Hcomp G HG) as ((Hne & Hsub & _) & _).
  destruct (set_choose_or_empty G) as [[p Hp] | Hemp]; [| set_solver].
  assert (-10000 <= Ramp.height_at (new_ramp self G) p <= 10000) as Hh.
  { apply Hsub, elem_of_rampPoints in Hp as [[Hx Hy] _].
    destruct p as [x y]. by apply Hbound. }
  assert (Ramp.upper set_iter (new_ramp self G) <> ∅) as Hup.
  { intros Hemp. pose proof (proj1 (RampFacts.upper_empty_iff set_iter Hiter _) Hemp) as Hall.
    specialize (Hall p Hp). lia. }
  assert (Ramp.lower set_iter (new_ramp self G) <> ∅) as Hlow.
  { intros Hemp. pose proof (proj1 (RampFacts.lower_empty_iff set_iter Hiter _) Hemp) as Hall.
    specialize (Hall p Hp). lia. }
  split; [done |]. split; [done |].
  split; [by apply RampProofs.center_of_nonempty |].
  split; [by apply RampProofs.center_of_nonempty |].
  destruct (RampFacts.upper2_cases (F := F) set_iter Hiter (new_ramp self G))
    as [[Hok _] | [(_ & _ & Hnone) | (bc & _ & Hok & _)]]; [eauto | done | eauto].
Qed.

Lemma found_ramps_have_centers_witness :
  exists ramps,
    _find_ramps elements first_elem small_map = Ok ramps /\
    forall r, r ∈ ramps ->
      Ramp.upper elements r <> ∅ /\ Ramp.lower elements r <> ∅ /\
      (exists top : Q * Q, Ramp.top_center elements r = Ok top) /\
      (exists bottom : Q * Q, Ramp.bottom_center elements r = Ok bottom) /\
      (exists u, Ramp.upper2_for_ramp_wall (F := Q) elements r = Ok u).
Proof.
  apply (found_ramps_have_centers (F := Q) elements first_elem small_map
           elements_perm_refl first_elem_in).
  intros x y Hx Hy. simpl in *. unfold px. simpl. lia.
Defined.

End GameInfoFacts.

(** ** The wall points and the order of the sets *)

Module WallOrder.
Import Ramp QFloat RampSpec RampProofs Samples RampFacts.
Import FindGroupsSpec FindGroupsProofs FindGroupsFacts.

Local Abbreviation size := stdpp.base.size (only parsing).

Section unique.

Context {F : Type} `{FloatOps F} `{!FloatOrder F} {A : Type}.

Lemma sorted_desc_strongly (k : A -> F) (sl : list (F * A)) :
  ByKeySpec.sorted_desc sl -> Forall (fun kx => fst kx = k (snd kx)) sl ->
  StronglySorted (fun a b => fltb (k a) (k b) = false) (snd <$> sl).
Proof.
  induction sl as [| a sl IH]; intros Hsorted Hkeys; simpl; [constructor |].
  destruct Hsorted as [Hhead Hsorted].
  apply Forall_cons in Hkeys as [Ha Hkeys].
  constructor; [by apply IH |].
  apply Forall_fmap. apply list.Forall_forall. intros b Hb. simpl.
  rewrite <- Ha. rewrite <- (proj1 (list.Forall_forall _ _) Hkeys b Hb).
  by apply (proj1 (list.Forall_forall _ _) Hhead).
Qed.

(** Without ties, the sorted list does not depend on the order of the
    input. *)
Lemma sorted_desc_by_unique (k : A -> F) (l l' : list A) :
  l ≡ₚ l' ->
  (forall x y, x ∈ l -> y ∈ l ->
     fltb (k x) (k y) = false -> fltb (k y) (k x) = false -> x = y) ->
  ByKeySpec.sorted_desc_by k l = ByKeySpec.sorted_desc_by k l'.
Proof.
  intros Hperm Hties.
  apply (StronglySorted_unique_strong (fun a b => fltb (k a) (k b) = false)).
  - intros x y Hx Hy. apply Hties.
    + by rewrite (ByKeyProofs.sorted_desc_by_perm k l) in Hx.
    + rewrite (ByKeyProofs.sorted_desc_by_perm k l') in Hy. by rewrite Hperm.
  - apply sorted_desc_strongly;
      [apply ByKeyProofs.sort_desc_sorted | apply ByKeyProofs.sorted_desc_by_keys].
  - apply sorted_desc_strongly;
      [apply ByKeyProofs.sort_desc_sorted | apply ByKeyProofs.sorted_desc_by_keys].
  - by rewrite !ByKeyProofs.sorted_desc_by_perm.
Qed.

End unique.

(** X18: [upper2_for_ramp_wall] returns the same for every order of the sets,
    provided no two upper points are equally far from [bottom_center]
    (neither squared distance smaller than the other). *)
Theorem upper2_same_for_every_order_without_ties
    {F : Type} `{FloatOps F} `{Point2Ops F} `{!FloatOrder F}
    (set_iter set_iter' : gset Point2 -> list Point2) (r : Ramp.t) :
  (forall s, set_iter s ≡ₚ elements s) ->
  (forall s, set_iter' s ≡ₚ elements s) ->
  (forall bc p q,
     bottom_center (F := F) set_iter r = Ok bc ->
     p ∈ upper set_iter r -> q ∈ upper set_iter r ->
     fltb (_distance_squared (as_float p) bc) (_distance_squared (as_float q) bc) = false ->
     fltb (_distance_squared (as_float q) bc) (_distance_squared (as_float p) bc) = false ->
     p = q) ->
  upper2_for_ramp_wall (F := F) set_iter' r = upper2_for_ramp_wall set_iter r.
Proof.
  intros Hperm Hperm' Hties.
  pose proof (upper_any_order set_iter Hperm set_iter' Hperm' r) as Hup.
  pose proof (lower_any_order set_iter Hperm set_iter' Hperm' r) as Hlow.
  assert (bottom_center (F := F) set_iter' r = bottom_center set_iter r) as Hbc.
  { unfold bottom_center. rewrite Hlow. by apply center_of_any_order. }
  destruct (upper2_cases (F := F) set_iter Hperm r)
    as [[-> Hcase] | [(-> & Hsz & Hnone) | (bc & Hbot & -> & Hsz & Hsome)]].
  - destruct Hcase as [Hlarge | Hemp].
    + apply upper2_large. by rewrite Hup.
    + apply upper2_no_upper; [done |]. by rewrite Hup.
  - apply upper2_raise; [done | | |].
    + rewrite Hup. intros Hemp. rewrite Hemp, size_empty in Hsz. lia.
    + rewrite Hup. lia.
    + rewrite Hbc. unfold bottom_center. rewrite Hnone. apply center_of_empty.
  - rewrite (upper2_small set_iter' r bc); [| rewrite Hup; lia | by rewrite Hbc].
    rewrite Hup. do 3 f_equal. apply sorted_desc_by_unique.
    + by rewrite Hperm, Hperm'.
    + intros p q Hp Hq. apply (Hties bc p q Hbot).
      * rewrite Hperm' in Hp. by apply elem_of_elements in Hp.
      * rewrite Hperm' in Hq. by apply elem_of_elements in Hq.
Qed.

Lemma upper2_same_for_every_order_without_ties_witness :
  upper2_for_ramp_wall (F := Q) rev_elements skew_ramp =
  upper2_for_ramp_wall (F := Q) elements skew_ramp.
Proof.
  apply (upper2_same_for_every_order_without_ties (F := Q)
           (FloatOrder0 := Q_float_order) elements rev_elements skew_ramp
           elements_perm_refl rev_elements_perm).
  intros bc p q Hbc Hp Hq.
  assert (bc = (0, 0)%Q) as -> by (vm_compute in Hbc; by injection Hbc as <-).
  assert (elements (upper elements skew_ramp) ≡ₚ [(0, 2); (1, 2)]) as Hel.
  { vm_compute. by apply Permutation_swap || reflexivity. }
  apply elem_of_elements in Hp, Hq. rewrite Hel in Hp, Hq.
  apply elem_of_cons in Hp as [-> | Hp]; apply elem_of_cons in Hq as [-> | Hq];
    try apply list_elem_of_singleton in Hp as ->;
    try apply list_elem_of_singleton in Hq as ->;
    try done; vm_compute; intros; discriminate.
Defined.

End WallOrder.
